(** * The hyperbolic geometry kernel of d3-hyperbolic

  A shallow embedding of [src/hyperbolic_functions.js]: the coordinate
  transforms between canvas and Poincare disk, the projection
  [to_poincare], the circle construction [poincare_circle] and the
  geodesic construction [poincare_geodesic] with the Euclidean
  primitives it is built from.

  The JavaScript functions compute on Numbers.  They are translated once,
  over an interface [JSNumber] listing the arithmetic operators and the
  [Math] functions the source uses, and read at three instances:

  - [xreal], the reals extended with the IEEE special values [NaN],
    [+Infinity] and [-Infinity].  Arithmetic on finite values is exact;
    a division by zero, a square root of a negative number or an
    [atanh] outside its domain yields the special value that
    ECMAScript prescribes.  Rounding, overflow and the sign of zero are
    not modelled.  The properties are stated and proved at this
    instance, except those that depend on how close to [1] a hyperbolic
    tangent can get.

  - [xreal] again, with the one rounding that changes what the source
    computes from a point inside the disk to a point of its boundary:
    at [xreal_saturating], [Math.tanh] returns [1] (or [-1]) for a value
    that binary64 rounds to it.  The bounds on the projected radius and
    on the position of a projected node, the order of the radii, the
    conversions between hyperbolic and Euclidean radii and the arc of a
    rendered edge are stated at this instance.

  - [IEEE.number], binary64 floating point, on which the functions that
    use only the arithmetic operators can be run: the examples at this
    instance show what rounding does to an equation proved at [xreal].

  The code around the kernel is embedded after it: the remaining
  functions of the file ([polar_to_cart], [cart_to_polar], [hyper_dist],
  [arc_path]), the disk and the drawing loop of [render], [setGraph],
  the click handlers of [src/main.js] and the generator [erdos_renyi].
  A handler or a loop is a function from state to state, a [TypeError]
  is [None], and [Math.random] is a stream.  What only talks to the page
  (the d3 selections and the DOM) is left out. *)

From Stdlib Require Import Reals QArith Lra Lia ZArith NArith Ascii String List FinFun.
Import ListNotations.
From Stdlib Require Floats Uint63.

(** ** The Number interface *)

Declare Scope js_scope.
Delimit Scope js_scope with js.

(** The operators and [Math] functions used by the source.  [lit] reads a
  decimal literal of the source; the exponent of [Math.pow] is a natural
  number because the source only ever passes the literal [2]. *)
Class JSNumber (T : Type) := {
  lit : Q -> T;
  add : T -> T -> T;
  sub : T -> T -> T;
  mul : T -> T -> T;
  div : T -> T -> T;
  neg : T -> T;
  gtb : T -> T -> bool;
  Math_abs : T -> T;
  Math_sqrt : T -> T;
  Math_pow : T -> nat -> T;
  Math_hypot : T -> T -> T;
  Math_atan2 : T -> T -> T;
  Math_sin : T -> T;
  Math_cos : T -> T;
  Math_tanh : T -> T;
  Math_acosh : T -> T;
  Math_atanh : T -> T
}.

Arguments lit {T _} q%_Q.

Infix "+" := add : js_scope.
Infix "-" := sub : js_scope.
Infix "*" := mul : js_scope.
Infix "/" := div : js_scope.
Notation "- x" := (neg x) : js_scope.
Infix ">?" := gtb (at level 70, no associativity) : js_scope.

(** ** Data model

  Object literals of the source become records; one module per shape keeps
  the field names of the source. *)

(** [{x, y}]: a point, in canvas space or in disk space. *)
Module Point.
Record t (T : Type) := mk { x : T; y : T }.
Arguments mk {T}.
Arguments x {T}.
Arguments y {T}.
End Point.

(** [{a, b, c}]: a line [a*x + b*y + c = 0]. *)
Module Line.
Record t (T : Type) := mk { a : T; b : T; c : T }.
Arguments mk {T}.
Arguments a {T}.
Arguments b {T}.
Arguments c {T}.
End Line.

(** The bounding rectangle of the drawing area. *)
Module BoundBox.
Record t (T : Type) := mk { left : T; top : T; right : T; bottom : T }.
Arguments mk {T}.
Arguments left {T}.
Arguments top {T}.
Arguments right {T}.
Arguments bottom {T}.
End BoundBox.

(** [{cx, cy, r}]: what [circle_inversion] reads of its second argument. *)
Module CircleObject.
Record t (T : Type) := mk { cx : T; cy : T; r : T }.
Arguments mk {T}.
Arguments cx {T}.
Arguments cy {T}.
Arguments r {T}.
End CircleObject.

(** The [poindisk] object: bounding box, canvas centre and radius.  (Its
  [center] field duplicates [cx], [cy] and is read by none of the
  functions below.) *)
Module PoinDisk.
Record t (T : Type) := mk { boundbox : BoundBox.t T; cx : T; cy : T; r : T }.
Arguments mk {T}.
Arguments boundbox {T}.
Arguments cx {T}.
Arguments cy {T}.
Arguments r {T}.

(** [poincare_geodesic] passes the disk itself where a circle is
    expected. *)
Definition as_circle {T} (d : t T) : CircleObject.t T :=
  CircleObject.mk d.(cx) d.(cy) d.(r).
End PoinDisk.

(** The object returned by [poincare_circle]. *)
Module Circle.
Record t (T : Type) := mk {
  cx : T; cy : T; r : T; px : T; py : T;
  center : Point.t T; hcenter : Point.t T }.
Arguments mk {T}.
Arguments cx {T}.
Arguments cy {T}.
Arguments r {T}.
Arguments px {T}.
Arguments py {T}.
Arguments center {T}.
Arguments hcenter {T}.
End Circle.

(** The object returned by [poincare_geodesic]. *)
Module Arc.
Record t (T : Type) := mk {
  p1 : Point.t T; p2 : Point.t T; c : Point.t T;
  startAngle : T; endAngle : T; r : T }.
Arguments mk {T}.
Arguments p1 {T}.
Arguments p2 {T}.
Arguments c {T}.
Arguments startAngle {T}.
Arguments endAngle {T}.
Arguments r {T}.
End Arc.

(** A graph node: layout position [x], [y], and the fields [center] and
  [circle] that [to_poincare] writes into it ([None] while unset). *)
Module NodeObject.
Record t (T : Type) := mk {
  x : T; y : T;
  center : option (Point.t T); circle : option (Circle.t T) }.
Arguments mk {T}.
Arguments x {T}.
Arguments y {T}.
Arguments center {T}.
Arguments circle {T}.
End NodeObject.

(** The record returned by [to_poincare]. *)
Module Projected.
Record t (T : Type) := mk { center : Point.t T; circle : Circle.t T }.
Arguments mk {T}.
Arguments center {T}.
Arguments circle {T}.
End Projected.

(** ** The functions of [hyperbolic_functions.js] *)

Section Kernel.
Context {T : Type} `{JSNumber T}.
Local Open Scope js_scope.

Definition canvas_to_disk (p : Point.t T) (poindisk : PoinDisk.t T) : Point.t T :=
  let rect := poindisk.(PoinDisk.boundbox) in
  let x := ((p.(Point.x) - rect.(BoundBox.left))
            / (rect.(BoundBox.right) - rect.(BoundBox.left)) - lit 0.5) * lit 2 in
  let y := ((p.(Point.y) - rect.(BoundBox.top))
            / (rect.(BoundBox.bottom) - rect.(BoundBox.top)) - lit 0.5) * lit (-2) in
  Point.mk x y.

Definition disk_to_canvas (p : Point.t T) (poindisk : PoinDisk.t T) : Point.t T :=
  let x := p.(Point.x) * poindisk.(PoinDisk.r) + poindisk.(PoinDisk.cx) in
  let y := (- p.(Point.y)) * poindisk.(PoinDisk.r) + poindisk.(PoinDisk.cy) in
  Point.mk x y.

Definition euclid_dist (p q : Point.t T) : T :=
  Math_sqrt (Math_pow (p.(Point.x) - q.(Point.x)) 2
             + Math_pow (p.(Point.y) - q.(Point.y)) 2).

Definition r_poincare_to_euclid (r : T) : T := Math_tanh (r / lit 2).

Definition hyper_radius_from_euclidean (r : T) : T := lit 2 * Math_atanh r.

Definition euclid_line (p q : Point.t T) : Line.t T :=
  let line := Line.mk (p.(Point.y) - q.(Point.y))
                      (q.(Point.x) - p.(Point.x))
                      (p.(Point.x) * q.(Point.y) - q.(Point.x) * p.(Point.y)) in
  if Math_abs line.(Line.b) >? lit 0.001
  then Line.mk (line.(Line.a) / line.(Line.b))
               (line.(Line.b) / line.(Line.b))
               (line.(Line.c) / line.(Line.b))
  else line.

Definition get_perpendicular_line (pq : Line.t T) (v : Point.t T) : Line.t T :=
  Line.mk pq.(Line.b)
          (- pq.(Line.a))
          ((- v.(Point.x)) * pq.(Line.b) + v.(Point.y) * pq.(Line.a)).

Definition find_midpoint (p q : Point.t T) : Point.t T :=
  Point.mk ((p.(Point.x) + q.(Point.x)) / lit 2) ((p.(Point.y) + q.(Point.y)) / lit 2).

Definition find_intersection (pq xy : Line.t T) : Point.t T :=
  Point.mk
    ((pq.(Line.c) * xy.(Line.b) - pq.(Line.b) * xy.(Line.c))
     / (pq.(Line.b) * xy.(Line.a) - pq.(Line.a) * xy.(Line.b)))
    ((pq.(Line.a) * xy.(Line.c) - pq.(Line.c) * xy.(Line.a))
     / (pq.(Line.b) * xy.(Line.a) - pq.(Line.a) * xy.(Line.b))).

Definition circle_inversion (p : Point.t T) (circle : CircleObject.t T) : Point.t T :=
  let cx := circle.(CircleObject.cx) in
  let cy := circle.(CircleObject.cy) in
  let dist := euclid_dist p (Point.mk cx cy) in
  let new_c := circle.(CircleObject.r) * circle.(CircleObject.r) / (dist * dist) in
  let u := Point.mk (p.(Point.x) - cx) (p.(Point.y) - cy) in
  Point.mk (new_c * u.(Point.x) + cx) (new_c * u.(Point.y) + cy).

Definition poincare_geodesic (p q : Point.t T) (poindisk : PoinDisk.t T) : Arc.t T :=
  let left := poindisk.(PoinDisk.boundbox).(BoundBox.left) in
  let top := poindisk.(PoinDisk.boundbox).(BoundBox.top) in
  let p := Point.mk (p.(Point.x) - left) (p.(Point.y) - top) in
  let q := Point.mk (q.(Point.x) - left) (q.(Point.y) - top) in
  let pp := circle_inversion p (PoinDisk.as_circle poindisk) in
  let qq := circle_inversion q (PoinDisk.as_circle poindisk) in
  let M := find_midpoint p pp in
  let N := find_midpoint q qq in
  let m := get_perpendicular_line (euclid_line p pp) M in
  let n := get_perpendicular_line (euclid_line q qq) N in
  let C := find_intersection m n in
  Arc.mk p q C
         (Math_atan2 (q.(Point.y) - C.(Point.y)) (q.(Point.x) - C.(Point.x)))
         (Math_atan2 (p.(Point.y) - C.(Point.y)) (p.(Point.x) - C.(Point.x)))
         (euclid_dist p C).

Definition poincare_circle (center : Point.t T) (r : T) (poindisk : PoinDisk.t T)
  : Circle.t T :=
  let e_center_radius :=
    Math_sqrt (center.(Point.x) * center.(Point.x)
               + center.(Point.y) * center.(Point.y)) in
  let cr := hyper_radius_from_euclidean e_center_radius in
  let dh1 := cr - r in
  let dh2 := cr + r in
  let de1 := r_poincare_to_euclid dh1 in
  let de2 := r_poincare_to_euclid dh2 in
  let er := (de2 - de1) / lit 2 in
  let ecr := (de2 + de1) / lit 2 in
  let c_theta := Math_atan2 center.(Point.y) center.(Point.x) in
  let x := ecr * Math_cos c_theta in
  let y := ecr * Math_sin c_theta in
  let canvas_coord := disk_to_canvas (Point.mk x y) poindisk in
  Circle.mk canvas_coord.(Point.x) canvas_coord.(Point.y)
            (er * poindisk.(PoinDisk.r)) x y (Point.mk x y)
            (disk_to_canvas center poindisk).

(** [to_poincare] writes [center] and [circle] into the node it is given
    when [inPlace] holds: the node after the call is returned together
    with the result. *)
Definition to_poincare (ePosition : NodeObject.t T) (centerX centerY : T)
    (poindisk : PoinDisk.t T) (inPlace : bool) : NodeObject.t T * Projected.t T :=
  let x := lit 0.005 * (ePosition.(NodeObject.x) - centerX) in
  let y := lit 0.005 * (ePosition.(NodeObject.y) - centerY) in
  let circleR := Math_hypot x y in
  let theta := Math_atan2 x y in
  let hR := Math_acosh (lit 0.5 * circleR * circleR + lit 1) in
  let poincareR := Math_tanh (hR / lit 2) in
  let poinx := poindisk.(PoinDisk.r)
               + poindisk.(PoinDisk.r) * (poincareR * Math_sin theta) in
  let poiny := poindisk.(PoinDisk.r)
               + poindisk.(PoinDisk.r) * (poincareR * Math_cos theta) in
  let ePosition' :=
    if inPlace then
      let center := Point.mk poinx poiny in
      NodeObject.mk ePosition.(NodeObject.x) ePosition.(NodeObject.y)
        (Some center)
        (Some (poincare_circle (canvas_to_disk center poindisk) (lit 0.2) poindisk))
    else ePosition in
  (ePosition',
   Projected.mk (Point.mk poinx poiny)
     (poincare_circle (canvas_to_disk (Point.mk poinx poiny) poindisk) (lit 0.05) poindisk)).

(** The intermediate values [theta] and [poincareR] of [to_poincare]
    (its lines 40-49), named so that statements can refer to them. *)
Definition projection_theta (ePosition : NodeObject.t T) (centerX centerY : T) : T :=
  let x := lit 0.005 * (ePosition.(NodeObject.x) - centerX) in
  let y := lit 0.005 * (ePosition.(NodeObject.y) - centerY) in
  Math_atan2 x y.

Definition projection_poincareR (ePosition : NodeObject.t T) (centerX centerY : T) : T :=
  let x := lit 0.005 * (ePosition.(NodeObject.x) - centerX) in
  let y := lit 0.005 * (ePosition.(NodeObject.y) - centerY) in
  let circleR := Math_hypot x y in
  let hR := Math_acosh (lit 0.5 * circleR * circleR + lit 1) in
  Math_tanh (hR / lit 2).

End Kernel.

(** ** Numbers: the reals with the IEEE special values *)

Inductive xreal : Type :=
| NaN
| PInf
| NInf
| Fin (v : R).

Definition is_finite (a : xreal) : bool :=
  match a with Fin _ => true | _ => false end.

Module XReal.
Local Open Scope R_scope.

(** An infinity times the finite value [v]: the infinity keeps its sign
    ([positive]) when [v] is positive and flips it when [v] is negative;
    the product is [NaN] when [v] is zero. *)
Definition signed_inf (positive : bool) (v : R) : xreal :=
  if Req_dec_T v 0 then NaN
  else if Rlt_dec 0 v then (if positive then PInf else NInf)
       else (if positive then NInf else PInf).

Definition xadd (a b : xreal) : xreal :=
  match a, b with
  | NaN, _ | _, NaN => NaN
  | PInf, NInf | NInf, PInf => NaN
  | PInf, _ | _, PInf => PInf
  | NInf, _ | _, NInf => NInf
  | Fin u, Fin v => Fin (u + v)
  end.

Definition xneg (a : xreal) : xreal :=
  match a with
  | NaN => NaN
  | PInf => NInf
  | NInf => PInf
  | Fin u => Fin (- u)
  end.

Definition xsub (a b : xreal) : xreal := xadd a (xneg b).

Definition xmul (a b : xreal) : xreal :=
  match a, b with
  | NaN, _ | _, NaN => NaN
  | PInf, PInf | NInf, NInf => PInf
  | PInf, NInf | NInf, PInf => NInf
  | PInf, Fin v | Fin v, PInf => signed_inf true v
  | NInf, Fin v | Fin v, NInf => signed_inf false v
  | Fin u, Fin v => Fin (u * v)
  end.

(** A finite value over zero is an infinity with the sign of the
    numerator, and [0/0] is [NaN]; an infinity over a finite value keeps
    its sign unless the divisor is negative. *)
Definition xdiv (a b : xreal) : xreal :=
  match a, b with
  | NaN, _ | _, NaN => NaN
  | PInf, Fin v => if Rlt_dec v 0 then NInf else PInf
  | NInf, Fin v => if Rlt_dec v 0 then PInf else NInf
  | Fin _, PInf | Fin _, NInf => Fin 0
  | Fin u, Fin v => if Req_dec_T v 0 then signed_inf true u else Fin (u / v)
  | _, _ => NaN
  end.

Definition xltb (a b : xreal) : bool :=
  match a, b with
  | NaN, _ | _, NaN => false
  | _, NInf => false
  | NInf, _ => true
  | PInf, _ => false
  | _, PInf => true
  | Fin u, Fin v => if Rlt_dec u v then true else false
  end.

Definition xgtb (a b : xreal) : bool := xltb b a.

Definition xabs (a : xreal) : xreal :=
  match a with
  | NaN => NaN
  | PInf | NInf => PInf
  | Fin u => Fin (Rabs u)
  end.

Definition xsqrt (a : xreal) : xreal :=
  match a with
  | NaN | NInf => NaN
  | PInf => PInf
  | Fin u => if Rlt_dec u 0 then NaN else Fin (sqrt u)
  end.

(** [Math.pow] at a natural exponent: anything to the power [0] is [1]. *)
Definition xpow (a : xreal) (n : nat) : xreal :=
  match n with
  | O => Fin 1
  | S _ =>
    match a with
    | NaN => NaN
    | PInf => PInf
    | NInf => if Nat.even n then PInf else NInf
    | Fin u => Fin (u ^ n)
    end
  end.

(** [Math.hypot]: an infinite argument wins over [NaN]. *)
Definition xhypot (a b : xreal) : xreal :=
  match a, b with
  | PInf, _ | NInf, _ | _, PInf | _, NInf => PInf
  | NaN, _ | _, NaN => NaN
  | Fin u, Fin v => Fin (sqrt (u * u + v * v))
  end.

(** The angle of the point [(u, v)] seen from the origin, in [(-PI, PI]].
    The reals have one zero: where [Math.atan2] tells [-0] from [+0]
    (it returns [-PI] for [v = -0] and [u < 0]) this is the value for
    [+0]. *)
Definition Ratan2 (v u : R) : R :=
  if Rlt_dec 0 u then atan (v / u)
  else if Rlt_dec u 0
       then (if Rlt_dec v 0 then atan (v / u) - PI else atan (v / u) + PI)
       else if Rlt_dec 0 v then PI / 2
            else if Rlt_dec v 0 then - PI / 2 else 0.

Definition xatan2 (b a : xreal) : xreal :=
  match b, a with
  | NaN, _ | _, NaN => NaN
  | PInf, PInf => Fin (PI / 4)
  | PInf, NInf => Fin (3 * PI / 4)
  | NInf, PInf => Fin (- PI / 4)
  | NInf, NInf => Fin (- 3 * PI / 4)
  | PInf, Fin _ => Fin (PI / 2)
  | NInf, Fin _ => Fin (- PI / 2)
  | Fin _, PInf => Fin 0
  | Fin v, NInf => if Rlt_dec v 0 then Fin (- PI) else Fin PI
  | Fin v, Fin u => Fin (Ratan2 v u)
  end.

Definition xsin (a : xreal) : xreal :=
  match a with Fin u => Fin (sin u) | _ => NaN end.

Definition xcos (a : xreal) : xreal :=
  match a with Fin u => Fin (cos u) | _ => NaN end.

(** The hyperbolic tangent of a finite number, not rounded: it is
    strictly between [-1] and [1].  [XRealRounded.xtanh] below is the one
    that reaches them. *)
Definition xtanh (a : xreal) : xreal :=
  match a with
  | NaN => NaN
  | PInf => Fin 1
  | NInf => Fin (-1)
  | Fin u => Fin (tanh u)
  end.

(** Inverse hyperbolic cosine on [[1, +oo)]. *)
Definition Racosh (u : R) : R := ln (u + sqrt (u * u - 1)).

Definition xacosh (a : xreal) : xreal :=
  match a with
  | NaN | NInf => NaN
  | PInf => PInf
  | Fin u => if Rlt_dec u 1 then NaN else Fin (Racosh u)
  end.

(** Inverse hyperbolic tangent on [(-1, 1)]. *)
Definition Ratanh (u : R) : R := ln ((1 + u) / (1 - u)) / 2.

Definition xatanh (a : xreal) : xreal :=
  match a with
  | Fin u =>
    if Req_dec_T u 1 then PInf
    else if Req_dec_T u (-1) then NInf
         else if Rlt_dec 1 u then NaN
              else if Rlt_dec u (-1) then NaN else Fin (Ratanh u)
  | _ => NaN
  end.

End XReal.

#[export] Instance xreal_number : JSNumber xreal := {|
  lit q := Fin (Q2R q);
  add := XReal.xadd;
  sub := XReal.xsub;
  mul := XReal.xmul;
  div := XReal.xdiv;
  neg := XReal.xneg;
  gtb := XReal.xgtb;
  Math_abs := XReal.xabs;
  Math_sqrt := XReal.xsqrt;
  Math_pow := XReal.xpow;
  Math_hypot := XReal.xhypot;
  Math_atan2 := XReal.xatan2;
  Math_sin := XReal.xsin;
  Math_cos := XReal.xcos;
  Math_tanh := XReal.xtanh;
  Math_acosh := XReal.xacosh;
  Math_atanh := XReal.xatanh
|}.

(** ** Numbers: the rounding of [Math.tanh] at the ends of its range

    In binary64 the numbers next to [1] are [1 - 2^-53] and [1] itself: a
    hyperbolic tangent that is within [2^-54] of [1] is rounded to [1],
    and likewise at [-1].  This is where rounding changes what the
    source computes from a bound that is strict to one that is not, and
    [xreal_saturating] is [xreal_number] with this one rounding: nothing
    else is rounded. *)

Module XRealRounded.
Local Open Scope R_scope.

(** Half the distance between [1 - 2^-53] and [1]. *)
Definition half_ulp : R := / 2 ^ 54.

Definition saturate (v : R) : R :=
  if Rle_dec (1 - half_ulp) v then 1
  else if Rle_dec v (- (1 - half_ulp)) then -1
       else v.

Definition xtanh (a : xreal) : xreal :=
  match a with
  | NaN => NaN
  | PInf => Fin 1
  | NInf => Fin (-1)
  | Fin u => Fin (saturate (tanh u))
  end.

End XRealRounded.

Definition xreal_saturating : JSNumber xreal := {|
  lit q := Fin (Q2R q);
  add := XReal.xadd;
  sub := XReal.xsub;
  mul := XReal.xmul;
  div := XReal.xdiv;
  neg := XReal.xneg;
  gtb := XReal.xgtb;
  Math_abs := XReal.xabs;
  Math_sqrt := XReal.xsqrt;
  Math_pow := XReal.xpow;
  Math_hypot := XReal.xhypot;
  Math_atan2 := XReal.xatan2;
  Math_sin := XReal.xsin;
  Math_cos := XReal.xcos;
  Math_tanh := XRealRounded.xtanh;
  Math_acosh := XReal.xacosh;
  Math_atanh := XReal.xatanh
|}.

(** ** Numbers: IEEE binary64

    The arithmetic operators, [Math.abs] and [Math.sqrt] are the binary64
    primitives, as in JavaScript.  The other functions of [Math] have no
    counterpart among the primitives and are left to the host: they are
    the fields of a [MathLibrary]. *)

Module IEEE.
Import PrimFloat.

Record MathLibrary : Type := {
  lib_pow : float -> nat -> float;
  lib_hypot : float -> float -> float;
  lib_atan2 : float -> float -> float;
  lib_sin : float -> float;
  lib_cos : float -> float;
  lib_tanh : float -> float;
  lib_acosh : float -> float;
  lib_atanh : float -> float
}.

(** The binary64 value of an integer of small magnitude. *)
Definition of_Z (n : Z) : float :=
  match n with
  | Z0 => PrimFloat.zero
  | Zpos _ => PrimFloat.of_uint63 (Uint63.of_Z n)
  | Zneg p => PrimFloat.opp (PrimFloat.of_uint63 (Uint63.of_Z (Zpos p)))
  end.

(** A decimal literal [n / 10^k] is the correctly rounded quotient of two
    integers that binary64 represents exactly. *)
Definition number (M : MathLibrary) : JSNumber float :=
  Build_JSNumber float
    (fun q => PrimFloat.div (of_Z (Qnum q)) (of_Z (Zpos (Qden q))))
    PrimFloat.add PrimFloat.sub PrimFloat.mul PrimFloat.div PrimFloat.opp
    (fun a b => PrimFloat.ltb b a)
    PrimFloat.abs PrimFloat.sqrt
    (lib_pow M) (lib_hypot M) (lib_atan2 M) (lib_sin M) (lib_cos M)
    (lib_tanh M) (lib_acosh M) (lib_atanh M).

End IEEE.

(** ** The rest of the interface

    [arc_path] and [render] also compare with [>=] and use [Math.min],
    [Math.max] and [Math.PI]. *)

Class JSMath (T : Type) `{JSNumber T} := {
  geb : T -> T -> bool;
  Math_min : T -> T -> T;
  Math_max : T -> T -> T;
  Math_PI : T
}.

Infix ">=?" := geb (at level 70, no associativity) : js_scope.

Module XRealMath.
Local Open Scope R_scope.

Definition xgeb (a b : xreal) : bool :=
  match a, b with
  | NaN, _ | _, NaN => false
  | PInf, _ => true
  | _, NInf => true
  | NInf, _ => false
  | _, PInf => false
  | Fin u, Fin v => if Rle_dec v u then true else false
  end.

Definition xmin (a b : xreal) : xreal :=
  match a, b with
  | NaN, _ | _, NaN => NaN
  | NInf, _ | _, NInf => NInf
  | PInf, c | c, PInf => c
  | Fin u, Fin v => Fin (Rmin u v)
  end.

Definition xmax (a b : xreal) : xreal :=
  match a, b with
  | NaN, _ | _, NaN => NaN
  | PInf, _ | _, PInf => PInf
  | NInf, c | c, NInf => c
  | Fin u, Fin v => Fin (Rmax u v)
  end.

End XRealMath.

#[export] Instance xreal_math : JSMath xreal := {|
  geb := XRealMath.xgeb;
  Math_min := XRealMath.xmin;
  Math_max := XRealMath.xmax;
  Math_PI := Fin PI
|}.

Definition xreal_saturating_math : @JSMath xreal xreal_saturating :=
  @Build_JSMath xreal xreal_saturating
    XRealMath.xgeb XRealMath.xmin XRealMath.xmax (Fin PI).

Module IEEEMath.
Import PrimFloat.

(** [Math.min] and [Math.max] in binary64: [NaN] if an argument is [NaN],
    and [-0] counts as smaller than [+0]. *)
Definition fmin (a b : float) : float :=
  if PrimFloat.is_nan a || PrimFloat.is_nan b then PrimFloat.nan
  else if PrimFloat.ltb a b then a
  else if PrimFloat.ltb b a then b
  else if PrimFloat.get_sign a then a else b.

Definition fmax (a b : float) : float :=
  if PrimFloat.is_nan a || PrimFloat.is_nan b then PrimFloat.nan
  else if PrimFloat.ltb a b then b
  else if PrimFloat.ltb b a then a
  else if PrimFloat.get_sign a then b else a.

Definition math (M : IEEE.MathLibrary) : @JSMath float (IEEE.number M) :=
  @Build_JSMath float (IEEE.number M)
    (fun a b => PrimFloat.leb b a) fmin fmax 0x1.921fb54442d18p+1%float.

End IEEEMath.

(** ** Data model of the remaining functions *)

(** [{r, theta}]: what [cart_to_polar] returns. *)
Module Polar.
Record t (T : Type) := mk { r : T; theta : T }.
Arguments mk {T}.
Arguments r {T}.
Arguments theta {T}.
End Polar.

(** An element of the array that [arc_path] joins into a path string: a
    string or a number. *)
Inductive PathItem (T : Type) : Type :=
| Word (s : string)
| Num (x : T).

Arguments Word {T} s.
Arguments Num {T} x.

(** ** The remaining functions of [hyperbolic_functions.js] *)

Section KernelRest.
Context {T : Type} `{JSMath T}.
Local Open Scope js_scope.

(** [center] is optional in the source and defaults to the origin. *)
Definition polar_to_cart (r theta : T) (center : option (Point.t T)) : Point.t T :=
  let center := match center with
                | Some c => c
                | None => Point.mk (lit 0) (lit 0)
                end in
  Point.mk (center.(Point.x) + r * Math_cos theta)
           (center.(Point.y) + r * Math_sin theta).

Definition cart_to_polar (p : Point.t T) : Polar.t T :=
  let r := Math_sqrt (p.(Point.x) * p.(Point.x) + p.(Point.y) * p.(Point.y)) in
  let theta := Math_atan2 p.(Point.y) p.(Point.x) in
  Polar.mk r theta.

Definition hyper_dist (p q : Point.t T) : T :=
  let numerator := lit 2 * (Math_pow (p.(Point.x) - q.(Point.x)) 2
                            + Math_pow (p.(Point.y) - q.(Point.y)) 2) in
  let denominator :=
    (lit 1 - Math_pow p.(Point.x) 2 + Math_pow p.(Point.y) 2)
    * (lit 1 - Math_pow q.(Point.x) 2 + Math_pow q.(Point.y) 2) in
  Math_acosh (lit 1 + numerator / denominator).

(** [arc_path] returns its array joined with spaces; the array is kept
    as it is, since the decimal notation of a number is not modelled.
    The second argument is not used by the source. *)
Definition arc_path (arc : Arc.t T) (poindisk : option (PoinDisk.t T))
  : list (PathItem T) :=
  let radius := arc.(Arc.r) in
  let startAngle := Math_min arc.(Arc.startAngle) arc.(Arc.endAngle) in
  let endAngle := Math_max arc.(Arc.startAngle) arc.(Arc.endAngle) in
  let start := polar_to_cart radius endAngle (Some arc.(Arc.c)) in
  let end_ := polar_to_cart radius startAngle (Some arc.(Arc.c)) in
  let start_end :=
    if endAngle - startAngle >=? Math_PI
    then (polar_to_cart radius startAngle (Some arc.(Arc.c)),
          polar_to_cart radius endAngle (Some arc.(Arc.c)))
    else (start, end_) in
  let start := fst start_end in
  let end_ := snd start_end in
  [Word "M"; Num start.(Point.x); Num start.(Point.y);
   Word "A"; Num radius; Num radius; Num (lit 0); Word "0"; Num (lit 0);
   Num end_.(Point.x); Num end_.(Point.y)].

(** The disk that [render] builds for a canvas of the given width and
    height (its lines 551-571). *)
Definition render_poindisk (canvasWidth canvasHeight : T) : PoinDisk.t T :=
  let boundbox := BoundBox.mk (lit 0) (lit 0) canvasWidth canvasHeight in
  let cx := (boundbox.(BoundBox.right) - boundbox.(BoundBox.left)) / lit 2 in
  let cy := (boundbox.(BoundBox.bottom) - boundbox.(BoundBox.top)) / lit 2 in
  let r := Math_min cx cy in
  PoinDisk.mk boundbox cx cy r.

End KernelRest.


(** ** The click handlers of [main.js]

    The page keeps four variables: the markers [nodes], the pending
    clicks [vertices], the arcs [lines] and the flag [can_draw_line].
    A handler reads the position of the event, the value of the
    [draw-select] element and the value of the [radius] slider: these are
    the fields of an event here.  The calls that draw ([drawNodes],
    [drawLines], [drawLine]) only read the variables and are left out. *)

Module Sketch.

(** An element of [vertices]: the first click of a line pushes the
    clicked point and, after it, the disk. *)
Inductive vertex (T : Type) : Type :=
| Clicked (p : Point.t T)
| Disk (d : PoinDisk.t T).

Arguments Clicked {T} p.
Arguments Disk {T} d.

Record state (T : Type) := mk {
  nodes : list (Circle.t T);
  vertices : list (vertex T);
  lines : list (Arc.t T);
  can_draw_line : bool }.
Arguments mk {T}.
Arguments nodes {T}.
Arguments vertices {T}.
Arguments lines {T}.
Arguments can_draw_line {T}.

Record event (T : Type) := click {
  x : T; y : T;
  draw_select : string;
  radius : T }.
Arguments click {T}.
Arguments x {T}.
Arguments y {T}.
Arguments draw_select {T}.
Arguments radius {T}.

Definition initial {T : Type} : state T := mk [] [] [] false.

End Sketch.

Section Handlers.
Context {T : Type} `{JSNumber T}.
Local Open Scope js_scope.

Definition get_radius (e : Sketch.event T) : T := e.(Sketch.radius) * lit 0.001.

(** The point that [poincare_geodesic] reads from an element of
    [vertices]: the disk has no [x] and no [y], and [undefined] in a
    subtraction is [NaN], which is [0 / 0] in every instance. *)
Definition vertex_point (v : Sketch.vertex T) : Point.t T :=
  match v with
  | Sketch.Clicked p => p
  | Sketch.Disk _ => Point.mk (lit 0 / lit 0) (lit 0 / lit 0)
  end.

(** [poincare_geodesic (vertices[0], ...)]: reading [x] from [undefined]
    throws, which is [None]. *)
Definition geodesic_from_first (vertices : list (Sketch.vertex T)) (q : Point.t T)
    (poindisk : PoinDisk.t T) : option (Arc.t T) :=
  match vertices with
  | [] => None
  | v :: _ => Some (poincare_geodesic (vertex_point v) q poindisk)
  end.

Definition onclick (poindisk : PoinDisk.t T) (s : Sketch.state T) (e : Sketch.event T)
  : option (Sketch.state T) :=
  let p := Point.mk e.(Sketch.x) e.(Sketch.y) in
  if String.eqb e.(Sketch.draw_select) "circle" then
    Some (Sketch.mk
            (s.(Sketch.nodes)
             ++ [poincare_circle (canvas_to_disk p poindisk) (get_radius e) poindisk])
            s.(Sketch.vertices) s.(Sketch.lines) s.(Sketch.can_draw_line))
  else if String.eqb e.(Sketch.draw_select) "line" && negb s.(Sketch.can_draw_line) then
    Some (Sketch.mk s.(Sketch.nodes)
            (s.(Sketch.vertices) ++ [Sketch.Clicked p; Sketch.Disk poindisk])
            s.(Sketch.lines) true)
  else if s.(Sketch.can_draw_line) then
    match geodesic_from_first s.(Sketch.vertices) p poindisk with
    | Some arc => Some (Sketch.mk s.(Sketch.nodes) [] (s.(Sketch.lines) ++ [arc]) false)
    | None => None
    end
  else Some s.

(** [onmove] pushes the arc to the pointer, draws, and pops it again. *)
Definition onmove (poindisk : PoinDisk.t T) (s : Sketch.state T) (e : Sketch.event T)
  : option (Sketch.state T) :=
  let p := Point.mk e.(Sketch.x) e.(Sketch.y) in
  if s.(Sketch.can_draw_line) && (1 <=? List.length s.(Sketch.vertices))%nat then
    match geodesic_from_first s.(Sketch.vertices) p poindisk with
    | Some arc =>
      Some (Sketch.mk s.(Sketch.nodes) s.(Sketch.vertices)
              (removelast (s.(Sketch.lines) ++ [arc])) s.(Sketch.can_draw_line))
    | None => None
    end
  else Some s.

(** A sequence of clicks, stopped by the first one that throws. *)
Fixpoint clicks (poindisk : PoinDisk.t T) (s : Sketch.state T) (es : list (Sketch.event T))
  : option (Sketch.state T) :=
  match es with
  | [] => Some s
  | e :: es' =>
    match onclick poindisk s e with
    | Some s' => clicks poindisk s' es'
    | None => None
    end
  end.

End Handlers.

(** ** Graphs

    A graph is [{nodes, edges}].  The node objects are shared: [setGraph]
    stores in an edge the very object that sits in [nodes], and [render]
    reads through the edge what [to_poincare] wrote into the node.  The
    list [nodes] is the store here, and a reference to a node object is
    its position in that list. *)

(** What the field [source] or [target] of an edge holds. *)
Module EdgeEnd.
Inductive t : Type :=
| Int (i : Z)       (* an integer number *)
| Node (k : nat)    (* the node object at position [k] of [nodes] *)
| Undefined
| Id (s : string).  (* a string, as [readDot] stores *)
End EdgeEnd.

(** A node object with the fields that generators and layouts give it;
    [node] holds the fields that the projection reads and writes. *)
Module Vertex.
Record t (T : Type) := mk { id : Z; color : string; node : NodeObject.t T }.
Arguments mk {T}.
Arguments id {T}.
Arguments color {T}.
Arguments node {T}.
End Vertex.

Module Edge.
Record t (T : Type) := mk {
  source : EdgeEnd.t; target : EdgeEnd.t;
  arc : option (Arc.t T) }.
Arguments mk {T}.
Arguments source {T}.
Arguments target {T}.
Arguments arc {T}.
End Edge.

Module Graph.
Record t (T : Type) := mk { nodes : list (Vertex.t T); edges : list (Edge.t T) }.
Arguments mk {T}.
Arguments nodes {T}.
Arguments edges {T}.
End Graph.

Section SetGraph.
Context {T : Type}.

(** [nodes[i]] for an integer [i]: [undefined] outside the array. *)
Definition node_at (nodes : list (Vertex.t T)) (i : Z) : EdgeEnd.t :=
  if ((0 <=? i) && (i <? Z.of_nat (List.length nodes)))%Z
  then EdgeEnd.Node (Z.to_nat i)
  else EdgeEnd.Undefined.

(** One end of an edge in the loop of [setGraph]: only a value for which
    [Number.isInteger] holds is replaced. *)
Definition resolve (nodes : list (Vertex.t T)) (e : EdgeEnd.t) : EdgeEnd.t :=
  match e with
  | EdgeEnd.Int i => node_at nodes i
  | _ => e
  end.

Definition setGraph (graph : Graph.t T) : Graph.t T :=
  Graph.mk graph.(Graph.nodes)
    (map (fun e => Edge.mk (resolve graph.(Graph.nodes) e.(Edge.source))
                           (resolve graph.(Graph.nodes) e.(Edge.target))
                           e.(Edge.arc))
         graph.(Graph.edges)).

End SetGraph.

(** ** The drawing loop of [render]

    [start_drawing] of the hyperbolic branch (lines 580-591), for the
    reference centre that [d3.mean] returned.  A [TypeError] is [None]. *)

Section StartDrawing.
Context {T : Type} `{JSNumber T}.

(** [e.center] for an end [e] of an edge: [None] where reading the field
    throws, [Some None] where the field is [undefined].  A reference that
    points outside the node list stands for no object. *)
Definition end_center (vertices : list (Vertex.t T)) (e : EdgeEnd.t)
  : option (option (Point.t T)) :=
  match e with
  | EdgeEnd.Node k =>
    match nth_error vertices k with
    | Some v => Some v.(Vertex.node).(NodeObject.center)
    | None => None
    end
  | EdgeEnd.Undefined => None
  | EdgeEnd.Int _ | EdgeEnd.Id _ => Some None
  end.

(** [poincare_geodesic (e.source.center, e.target.center, poindisk)]: the
    function reads [x] from both points, which throws on [undefined]. *)
Definition edge_arc (vertices : list (Vertex.t T)) (poindisk : PoinDisk.t T)
    (e : Edge.t T) : option (Arc.t T) :=
  match end_center vertices e.(Edge.source) with
  | Some p =>
    match end_center vertices e.(Edge.target) with
    | Some q =>
      match p, q with
      | Some p, Some q => Some (poincare_geodesic p q poindisk)
      | _, _ => None
      end
    | None => None
    end
  | None => None
  end.

Fixpoint draw_edges (vertices : list (Vertex.t T)) (poindisk : PoinDisk.t T)
    (edges : list (Edge.t T)) : option (list (Edge.t T)) :=
  match edges with
  | [] => Some []
  | e :: rest =>
    match edge_arc vertices poindisk e with
    | Some arc =>
      match draw_edges vertices poindisk rest with
      | Some rest' => Some (Edge.mk e.(Edge.source) e.(Edge.target) (Some arc) :: rest')
      | None => None
      end
    | None => None
    end
  end.

Definition project_vertex (centerX centerY : T) (poindisk : PoinDisk.t T)
    (v : Vertex.t T) : Vertex.t T :=
  Vertex.mk v.(Vertex.id) v.(Vertex.color)
            (fst (to_poincare v.(Vertex.node) centerX centerY poindisk true)).

Definition start_drawing (centerX centerY : T) (poindisk : PoinDisk.t T)
    (graph : Graph.t T) : option (Graph.t T) :=
  let vertices := map (project_vertex centerX centerY poindisk) graph.(Graph.nodes) in
  match draw_edges vertices poindisk graph.(Graph.edges) with
  | Some edges => Some (Graph.mk vertices edges)
  | None => None
  end.

End StartDrawing.

(** ** The generator [erdos_renyi]

    [Math.random] is a stream of numbers: the state of the generator is
    the position in the stream. *)

Class JSInteger (T : Type) := {
  Math_round : T -> T;
  Math_floor : T -> T;
  toString16 : T -> string
}.

(** Hexadecimal digits of a natural number, as [toString(16)] writes
    them. *)
Definition hex_digit (n : N) : ascii :=
  match n with
  | 0 => "0" | 1 => "1" | 2 => "2" | 3 => "3" | 4 => "4" | 5 => "5" | 6 => "6"
  | 7 => "7" | 8 => "8" | 9 => "9" | 10 => "a" | 11 => "b" | 12 => "c"
  | 13 => "d" | 14 => "e" | _ => "f"
  end%N%char.

Fixpoint hex_digits (fuel : nat) (n : N) : string :=
  match fuel with
  | O => EmptyString
  | S fuel' =>
    if (n <? 16)%N then String (hex_digit n) EmptyString
    else (hex_digits fuel' (n / 16) ++ String (hex_digit (n mod 16)) EmptyString)%string
  end.

(** A number has at most as many hexadecimal digits as binary ones. *)
Definition to_hex (n : N) : string := hex_digits (S (N.to_nat (N.log2 n))) n.

Module XRealInteger.
Local Open Scope R_scope.

Definition xfloor (a : xreal) : xreal :=
  match a with
  | Fin v => Fin (IZR (Int_part v))
  | _ => a
  end.

(** [Math.round] rounds to the nearest integer, a half upwards. *)
Definition xround (a : xreal) : xreal :=
  match a with
  | Fin v => Fin (IZR (Int_part (v + 1 / 2)))
  | _ => a
  end.

(** [toString(16)] of an integer and of the special values; the digits
    after the point of a number that is not an integer are not modelled,
    the source converts the result of [Math.floor] only. *)
Definition xhex (a : xreal) : string :=
  match a with
  | NaN => "NaN"
  | PInf => "Infinity"
  | NInf => "-Infinity"
  | Fin v =>
    match Int_part v with
    | Zneg p => ("-" ++ to_hex (Npos p))%string
    | z => to_hex (Z.to_N z)
    end
  end.

End XRealInteger.

#[export] Instance xreal_integer : JSInteger xreal := {|
  Math_round := XRealInteger.xround;
  Math_floor := XRealInteger.xfloor;
  toString16 := XRealInteger.xhex
|}.

(** In binary64 the three functions are those of the host. *)
Module IEEEInteger.
Import PrimFloat.

Record HostLibrary : Type := {
  lib_round : float -> float;
  lib_floor : float -> float;
  lib_toString16 : float -> string
}.

Definition integer (L : HostLibrary) : JSInteger float :=
  Build_JSInteger float (lib_round L) (lib_floor L) (lib_toString16 L).

End IEEEInteger.

(** A computation that draws random numbers: from the position in the
    stream to a result and the next position. *)
Definition Rand (A : Type) : Type := nat -> A * nat.

Definition ret {A : Type} (a : A) : Rand A := fun k => (a, k).

Definition bind {A B : Type} (m : Rand A) (f : A -> Rand B) : Rand B :=
  fun k => let (a, k') := m k in f a k'.

Notation "x <- m ;; f" := (bind m (fun x => f))
  (at level 61, m at next level, right associativity).

Notation "a <? b" := (gtb b a) (at level 70, no associativity) : js_scope.

Section Generators.
Context {T : Type} `{JSNumber T} `{JSInteger T}.
Variable stream : nat -> T.
Local Open Scope js_scope.

Definition Math_random : Rand T := fun k => (stream k, S k).

(** The first loop, from index [i] on, [count] nodes to go. *)
Fixpoint random_nodes (x_width y_width : T) (count i : nat) : Rand (list (Vertex.t T)) :=
  match count with
  | O => ret []
  | S count' =>
    rx <- Math_random ;;
    ry <- Math_random ;;
    rc <- Math_random ;;
    let node :=
      Vertex.mk (Z.of_nat i)
                ("#" ++ toString16 (Math_floor (rc * lit 16777215)))%string
                (NodeObject.mk (rx * Math_round x_width) (ry * Math_round y_width)
                               None None) in
    rest <- random_nodes x_width y_width count' (S i) ;;
    ret (node :: rest)
  end.

(** The inner loop for the node [i], from [j] on, [count] candidates to
    go. *)
Fixpoint random_row (p : T) (i count j : nat) : Rand (list (Edge.t T)) :=
  match count with
  | O => ret []
  | S count' =>
    r <- Math_random ;;
    rest <- random_row p i count' (S j) ;;
    ret (if r <? p
         then Edge.mk (EdgeEnd.Int (Z.of_nat i)) (EdgeEnd.Int (Z.of_nat j)) None :: rest
         else rest)
  end.

(** The outer loop, from [i] on, [count] nodes to go. *)
Fixpoint random_edges (p : T) (count i : nat) : Rand (list (Edge.t T)) :=
  match count with
  | O => ret []
  | S count' =>
    row <- random_row p i i 0 ;;
    rest <- random_edges p count' (S i) ;;
    ret (row ++ rest)
  end.

(** [n] is a number of nodes, a natural number; [x_width] and [y_width]
    are optional and default to [1000]. *)
Definition erdos_renyi (n : nat) (p : T) (x_width y_width : option T)
  : Rand (Graph.t T) :=
  let x_width := match x_width with Some w => w | None => lit 1000 end in
  let y_width := match y_width with Some w => w | None => lit 1000 end in
  nodes <- random_nodes x_width y_width n 0 ;;
  edges <- random_edges p n 0 ;;
  ret (Graph.mk nodes edges).

End Generators.

(** ** Finite values and the vocabulary of the properties *)

Definition fpoint (x y : R) : Point.t xreal := Point.mk (Fin x) (Fin y).

Definition fline (a b c : R) : Line.t xreal := Line.mk (Fin a) (Fin b) (Fin c).

Definition fcircle (cx cy r : R) : CircleObject.t xreal :=
  CircleObject.mk (Fin cx) (Fin cy) (Fin r).

Definition fdisk (left top right bottom cx cy r : R) : PoinDisk.t xreal :=
  PoinDisk.mk (BoundBox.mk (Fin left) (Fin top) (Fin right) (Fin bottom))
              (Fin cx) (Fin cy) (Fin r).

Definition fnode (x y : R) : NodeObject.t xreal :=
  NodeObject.mk (Fin x) (Fin y) None None.

Definition finite_point (p : Point.t xreal) : bool :=
  is_finite p.(Point.x) && is_finite p.(Point.y).

(** The determinant that [find_intersection] divides by. *)
Definition determinant (a1 b1 a2 b2 : R) : R := (b1 * a2 - a1 * b2)%R.

Definition on_line (a b c x y : R) : Prop := (a * x + b * y + c = 0)%R.

(** Squared Euclidean distance, and the cross product whose vanishing says
    that two points are collinear with a centre. *)
Definition dist2 (x1 y1 x2 y2 : R) : R :=
  ((x1 - x2) * (x1 - x2) + (y1 - y2) * (y1 - y2))%R.

Definition cross (cx cy px py qx qy : R) : R :=
  ((px - cx) * (qy - cy) - (py - cy) * (qx - cx))%R.

(** The perpendicular bisector that [poincare_geodesic] builds for one
    endpoint: the line [m] (or [n]) of its lines 241-246. *)
Definition bisector {T : Type} `{JSNumber T}
    (p : Point.t T) (circle : CircleObject.t T) : Line.t T :=
  let pp := circle_inversion p circle in
  let M := find_midpoint p pp in
  get_perpendicular_line (euclid_line p pp) M.

(** The endpoints are strictly inside the disk and not collinear with its
    centre ([p], [q] are the endpoints in the frame of the disk, after the
    translation by the corner of the bounding box). *)
Definition nondegenerate (px py qx qy cx cy r : R) : Prop :=
  (dist2 px py cx cy < r * r /\ dist2 qx qy cx cy < r * r
   /\ cross cx cy px py qx qy <> 0)%R.

(** The Poincare radius that the projection computes for the scaled
    offsets [dx], [dy] of a layout point from the reference centre, when
    these are finite. *)
Definition real_poincareR (dx dy : R) : R :=
  (let circleR := sqrt (dx * dx + dy * dy) in
   tanh (XReal.Racosh (1 / 2 * circleR * circleR + 1) / 2))%R.

(** The invariant of a disk: a positive radius, the smaller of the
    half-width and the half-height of the bounding box. *)
Definition valid_disk (left top right bottom r : R) : Prop :=
  (0 < r /\ r = Rmin ((right - left) / 2) ((bottom - top) / 2))%R.

(** Two numbers are finite and differ by at most [tol]. *)
Definition approx (tol : R) (a b : xreal) : Prop :=
  match a, b with
  | Fin u, Fin v => (Rabs (u - v) <= tol)%R
  | _, _ => False
  end.

(** Going from the canvas to the disk and back moves [p] by at most
    [tol] in each coordinate. *)
Definition round_trip_within (tol : R) (p : Point.t xreal) (d : PoinDisk.t xreal) : Prop :=
  let p' := disk_to_canvas (canvas_to_disk p d) d in
  approx tol p'.(Point.x) p.(Point.x) /\ approx tol p'.(Point.y) p.(Point.y).

(** The invariant of the page's variables: no click is pending, or the
    first click of a line is, and then [vertices] holds the clicked
    point and the disk. *)
Definition sketch_invariant {T : Type} (poindisk : PoinDisk.t T) (s : Sketch.state T)
  : Prop :=
  (s.(Sketch.can_draw_line) = false /\ s.(Sketch.vertices) = [])
  \/ (s.(Sketch.can_draw_line) = true
      /\ exists p, s.(Sketch.vertices) = [Sketch.Clicked p; Sketch.Disk poindisk]).

Definition is_circle_click {T : Type} (e : Sketch.event T) : bool :=
  String.eqb e.(Sketch.draw_select) "circle".

(** The marker that a click in [circle] mode adds. *)
Definition click_marker {T : Type} `{JSNumber T} (poindisk : PoinDisk.t T)
    (e : Sketch.event T) : Circle.t T :=
  poincare_circle (canvas_to_disk (Point.mk e.(Sketch.x) e.(Sketch.y)) poindisk)
                  (get_radius e) poindisk.

Definition click_point {T : Type} (e : Sketch.event T) : Point.t T :=
  Point.mk e.(Sketch.x) e.(Sketch.y).

(** An end of an edge that refers to a node object of the graph. *)
Definition node_end {T : Type} (graph : Graph.t T) (e : EdgeEnd.t) : Prop :=
  exists k, e = EdgeEnd.Node k /\ (k < List.length graph.(Graph.nodes))%nat.

Definition is_int (e : EdgeEnd.t) : bool :=
  match e with EdgeEnd.Int _ => true | _ => false end.

(** The centre that [to_poincare] returns for a node. *)
Definition projected_center {T : Type} `{JSNumber T} (centerX centerY : T)
    (poindisk : PoinDisk.t T) (v : Vertex.t T) : Point.t T :=
  (snd (to_poincare v.(Vertex.node) centerX centerY poindisk true)).(Projected.center).

(** The number of pairs [(i', j)] with [j < i' < i]: the random numbers
    that the edge loop of [erdos_renyi] draws before it reaches node
    [i]. *)
Fixpoint triangle (i : nat) : nat :=
  match i with
  | O => O
  | S i' => (triangle i' + i')%nat
  end.

(** The edge that [erdos_renyi] pushes for the pair [(i, j)]. *)
Definition int_edge {T : Type} (i j : nat) : Edge.t T :=
  Edge.mk (EdgeEnd.Int (Z.of_nat i)) (EdgeEnd.Int (Z.of_nat j)) None.

(** The number that a string of hexadecimal digits denotes, as
    [parseInt(s, 16)] reads what [toString(16)] wrote: there is none for
    the empty string and for a string with another character.  The
    digits [0] to [9] have the codes 48 to 57, the digits [a] to [f] the
    codes 97 to 102. *)
Definition hex_value (c : ascii) : option N :=
  let code := N_of_ascii c in
  if andb (N.leb 48 code) (N.leb code 57) then Some (code - 48)%N
  else if andb (N.leb 97 code) (N.leb code 102) then Some (code - 87)%N
  else None.

Fixpoint of_hex_from (acc : N) (s : string) : option N :=
  match s with
  | EmptyString => Some acc
  | String c s' =>
    match hex_value c with
    | Some v => of_hex_from (16 * acc + v) s'
    | None => None
    end
  end.

Definition of_hex (s : string) : option N :=
  match s with
  | EmptyString => None
  | _ => of_hex_from 0 s
  end.

(** * Properties

    Statements are about finite inputs: points, lines and disks whose
    fields are [Fin] values.  An equation between finite values is an
    equation of the formulas: binary64 meets it up to rounding. *)

(** ** Arithmetic on finite values *)

Section FiniteArithmetic.
Local Open Scope R_scope.

Lemma xdiv_fin (u v : R) : v <> 0 -> XReal.xdiv (Fin u) (Fin v) = Fin (u / v).
Proof.
  intros Hv. unfold XReal.xdiv. destruct (Req_dec_T v 0); [contradiction | reflexivity].
Qed.

Lemma xdiv_zero_not_finite (u : R) : is_finite (XReal.xdiv (Fin u) (Fin 0)) = false.
Proof.
  unfold XReal.xdiv, XReal.signed_inf.
  destruct (Req_dec_T 0 0) as [_ | Hne]; [| now elim Hne].
  destruct (Req_dec_T u 0); [reflexivity |].
  destruct (Rlt_dec 0 u); reflexivity.
Qed.

Lemma xdiv_pos_zero (u : R) : 0 < u -> XReal.xdiv (Fin u) (Fin 0) = PInf.
Proof.
  intros Hu. unfold XReal.xdiv, XReal.signed_inf.
  destruct (Req_dec_T 0 0) as [_ | Hne]; [| now elim Hne].
  destruct (Req_dec_T u 0); [lra |].
  destruct (Rlt_dec 0 u); [reflexivity | lra].
Qed.

Lemma xdiv_neg_zero (u : R) : u < 0 -> XReal.xdiv (Fin u) (Fin 0) = NInf.
Proof.
  intros Hu. unfold XReal.xdiv, XReal.signed_inf.
  destruct (Req_dec_T 0 0) as [_ | Hne]; [| now elim Hne].
  destruct (Req_dec_T u 0); [lra |].
  destruct (Rlt_dec 0 u); [lra | reflexivity].
Qed.

Lemma xdiv_zero_zero : XReal.xdiv (Fin 0) (Fin 0) = NaN.
Proof.
  unfold XReal.xdiv, XReal.signed_inf.
  destruct (Req_dec_T 0 0) as [_ | Hne]; [reflexivity | now elim Hne].
Qed.

Lemma xsub_fin (u v : R) : XReal.xsub (Fin u) (Fin v) = Fin (u - v).
Proof. reflexivity. Qed.

Lemma xpow2_fin (u : R) : XReal.xpow (Fin u) 2 = Fin (u * u).
Proof. unfold XReal.xpow. f_equal. ring. Qed.

Lemma xsqrt_fin (u : R) : 0 <= u -> XReal.xsqrt (Fin u) = Fin (sqrt u).
Proof.
  intros Hu. unfold XReal.xsqrt. destruct (Rlt_dec u 0); [lra | reflexivity].
Qed.

Lemma xgtb_fin_true (u v : R) : v < u -> XReal.xgtb (Fin u) (Fin v) = true.
Proof.
  intros Huv. unfold XReal.xgtb, XReal.xltb. destruct (Rlt_dec v u); [reflexivity | lra].
Qed.

Lemma xgtb_fin_false (u v : R) : u <= v -> XReal.xgtb (Fin u) (Fin v) = false.
Proof.
  intros Huv. unfold XReal.xgtb, XReal.xltb. destruct (Rlt_dec v u); [lra | reflexivity].
Qed.

Lemma xadd_nan_r (a : xreal) : XReal.xadd a NaN = NaN.
Proof. destruct a; reflexivity. Qed.

Lemma xsub_nan_r (a : xreal) : XReal.xsub a NaN = NaN.
Proof. destruct a; reflexivity. Qed.

Lemma xmul_nan_r (a : xreal) : XReal.xmul a NaN = NaN.
Proof. destruct a; reflexivity. Qed.

Lemma xatan2_nan_r (b : xreal) : XReal.xatan2 b NaN = NaN.
Proof. destruct b; reflexivity. Qed.

Lemma xdiv_by_zero (u v : R) : v = 0 -> is_finite (XReal.xdiv (Fin u) (Fin v)) = false.
Proof. intros ->. apply xdiv_zero_not_finite. Qed.

Lemma xdiv_zero_by_zero (u v : R) : u = 0 -> v = 0 -> XReal.xdiv (Fin u) (Fin v) = NaN.
Proof. intros -> ->. apply xdiv_zero_zero. Qed.

End FiniteArithmetic.

(** Unfolds the interface at [xreal] and computes the operations that are
    total on finite values. *)
Ltac js_unfold :=
  repeat progress (cbn [add sub mul div neg gtb lit Math_abs Math_sqrt Math_pow Math_hypot
       Math_atan2 Math_sin Math_cos Math_tanh Math_acosh Math_atanh
       xreal_number
       XReal.xadd XReal.xneg XReal.xmul XReal.xabs
       XReal.xhypot XReal.xsin XReal.xcos XReal.xtanh
       Point.x Point.y Line.a Line.b Line.c
       BoundBox.left BoundBox.top BoundBox.right BoundBox.bottom
       CircleObject.cx CircleObject.cy CircleObject.r
       PoinDisk.boundbox PoinDisk.cx PoinDisk.cy PoinDisk.r PoinDisk.as_circle
       Circle.cx Circle.cy Circle.r Circle.px Circle.py Circle.center Circle.hcenter
       Arc.p1 Arc.p2 Arc.c Arc.startAngle Arc.endAngle Arc.r
       NodeObject.x NodeObject.y NodeObject.center NodeObject.circle
       Projected.center Projected.circle
       fpoint fline fcircle fdisk fnode is_finite finite_point fst snd] in *;
  rewrite ?xsub_fin, ?xpow2_fin in *).

(** ** Euclidean primitives on finite values *)

Section Primitives.
Local Open Scope R_scope.

Lemma Q2R_lit (n : Z) (d : positive) : Q2R (n # d) = IZR n / IZR (Zpos d).
Proof. reflexivity. Qed.

Lemma fpoint_ext (x y x' y' : R) : x = x' -> y = y' -> fpoint x y = fpoint x' y'.
Proof. intros -> ->. reflexivity. Qed.

Lemma fline_ext (a b c a' b' c' : R) :
  a = a' -> b = b' -> c = c' -> fline a b c = fline a' b' c'.
Proof. intros -> -> ->. reflexivity. Qed.

Lemma dist2_nonneg (x1 y1 x2 y2 : R) : 0 <= dist2 x1 y1 x2 y2.
Proof.
  unfold dist2. apply Rplus_le_le_0_compat; apply Rle_0_sqr.
Qed.

Lemma dist2_zero (x1 y1 x2 y2 : R) : dist2 x1 y1 x2 y2 = 0 <-> x1 = x2 /\ y1 = y2.
Proof.
  unfold dist2. split.
  - intros Hd. apply Rplus_sqr_eq_0 in Hd. lra.
  - intros [-> ->]. ring.
Qed.

Lemma euclid_dist_fin (x1 y1 x2 y2 : R) :
  euclid_dist (fpoint x1 y1) (fpoint x2 y2) = Fin (sqrt (dist2 x1 y1 x2 y2)).
Proof.
  unfold euclid_dist. js_unfold.
  apply xsqrt_fin, dist2_nonneg.
Qed.

Lemma find_midpoint_fin (x1 y1 x2 y2 : R) :
  find_midpoint (fpoint x1 y1) (fpoint x2 y2) = fpoint ((x1 + x2) / 2) ((y1 + y2) / 2).
Proof.
  unfold find_midpoint. js_unfold. rewrite !xdiv_fin by (rewrite Q2R_lit; lra).
  apply fpoint_ext; rewrite Q2R_lit; lra.
Qed.

Lemma get_perpendicular_line_fin (a b c vx vy : R) :
  get_perpendicular_line (fline a b c) (fpoint vx vy)
  = fline b (- a) (- vx * b + vy * a).
Proof. reflexivity. Qed.

Lemma euclid_line_normalized (x1 y1 x2 y2 : R) :
  1 / 1000 < Rabs (x2 - x1) ->
  euclid_line (fpoint x1 y1) (fpoint x2 y2)
  = fline ((y1 - y2) / (x2 - x1)) ((x2 - x1) / (x2 - x1))
          ((x1 * y2 - x2 * y1) / (x2 - x1)).
Proof.
  intros Hb. unfold euclid_line. js_unfold.
  rewrite xgtb_fin_true by (rewrite Q2R_lit; lra).
  assert (Hne : x2 - x1 <> 0) by (intros E; rewrite E, Rabs_R0 in Hb; lra).
  js_unfold. rewrite !xdiv_fin by exact Hne. reflexivity.
Qed.

Lemma euclid_line_raw (x1 y1 x2 y2 : R) :
  Rabs (x2 - x1) <= 1 / 1000 ->
  euclid_line (fpoint x1 y1) (fpoint x2 y2)
  = fline (y1 - y2) (x2 - x1) (x1 * y2 - x2 * y1).
Proof.
  intros Hb. unfold euclid_line. js_unfold.
  rewrite xgtb_fin_false by (rewrite Q2R_lit; lra). reflexivity.
Qed.

(** Whichever branch is taken, the coefficients returned are a non-zero
    multiple of the coefficients of the line through the two points. *)
Lemma euclid_line_fin (x1 y1 x2 y2 : R) :
  exists k, k <> 0
    /\ euclid_line (fpoint x1 y1) (fpoint x2 y2)
       = fline (k * (y1 - y2)) (k * (x2 - x1)) (k * (x1 * y2 - x2 * y1)).
Proof.
  destruct (Rlt_le_dec (1 / 1000) (Rabs (x2 - x1))) as [Hb | Hb].
  - assert (Hne : x2 - x1 <> 0) by (intros E; rewrite E, Rabs_R0 in Hb; lra).
    exists (/ (x2 - x1)). split; [apply Rinv_neq_0_compat, Hne |].
    rewrite euclid_line_normalized by exact Hb.
    apply fline_ext; field; exact Hne.
  - exists 1. split; [lra |].
    rewrite euclid_line_raw by exact Hb.
    apply fline_ext; ring.
Qed.

Lemma circle_inversion_fin (px py cx cy r : R) :
  dist2 px py cx cy <> 0 ->
  circle_inversion (fpoint px py) (fcircle cx cy r)
  = fpoint (r * r / dist2 px py cx cy * (px - cx) + cx)
           (r * r / dist2 px py cx cy * (py - cy) + cy).
Proof.
  intros Hd. unfold circle_inversion.
  cbn [fcircle CircleObject.cx CircleObject.cy CircleObject.r].
  change (Point.mk (Fin cx) (Fin cy)) with (fpoint cx cy).
  rewrite euclid_dist_fin. js_unfold.
  rewrite sqrt_sqrt by apply dist2_nonneg.
  rewrite xdiv_fin by exact Hd. reflexivity.
Qed.

Lemma canvas_to_disk_fin (px py left top right bottom cx cy r : R) :
  right - left <> 0 -> bottom - top <> 0 ->
  canvas_to_disk (fpoint px py) (fdisk left top right bottom cx cy r)
  = fpoint (((px - left) / (right - left) - 1 / 2) * 2)
           (((py - top) / (bottom - top) - 1 / 2) * -2).
Proof.
  intros Hw Hh. unfold canvas_to_disk. js_unfold.
  rewrite !xdiv_fin by assumption. js_unfold. rewrite !Q2R_lit.
  apply fpoint_ext; lra.
Qed.

Lemma disk_to_canvas_fin (x y left top right bottom cx cy r : R) :
  disk_to_canvas (fpoint x y) (fdisk left top right bottom cx cy r)
  = fpoint (x * r + cx) (- y * r + cy).
Proof. reflexivity. Qed.

End Primitives.

(** ** Line intersection *)

Section Intersection.
Local Open Scope R_scope.

Lemma find_intersection_fin (a1 b1 c1 a2 b2 c2 : R) :
  determinant a1 b1 a2 b2 <> 0 ->
  find_intersection (fline a1 b1 c1) (fline a2 b2 c2)
  = fpoint ((c1 * b2 - b1 * c2) / determinant a1 b1 a2 b2)
           ((a1 * c2 - c1 * a2) / determinant a1 b1 a2 b2).
Proof.
  intros Hd. unfold find_intersection, determinant in *. js_unfold.
  rewrite !xdiv_fin by exact Hd. reflexivity.
Qed.

(** For a non-zero determinant the point returned lies on both lines, and
    it is the only such point. *)
Lemma find_intersection_solves (a1 b1 c1 a2 b2 c2 : R) :
  determinant a1 b1 a2 b2 <> 0 ->
  exists x y, find_intersection (fline a1 b1 c1) (fline a2 b2 c2) = fpoint x y
              /\ on_line a1 b1 c1 x y /\ on_line a2 b2 c2 x y
              /\ forall x' y', on_line a1 b1 c1 x' y' -> on_line a2 b2 c2 x' y' ->
                               x' = x /\ y' = y.
Proof.
  intros Hd. eexists. eexists. split; [apply find_intersection_fin, Hd |].
  unfold on_line, determinant in *. repeat split.
  - field. exact Hd.
  - field. exact Hd.
  - apply Rmult_eq_reg_r with (b1 * a2 - a1 * b2); [| exact Hd].
    field_simplify; [| exact Hd]. nra.
  - apply Rmult_eq_reg_r with (b1 * a2 - a1 * b2); [| exact Hd].
    field_simplify; [| exact Hd]. nra.
Qed.

Lemma find_intersection_sym (a1 b1 c1 a2 b2 c2 : R) :
  determinant a1 b1 a2 b2 <> 0 ->
  find_intersection (fline a2 b2 c2) (fline a1 b1 c1)
  = find_intersection (fline a1 b1 c1) (fline a2 b2 c2).
Proof.
  intros Hd.
  assert (Hd' : determinant a2 b2 a1 b1 <> 0) by (unfold determinant in *; lra).
  rewrite !find_intersection_fin by assumption.
  unfold determinant in *. apply fpoint_ext; field; lra.
Qed.

(** With a zero determinant both quotients are divisions by zero. *)
Lemma find_intersection_zero_det (a1 b1 c1 a2 b2 c2 : R) :
  determinant a1 b1 a2 b2 = 0 ->
  exists X Y, find_intersection (fline a1 b1 c1) (fline a2 b2 c2) = Point.mk X Y
              /\ is_finite X = false /\ is_finite Y = false.
Proof.
  intros Hd. unfold find_intersection, determinant in *. js_unfold.
  rewrite Hd. eexists. eexists. split; [reflexivity |].
  split; apply xdiv_zero_not_finite.
Qed.

(** C3: the source has no error path.  For two lines with a zero
    determinant [find_intersection] does not fail: it returns a point,
    and neither coordinate of that point is finite. *)
Theorem find_intersection_parallel (a1 b1 c1 a2 b2 c2 : R) :
  determinant a1 b1 a2 b2 = 0 ->
  exists X Y, find_intersection (fline a1 b1 c1) (fline a2 b2 c2) = Point.mk X Y
              /\ is_finite X = false /\ is_finite Y = false.
Proof.
  intros Hd. unfold find_intersection. js_unfold.
  change (b1 * a2 - a1 * b2) with (determinant a1 b1 a2 b2). rewrite Hd.
  exists (XReal.xdiv (Fin (c1 * b2 - b1 * c2)) (Fin 0)).
  exists (XReal.xdiv (Fin (a1 * c2 - c1 * a2)) (Fin 0)).
  split; [reflexivity |]. split; apply xdiv_zero_not_finite.
Qed.

Lemma find_intersection_parallel_witness :
  determinant 1 1 1 1 = 0
  /\ exists X Y, find_intersection (fline 1 1 0) (fline 1 1 1) = Point.mk X Y
                 /\ is_finite X = false /\ is_finite Y = false.
Proof.
  assert (Hd : determinant 1 1 1 1 = 0) by (unfold determinant; lra).
  split; [exact Hd | apply (find_intersection_parallel 1 1 0 1 1 1 Hd)].
Defined.

(** The parallel lines [x + y = 0] and [x + y + 1 = 0] "meet" at
    [(-Infinity, +Infinity)]. *)
Example find_intersection_parallel_value :
  find_intersection (fline 1 1 0) (fline 1 1 1) = Point.mk NInf PInf.
Proof.
  unfold find_intersection. js_unfold.
  replace (1 * 1 - 1 * 1) with 0 by lra.
  rewrite xdiv_neg_zero by lra. rewrite xdiv_pos_zero by lra. reflexivity.
Qed.

End Intersection.

(** ** Canvas and disk coordinates *)

Section RoundTrip.
Local Open Scope R_scope.

Lemma approx_refl (tol u : R) : 0 <= tol -> approx tol (Fin u) (Fin u).
Proof.
  intros Ht. cbn [approx]. replace (u - u) with 0 by ring. rewrite Rabs_R0. exact Ht.
Qed.

(** A square box of side [2 r] makes the disk valid. *)
Lemma square_disk_valid (left top right bottom r : R) :
  0 < r -> right - left = 2 * r -> bottom - top = 2 * r ->
  valid_disk left top right bottom r.
Proof.
  intros Hr Hw Hh. unfold valid_disk. split; [exact Hr |].
  rewrite Hw, Hh. unfold Rmin. destruct (Rle_dec (2 * r / 2) (2 * r / 2)); lra.
Qed.

(** C2 fails as it is stated: on a canvas of 200 by 400 the disk is
    valid, with radius [100] and centre [(100, 200)], and the canvas
    point [(50, 100)] comes back from the disk as [(50, 150)]. *)
Lemma round_trip_counterexample :
  let d := fdisk 0 0 200 400 100 200 100 in
  valid_disk 0 0 200 400 100
  /\ disk_to_canvas (canvas_to_disk (fpoint 50 100) d) d = fpoint 50 150
  /\ ~ round_trip_within (1 / 1000000000) (fpoint 50 100) d.
Proof.
  intros d.
  assert (Hrt : disk_to_canvas (canvas_to_disk (fpoint 50 100) d) d = fpoint 50 150).
  { subst d. rewrite canvas_to_disk_fin by lra. rewrite disk_to_canvas_fin.
    apply fpoint_ext; lra. }
  split; [| split; [exact Hrt |]].
  - unfold valid_disk. split; [lra |].
    unfold Rmin. destruct (Rle_dec ((200 - 0) / 2) ((400 - 0) / 2)); lra.
  - unfold round_trip_within. rewrite Hrt. cbn [fpoint Point.x Point.y approx].
    intros [_ Hy]. replace (150 - 100) with 50 in Hy by ring.
    rewrite Rabs_pos_eq in Hy by lra. lra.
Qed.

(** C2, as the code has it: when the bounding box is a square of side
    [2 r] with [r] positive, and [(cx, cy)] is the centre of that square,
    the disk is valid, and going to disk coordinates and back returns the
    canvas point itself.  This is the round trip of the formulas; what
    binary64 makes of it far from the disk is [binary64_round_trip_far]
    below. *)
Theorem round_trip_square (px py left top right bottom cx cy r : R) :
  0 < r -> right - left = 2 * r -> bottom - top = 2 * r ->
  cx = left + r -> cy = top + r ->
  let d := fdisk left top right bottom cx cy r in
  valid_disk left top right bottom r
  /\ disk_to_canvas (canvas_to_disk (fpoint px py) d) d = fpoint px py.
Proof.
  intros Hr Hw Hh -> -> d. subst d.
  split; [apply square_disk_valid; assumption |].
  rewrite canvas_to_disk_fin by lra. rewrite disk_to_canvas_fin.
  rewrite Hw, Hh. apply fpoint_ext; field; lra.
Qed.

Lemma round_trip_square_witness :
  0 < 100 /\ 200 - 0 = 2 * 100 /\ 100 = 0 + 100
  /\ valid_disk 0 0 200 200 100
  /\ disk_to_canvas (canvas_to_disk (fpoint 50 120) (fdisk 0 0 200 200 100 100 100))
                    (fdisk 0 0 200 200 100 100 100)
     = fpoint 50 120.
Proof.
  assert (H1 : 0 < 100) by lra.
  assert (H2 : 200 - 0 = 2 * 100) by lra.
  assert (H3 : 100 = 0 + 100) by lra.
  repeat (split; [assumption |]).
  exact (round_trip_square 50 120 0 0 200 200 100 100 100 H1 H2 H2 H3 H3).
Defined.

End RoundTrip.

(** ** The projection *)

Section Projection.
Local Open Scope R_scope.

Lemma tanh_quotient (t : R) : tanh t = (exp t - exp (- t)) / (exp t + exp (- t)).
Proof.
  unfold tanh, sinh, cosh. pose proof (exp_pos t). pose proof (exp_pos (- t)).
  field. lra.
Qed.

Lemma tanh_lt_1 (t : R) : -1 < tanh t < 1.
Proof.
  rewrite tanh_quotient. pose proof (exp_pos t) as Ha. pose proof (exp_pos (- t)) as Hb.
  split.
  - apply Rmult_lt_reg_r with (exp t + exp (- t)); [lra |]. field_simplify; lra.
  - apply Rmult_lt_reg_r with (exp t + exp (- t)); [lra |]. field_simplify; lra.
Qed.

Lemma tanh_nonneg (t : R) : 0 <= t -> 0 <= tanh t.
Proof.
  intros Ht. rewrite tanh_quotient.
  pose proof (exp_pos t) as Ha. pose proof (exp_pos (- t)) as Hb.
  assert (Hab : exp (- t) <= exp t).
  { destruct (Req_dec_T t 0) as [-> | Hne]; [rewrite Ropp_0; lra |].
    left. apply exp_increasing. lra. }
  apply Rmult_le_pos; [lra | left; apply Rinv_0_lt_compat; lra].
Qed.

Lemma tanh_0 : tanh 0 = 0.
Proof. rewrite tanh_quotient, Ropp_0. unfold Rdiv. ring. Qed.

Lemma tanh_increasing (s t : R) : s < t -> tanh s < tanh t.
Proof.
  intros Hst. rewrite !tanh_quotient, !exp_Ropp.
  pose proof (exp_pos s) as Hs. pose proof (exp_pos t) as Ht.
  pose proof (exp_increasing s t Hst) as Hlt.
  set (a := exp s) in *. set (b := exp t) in *. clearbody a b.
  replace ((a - / a) / (a + / a)) with ((a * a - 1) / (a * a + 1)) by (field; nra).
  replace ((b - / b) / (b + / b)) with ((b * b - 1) / (b * b + 1)) by (field; nra).
  apply Rmult_lt_reg_r with ((a * a + 1) * (b * b + 1)); [nra |].
  field_simplify; nra.
Qed.

Lemma Racosh_nonneg (u : R) : 1 <= u -> 0 <= XReal.Racosh u.
Proof.
  intros Hu. unfold XReal.Racosh. rewrite <- ln_1.
  pose proof (sqrt_pos (u * u - 1)) as Hs.
  destruct (Req_dec_T (u + sqrt (u * u - 1)) 1) as [-> | Hne]; [lra |].
  left. apply ln_increasing; lra.
Qed.

Lemma Racosh_1 : XReal.Racosh 1 = 0.
Proof.
  unfold XReal.Racosh. replace (1 * 1 - 1) with 0 by ring.
  rewrite sqrt_0, Rplus_0_r. apply ln_1.
Qed.

Lemma xacosh_fin (u : R) : 1 <= u -> XReal.xacosh (Fin u) = Fin (XReal.Racosh u).
Proof.
  intros Hu. unfold XReal.xacosh. destruct (Rlt_dec u 1); [lra | reflexivity].
Qed.

Lemma Ratan2_0_0 : XReal.Ratan2 0 0 = 0.
Proof.
  unfold XReal.Ratan2. destruct (Rlt_dec 0 0) as [H | _]; [lra | reflexivity].
Qed.

Lemma sqrt_sqrt_assoc (c w : R) : 0 <= w -> c * sqrt w * sqrt w = c * w.
Proof. intros Hw. rewrite Rmult_assoc, sqrt_sqrt by exact Hw. reflexivity. Qed.

(** [poincareR] for a finite layout point and a finite reference
    centre. *)
Lemma projection_poincareR_fin (x y centerX centerY : R) :
  projection_poincareR (fnode x y) (Fin centerX) (Fin centerY)
  = Fin (real_poincareR (5 / 1000 * (x - centerX)) (5 / 1000 * (y - centerY))).
Proof.
  unfold projection_poincareR, real_poincareR. js_unfold. rewrite !Q2R_lit.
  match goal with
  | |- context [XReal.xacosh (Fin (_ * ?c * ?c + ?one))] =>
    assert (Hc : 0 <= c * c) by apply Rle_0_sqr;
    assert (H1 : one = 1) by lra
  end.
  rewrite xacosh_fin by lra. rewrite xdiv_fin by lra. cbn [XReal.xtanh].
  f_equal. f_equal. f_equal; [| lra]. f_equal. lra.
Qed.

Lemma real_poincareR_bounds (dx dy : R) : 0 <= real_poincareR dx dy < 1.
Proof.
  unfold real_poincareR. cbv zeta. split; [| apply tanh_lt_1].
  apply tanh_nonneg.
  assert (Hc : 0 <= sqrt (dx * dx + dy * dy) * sqrt (dx * dx + dy * dy))
    by apply Rle_0_sqr.
  match goal with
  | |- 0 <= XReal.Racosh ?u / 2 =>
    assert (Hu : 0 <= XReal.Racosh u) by (apply Racosh_nonneg; lra)
  end.
  lra.
Qed.

Lemma real_poincareR_opp (dx dy : R) : real_poincareR (- dx) dy = real_poincareR dx dy.
Proof. unfold real_poincareR. replace (- dx * - dx) with (dx * dx) by ring. reflexivity. Qed.

Lemma real_poincareR_pos (dx dy : R) : dx <> 0 -> 0 < real_poincareR dx dy.
Proof.
  intros Hdx. unfold real_poincareR. cbv zeta.
  assert (Hpos : 0 < dx * dx + dy * dy).
  { assert (0 < dx * dx) by (apply Rsqr_pos_lt, Hdx).
    assert (0 <= dy * dy) by apply Rle_0_sqr. lra. }
  rewrite sqrt_sqrt_assoc by lra.
  rewrite <- tanh_0. apply tanh_increasing.
  match goal with
  | |- 0 < XReal.Racosh ?u / 2 => assert (Hu : 0 < XReal.Racosh u); [| lra]
  end.
  unfold XReal.Racosh. rewrite <- ln_1.
  match goal with |- ln 1 < ln (?u + sqrt ?w) => pose proof (sqrt_pos w) end.
  apply ln_increasing; lra.
Qed.

Lemma projection_theta_fin (x y centerX centerY : R) :
  exists t, projection_theta (fnode x y) (Fin centerX) (Fin centerY) = Fin t.
Proof. unfold projection_theta. js_unfold. eexists. reflexivity. Qed.

Lemma projection_at_centre (x y : R) :
  projection_poincareR (fnode x y) (Fin x) (Fin y) = Fin 0
  /\ projection_theta (fnode x y) (Fin x) (Fin y) = Fin 0.
Proof.
  unfold projection_poincareR, projection_theta. js_unfold. rewrite !Q2R_lit.
  replace (5 / 1000 * (x - x)) with 0 by lra.
  replace (5 / 1000 * (y - y)) with 0 by lra.
  replace (0 * 0 + 0 * 0) with 0 by ring. rewrite sqrt_0.
  replace (5 / 10 * 0 * 0 + 1 / 1) with 1 by lra.
  rewrite xacosh_fin by lra. rewrite Racosh_1. rewrite xdiv_fin by lra.
  cbn [XReal.xtanh XReal.xatan2].
  replace (0 / (2 / 1)) with 0 by lra. rewrite tanh_0, Ratan2_0_0. split; reflexivity.
Qed.

End Projection.

(** The centre written by [to_poincare], in terms of the intermediate
    values [poincareR] and [theta]: the offset added to both coordinates
    is the radius [poindisk.r]. *)
Lemma to_poincare_center {T : Type} `{JSNumber T}
    (ePosition : NodeObject.t T) (centerX centerY : T) (poindisk : PoinDisk.t T)
    (inPlace : bool) :
  let poincareR := projection_poincareR ePosition centerX centerY in
  let theta := projection_theta ePosition centerX centerY in
  (snd (to_poincare ePosition centerX centerY poindisk inPlace)).(Projected.center)
  = Point.mk
      (add poindisk.(PoinDisk.r) (mul poindisk.(PoinDisk.r) (mul poincareR (Math_sin theta))))
      (add poindisk.(PoinDisk.r) (mul poindisk.(PoinDisk.r) (mul poincareR (Math_cos theta)))).
Proof. reflexivity. Qed.

Section ProjectionCentre.
Local Open Scope R_scope.

(** For finite inputs the centre is finite, and its coordinates are the
    ones centred at [(cx, cy)] exactly when [cx = r] and [cy = r]. *)
Lemma to_poincare_center_offset
    (x y centerX centerY left top right bottom cx cy r : R) (inPlace : bool) :
  let d := fdisk left top right bottom cx cy r in
  let poincareR := projection_poincareR (fnode x y) (Fin centerX) (Fin centerY) in
  let theta := projection_theta (fnode x y) (Fin centerX) (Fin centerY) in
  let center :=
    (snd (to_poincare (fnode x y) (Fin centerX) (Fin centerY) d inPlace)).(Projected.center) in
  finite_point center = true
  /\ (center.(Point.x) = add (Fin cx) (mul (Fin r) (mul poincareR (Math_sin theta)))
      <-> cx = r)
  /\ (center.(Point.y) = add (Fin cy) (mul (Fin r) (mul poincareR (Math_cos theta)))
      <-> cy = r).
Proof.
  intros d poincareR theta center. subst center. rewrite to_poincare_center. cbv zeta.
  fold poincareR theta. subst poincareR theta d.
  rewrite projection_poincareR_fin.
  destruct (projection_theta_fin x y centerX centerY) as (t & ->).
  js_unfold. split; [reflexivity |].
  split; (split; [intros E; injection E as E; lra | intros ->; reflexivity]).
Qed.

(** C4: on a canvas of 400 by 200 the disk has centre [(200, 100)] and
    radius [100].  The layout point that coincides with the reference
    centre has [poincareR = 0]; it is projected to [(100, 100)], where the
    formula centred at the disk's centre gives [x = 200]. *)
Theorem to_poincare_center_not_disk_centre :
  let d := fdisk 0 0 400 200 200 100 100 in
  let poincareR := projection_poincareR (fnode 5 7) (Fin 5) (Fin 7) in
  let theta := projection_theta (fnode 5 7) (Fin 5) (Fin 7) in
  (snd (to_poincare (fnode 5 7) (Fin 5) (Fin 7) d true)).(Projected.center)
  = fpoint 100 100
  /\ add d.(PoinDisk.cx) (mul d.(PoinDisk.r) (mul poincareR (Math_sin theta))) = Fin 200
  /\ add d.(PoinDisk.cy) (mul d.(PoinDisk.r) (mul poincareR (Math_cos theta))) = Fin 100.
Proof.
  intros d poincareR theta. rewrite to_poincare_center. cbv zeta.
  fold poincareR theta. subst poincareR theta d.
  destruct (projection_at_centre 5 7) as [-> ->]. js_unfold.
  repeat split; try apply fpoint_ext; f_equal; ring.
Qed.

End ProjectionCentre.

(** ** The node marker *)

(** C5, as the code has it: the circle of the returned record is the
    [poincare_circle] of hyperbolic radius [0.05] at the projected
    position; the circle written into the node, when [inPlace] holds, is
    the [poincare_circle] of hyperbolic radius [0.2] at that same
    position, next to the projected centre; without [inPlace] the node is
    left as it was. *)
Theorem to_poincare_circles {T : Type} `{JSNumber T}
    (ePosition : NodeObject.t T) (centerX centerY : T) (poindisk : PoinDisk.t T) :
  let out := snd (to_poincare ePosition centerX centerY poindisk true) in
  let node := fst (to_poincare ePosition centerX centerY poindisk true) in
  let position := canvas_to_disk out.(Projected.center) poindisk in
  out.(Projected.circle) = poincare_circle position (lit 0.05) poindisk
  /\ node.(NodeObject.center) = Some out.(Projected.center)
  /\ node.(NodeObject.circle) = Some (poincare_circle position (lit 0.2) poindisk)
  /\ snd (to_poincare ePosition centerX centerY poindisk false) = out
  /\ fst (to_poincare ePosition centerX centerY poindisk false) = ePosition.
Proof. repeat split. Qed.

(** What [to_poincare] writes into the node. *)
Lemma to_poincare_inplace {T : Type} `{JSNumber T}
    (ePosition : NodeObject.t T) (centerX centerY : T) (poindisk : PoinDisk.t T) :
  let res := to_poincare ePosition centerX centerY poindisk true in
  (fst res).(NodeObject.circle)
  = Some (poincare_circle (canvas_to_disk (snd res).(Projected.center) poindisk)
                          (lit 0.2) poindisk).
Proof. reflexivity. Qed.

Section Marker.
Local Open Scope R_scope.

Lemma Ratanh_0 : XReal.Ratanh 0 = 0.
Proof.
  unfold XReal.Ratanh. replace ((1 + 0) / (1 - 0)) with 1 by field.
  rewrite ln_1. lra.
Qed.

Lemma xatanh_fin (u : R) : -1 < u < 1 -> XReal.xatanh (Fin u) = Fin (XReal.Ratanh u).
Proof.
  intros Hu. unfold XReal.xatanh.
  destruct (Req_dec_T u 1); [lra |]. destruct (Req_dec_T u (-1)); [lra |].
  destruct (Rlt_dec 1 u); [lra |]. destruct (Rlt_dec u (-1)); [lra | reflexivity].
Qed.

Lemma xatanh_one (u : R) : u = 1 -> XReal.xatanh (Fin u) = PInf.
Proof.
  intros ->. unfold XReal.xatanh. destruct (Req_dec_T 1 1) as [_ | Hne]; [reflexivity | now elim Hne].
Qed.

Lemma xatanh_above (u : R) : 1 < u -> XReal.xatanh (Fin u) = NaN.
Proof.
  intros Hu. unfold XReal.xatanh.
  destruct (Req_dec_T u 1); [lra |]. destruct (Req_dec_T u (-1)); [lra |].
  destruct (Rlt_dec 1 u); [reflexivity | lra].
Qed.

(** The radius of the marker drawn at the origin of the disk. *)
Lemma poincare_circle_origin_radius (rad left top right bottom cx cy r : R) :
  (poincare_circle (fpoint 0 0) (Fin rad) (fdisk left top right bottom cx cy r)).(Circle.r)
  = Fin ((tanh ((0 + rad) / 2) - tanh ((0 - rad) / 2)) / 2 * r).
Proof.
  unfold poincare_circle, hyper_radius_from_euclidean, r_poincare_to_euclid. js_unfold.
  rewrite !Q2R_lit. replace (0 * 0 + 0 * 0) with 0 by ring.
  rewrite xsqrt_fin by lra. rewrite sqrt_0, xatanh_fin by lra. rewrite Ratanh_0.
  js_unfold. rewrite !xdiv_fin by lra. js_unfold. rewrite !xdiv_fin by lra. js_unfold.
  f_equal. replace (2 / 1 * 0) with 0 by lra. replace (2 / 1) with 2 by lra. reflexivity.
Qed.

(** C5 fails as it is stated: on a square canvas of side 200, the circle
    written into the node that sits at the reference centre has the
    radius of a marker of hyperbolic radius [0.2], which is larger than
    that of hyperbolic radius [0.05]. *)
Lemma to_poincare_inplace_circle_counterexample :
  let d := fdisk 0 0 200 200 100 100 100 in
  let res := to_poincare (fnode 5 7) (Fin 5) (Fin 7) d true in
  (fst res).(NodeObject.circle)
  <> Some (poincare_circle (canvas_to_disk (snd res).(Projected.center) d) (lit 0.05) d).
Proof.
  intros d res E. subst res.
  rewrite (to_poincare_inplace (fnode 5 7) (Fin 5) (Fin 7) d) in E.
  apply (f_equal (fun o => match o with Some c => c.(Circle.r) | None => NaN end)) in E.
  cbv beta iota in E. revert E.
  rewrite to_poincare_center. cbv zeta.
  destruct (projection_at_centre 5 7) as [-> ->]. subst d. js_unfold.
  change (Point.mk (Fin (100 + 100 * (0 * sin 0))) (Fin (100 + 100 * (0 * cos 0))))
    with (fpoint (100 + 100 * (0 * sin 0)) (100 + 100 * (0 * cos 0))).
  rewrite canvas_to_disk_fin by lra.
  replace (fpoint _ _) with (fpoint 0 0) by (apply fpoint_ext; lra).
  rewrite !poincare_circle_origin_radius, !Q2R_lit. intros E.
  apply (f_equal (fun a => match a with Fin v => v | _ => 0 end)) in E.
  cbv beta iota in E.
  pose proof (tanh_increasing ((0 + 5 / 100) / 2) ((0 + 2 / 10) / 2)).
  pose proof (tanh_increasing ((0 - 2 / 10) / 2) ((0 - 5 / 100) / 2)).
  lra.
Qed.

(** A centre beyond the boundary of the disk is not clamped: [atanh] of
    its norm is [NaN], and so are the fields [cx], [cy] and [r] of the
    circle, whatever the radius and the disk. *)
Lemma poincare_circle_outside (x y : R) (rad : xreal) (poindisk : PoinDisk.t xreal) :
  1 < sqrt (x * x + y * y) ->
  let c := poincare_circle (fpoint x y) rad poindisk in
  c.(Circle.cx) = NaN /\ c.(Circle.cy) = NaN /\ c.(Circle.r) = NaN.
Proof.
  intros Hn c. subst c.
  unfold poincare_circle, hyper_radius_from_euclidean, r_poincare_to_euclid, disk_to_canvas.
  js_unfold. rewrite xsqrt_fin by (apply Rplus_le_le_0_compat; apply Rle_0_sqr).
  rewrite xatanh_above by exact Hn. repeat split.
Qed.

(** C6 fails as it is stated: the centre [(2, 0)] lies beyond the boundary,
    and the marker computed for it has no finite field. *)
Lemma poincare_circle_clamp_counterexample :
  let c := poincare_circle (fpoint 2 0) (lit 0.05) (fdisk 0 0 200 200 100 100 100) in
  1 <= sqrt (2 * 2 + 0 * 0)
  /\ ~ (is_finite c.(Circle.cx) = true /\ is_finite c.(Circle.cy) = true
        /\ is_finite c.(Circle.r) = true).
Proof.
  assert (Hn : sqrt (2 * 2 + 0 * 0) = 2).
  { replace (2 * 2 + 0 * 0) with (2 * 2) by ring. apply sqrt_square. lra. }
  intros c. split; [lra |].
  destruct (poincare_circle_outside 2 0 (lit 0.05) (fdisk 0 0 200 200 100 100 100))
    as (Hx & _); [lra |].
  subst c. rewrite Hx. intros (Habs & _). discriminate Habs.
Qed.

(** C6, as the code has it: for a centre exactly on the boundary, a finite
    hyperbolic radius and a finite disk, the fields [cx], [cy] and [r] of
    the circle are finite, and [r] is zero.  Nothing is clamped: [atanh]
    is evaluated at the norm itself and is [+Infinity], which [tanh]
    maps back to [1]. *)
Theorem poincare_circle_boundary (x y rad left top right bottom cx cy r : R) :
  sqrt (x * x + y * y) = 1 ->
  let c := poincare_circle (fpoint x y) (Fin rad) (fdisk left top right bottom cx cy r) in
  hyper_radius_from_euclidean (Fin (sqrt (x * x + y * y))) = PInf
  /\ is_finite c.(Circle.cx) = true /\ is_finite c.(Circle.cy) = true
  /\ c.(Circle.r) = Fin 0.
Proof.
  intros Hn c. subst c.
  unfold poincare_circle, hyper_radius_from_euclidean, r_poincare_to_euclid, disk_to_canvas.
  js_unfold. rewrite xsqrt_fin by (apply Rplus_le_le_0_compat; apply Rle_0_sqr).
  rewrite xatanh_one by exact Hn. rewrite !Q2R_lit.
  cbn [XReal.xmul]. unfold XReal.signed_inf.
  destruct (Req_dec_T (2 / 1) 0) as [Habs | _]; [lra |].
  destruct (Rlt_dec 0 (2 / 1)) as [_ | Habs]; [| lra].
  cbn [XReal.xadd XReal.xneg XReal.xsub XReal.xdiv].
  destruct (Rlt_dec (2 / 1) 0) as [Habs | _]; [lra |].
  js_unfold. rewrite !xdiv_fin by lra. js_unfold.
  repeat split. f_equal. lra.
Qed.

Lemma poincare_circle_boundary_witness :
  sqrt (1 * 1 + 0 * 0) = 1
  /\ (poincare_circle (fpoint 1 0) (Fin 0.05) (fdisk 0 0 200 200 100 100 100)).(Circle.r)
     = Fin 0.
Proof.
  assert (Hn : sqrt (1 * 1 + 0 * 0) = 1).
  { replace (1 * 1 + 0 * 0) with (1 * 1) by ring. apply sqrt_square. lra. }
  split; [exact Hn |].
  apply (poincare_circle_boundary 1 0 0.05 0 0 200 200 100 100 100 Hn).
Defined.

(** Strictly inside the disk every field is finite as well. *)
Lemma poincare_circle_inside (x y rad left top right bottom cx cy r : R) :
  sqrt (x * x + y * y) < 1 ->
  let c := poincare_circle (fpoint x y) (Fin rad) (fdisk left top right bottom cx cy r) in
  is_finite c.(Circle.cx) = true /\ is_finite c.(Circle.cy) = true
  /\ is_finite c.(Circle.r) = true.
Proof.
  intros Hn c. subst c.
  unfold poincare_circle, hyper_radius_from_euclidean, r_poincare_to_euclid, disk_to_canvas.
  js_unfold. rewrite xsqrt_fin by (apply Rplus_le_le_0_compat; apply Rle_0_sqr).
  pose proof (sqrt_pos (x * x + y * y)) as Hs.
  rewrite xatanh_fin by lra. rewrite !Q2R_lit. js_unfold.
  rewrite !xdiv_fin by lra. js_unfold. rewrite !xdiv_fin by lra. js_unfold.
  repeat split.
Qed.

End Marker.

(** ** The perpendicular bisectors of the geodesic construction *)

Section Bisectors.
Local Open Scope R_scope.

(** [poincare_geodesic], with its intermediate lines folded. *)
Lemma poincare_geodesic_unfold (p q : Point.t xreal) (left top right bottom cx cy r : R) :
  poincare_geodesic p q (fdisk left top right bottom cx cy r)
  = let p := Point.mk (sub p.(Point.x) (Fin left)) (sub p.(Point.y) (Fin top)) in
    let q := Point.mk (sub q.(Point.x) (Fin left)) (sub q.(Point.y) (Fin top)) in
    let C := find_intersection (bisector p (fcircle cx cy r)) (bisector q (fcircle cx cy r)) in
    Arc.mk p q C
      (Math_atan2 (sub q.(Point.y) C.(Point.y)) (sub q.(Point.x) C.(Point.x)))
      (Math_atan2 (sub p.(Point.y) C.(Point.y)) (sub p.(Point.x) C.(Point.x)))
      (euclid_dist p C).
Proof. reflexivity. Qed.

Lemma poincare_geodesic_fin (px py qx qy left top right bottom cx cy r : R) :
  poincare_geodesic (fpoint px py) (fpoint qx qy) (fdisk left top right bottom cx cy r)
  = let p := fpoint (px - left) (py - top) in
    let q := fpoint (qx - left) (qy - top) in
    let C := find_intersection (bisector p (fcircle cx cy r)) (bisector q (fcircle cx cy r)) in
    Arc.mk p q C
      (Math_atan2 (sub q.(Point.y) C.(Point.y)) (sub q.(Point.x) C.(Point.x)))
      (Math_atan2 (sub p.(Point.y) C.(Point.y)) (sub p.(Point.x) C.(Point.x)))
      (euclid_dist p C).
Proof. reflexivity. Qed.

(** For [p] other than the centre, the bisector is the line
    [u . (X - c) = (|u|^2 + r^2) / 2] with [u = p - c], its coefficients
    scaled by a factor [K] that vanishes exactly when [p] lies on the
    circle. *)
Lemma bisector_fin (px py cx cy r : R) :
  dist2 px py cx cy <> 0 ->
  exists K,
    (K = 0 <-> dist2 px py cx cy = r * r)
    /\ bisector (fpoint px py) (fcircle cx cy r)
       = fline (K * (px - cx)) (K * (py - cy))
               (- K * ((px - cx) * cx + (py - cy) * cy
                       + (dist2 px py cx cy + r * r) / 2)).
Proof.
  intros Hd. unfold bisector. rewrite circle_inversion_fin by exact Hd.
  rewrite find_midpoint_fin.
  destruct (euclid_line_fin px py
              (r * r / dist2 px py cx cy * (px - cx) + cx)
              (r * r / dist2 px py cx cy * (py - cy) + cy)) as (k & Hk & ->).
  rewrite get_perpendicular_line_fin.
  exists (k * ((r * r - dist2 px py cx cy) / dist2 px py cx cy)). split.
  - split.
    + intros HK. apply Rmult_integral in HK. destruct HK as [HK | HK]; [contradiction |].
      apply (f_equal (fun z => z * dist2 px py cx cy)) in HK.
      field_simplify in HK; [| exact Hd]. lra.
    + intros E. rewrite E. unfold Rdiv. ring.
  - apply fline_ext.
    + field. exact Hd.
    + field. exact Hd.
    + set (D := dist2 px py cx cy) in *.
      assert (HD : D = (px - cx) * (px - cx) + (py - cy) * (py - cy)) by reflexivity.
      clearbody D. field_simplify; [| exact Hd | exact Hd].
      rewrite HD. field. rewrite <- HD. exact Hd.
Qed.

End Bisectors.

(** ** Circle inversion *)

Section Inversion.
Local Open Scope R_scope.

Lemma circle_inversion_centre (cx cy r : R) :
  circle_inversion (fpoint cx cy) (fcircle cx cy r) = Point.mk NaN NaN.
Proof.
  unfold circle_inversion.
  cbn [fcircle CircleObject.cx CircleObject.cy CircleObject.r].
  change (Point.mk (Fin cx) (Fin cy)) with (fpoint cx cy).
  rewrite euclid_dist_fin. js_unfold.
  replace (dist2 cx cy cx cy) with 0 by (unfold dist2; ring).
  rewrite sqrt_0. replace (0 * 0) with 0 by ring.
  replace (cx - cx) with 0 by ring. replace (cy - cy) with 0 by ring.
  unfold XReal.xdiv, XReal.signed_inf.
  destruct (Req_dec_T 0 0) as [_ | Hne]; [| now elim Hne].
  destruct (Req_dec_T (r * r) 0); [reflexivity |].
  destruct (Rlt_dec 0 (r * r)); cbn [XReal.xmul XReal.xadd]; unfold XReal.signed_inf;
    (destruct (Req_dec_T 0 0) as [_ | Hne]; [reflexivity | now elim Hne]).
Qed.

(** The bisector built for the centre of the circle has no finite
    coefficient. *)
Lemma bisector_centre (cx cy r : R) :
  bisector (fpoint cx cy) (fcircle cx cy r) = Line.mk NaN NaN NaN.
Proof. unfold bisector. rewrite circle_inversion_centre. reflexivity. Qed.

Lemma find_intersection_nan_l (n : Line.t xreal) :
  find_intersection (Line.mk NaN NaN NaN) n = Point.mk NaN NaN.
Proof. reflexivity. Qed.

Lemma find_intersection_nan_r (m : Line.t xreal) :
  find_intersection m (Line.mk NaN NaN NaN) = Point.mk NaN NaN.
Proof.
  unfold find_intersection. cbn [Line.a Line.b Line.c mul sub div xreal_number].
  rewrite !xmul_nan_r. reflexivity.
Qed.

Lemma euclid_dist_nan (p : Point.t xreal) : euclid_dist p (Point.mk NaN NaN) = NaN.
Proof.
  unfold euclid_dist. cbn [Point.x Point.y sub add Math_pow Math_sqrt xreal_number].
  rewrite !xsub_nan_r. reflexivity.
Qed.

(** C10: [circle_inversion] returns a finite point exactly when [p] is
    not the centre of the circle.  Away from the centre the image lies on
    the ray from the centre through [p], at distance [r^2 / dist] from the
    centre; at the centre the scale factor is [r^2 / 0] and both
    coordinates are [NaN].  [poincare_geodesic] inverts its endpoints
    without a guard: when either endpoint is the centre of the disk, the
    centre and the radius of the arc it returns are [NaN]. *)
Theorem circle_inversion_off_centre (px py cx cy r : R) :
  let p' := circle_inversion (fpoint px py) (fcircle cx cy r) in
  (finite_point p' = true <-> px <> cx \/ py <> cy)
  /\ (px <> cx \/ py <> cy ->
      exists X Y k,
        p' = fpoint X Y /\ 0 <= k
        /\ X - cx = k * (px - cx) /\ Y - cy = k * (py - cy)
        /\ sqrt (dist2 X Y cx cy) = r * r / sqrt (dist2 px py cx cy))
  /\ (px = cx /\ py = cy -> p' = Point.mk NaN NaN)
  /\ (px = cx /\ py = cy ->
      forall (q : Point.t xreal) (left top right bottom : R),
        let d := fdisk left top right bottom cx cy r in
        let g := poincare_geodesic (fpoint (left + px) (top + py)) q d in
        let g' := poincare_geodesic q (fpoint (left + px) (top + py)) d in
        g.(Arc.c) = Point.mk NaN NaN /\ g.(Arc.r) = NaN
        /\ g'.(Arc.c) = Point.mk NaN NaN /\ g'.(Arc.r) = NaN).
Proof.
  intros p'. subst p'.
  assert (Hoff : px <> cx \/ py <> cy -> dist2 px py cx cy <> 0).
  { intros Hne E. apply dist2_zero in E. destruct E, Hne; contradiction. }
  split; [split | split; [| split]].
  - intros Hfin. destruct (Req_dec_T px cx) as [-> | Hx]; [| now left].
    destruct (Req_dec_T py cy) as [-> | Hy]; [| now right].
    rewrite circle_inversion_centre in Hfin. discriminate Hfin.
  - intros Hne. rewrite circle_inversion_fin by (apply Hoff, Hne). reflexivity.
  - intros Hne. pose proof (Hoff Hne) as Hd.
    pose proof (dist2_nonneg px py cx cy) as Hd0.
    set (D := dist2 px py cx cy) in *.
    exists (r * r / D * (px - cx) + cx), (r * r / D * (py - cy) + cy), (r * r / D).
    split; [apply circle_inversion_fin, Hd |].
    assert (HD : 0 < D) by lra.
    assert (Hk : 0 <= r * r / D).
    { apply Rmult_le_pos; [apply Rle_0_sqr | left; apply Rinv_0_lt_compat, HD]. }
    split; [exact Hk |]. split; [ring |]. split; [ring |].
    assert (Hs : 0 < sqrt D) by (apply sqrt_lt_R0, HD).
    replace (dist2 (r * r / D * (px - cx) + cx) (r * r / D * (py - cy) + cy) cx cy)
      with ((r * r / sqrt D) * (r * r / sqrt D)).
    + apply sqrt_square. apply Rmult_le_pos; [apply Rle_0_sqr | left; apply Rinv_0_lt_compat, Hs].
    + unfold dist2.
      replace ((r * r / D * (px - cx) + cx - cx) * (r * r / D * (px - cx) + cx - cx)
               + (r * r / D * (py - cy) + cy - cy) * (r * r / D * (py - cy) + cy - cy))
        with ((r * r / D) * (r * r / D) * D) by (unfold D, dist2; ring).
      assert (HDs : D = sqrt D * sqrt D) by (symmetry; apply sqrt_sqrt; lra).
      set (s := sqrt D) in *. clearbody s. clearbody D. subst D. field. lra.
  - intros [-> ->]. apply circle_inversion_centre.
  - intros [-> ->] q left top right bottom d g g'. subst d g g'.
    rewrite !poincare_geodesic_unfold. cbv zeta.
    cbn [sub xreal_number fpoint Point.x Point.y Arc.c Arc.r].
    rewrite !xsub_fin.
    replace (left + cx - left) with cx by ring. replace (top + cy - top) with cy by ring.
    change (Point.mk (Fin cx) (Fin cy)) with (fpoint cx cy).
    rewrite bisector_centre, find_intersection_nan_l, find_intersection_nan_r.
    rewrite !euclid_dist_nan. repeat split.
Qed.

Lemma circle_inversion_off_centre_witness :
  (150 <> 100 \/ 100 <> 100)
  /\ exists X Y k,
       circle_inversion (fpoint 150 100) (fcircle 100 100 100) = fpoint X Y
       /\ 0 <= k /\ X - 100 = k * (150 - 100) /\ Y - 100 = k * (100 - 100)
       /\ sqrt (dist2 X Y 100 100) = 100 * 100 / sqrt (dist2 150 100 100 100).
Proof.
  assert (Hne : 150 <> 100 \/ 100 <> 100) by (left; lra).
  split; [exact Hne |].
  exact (proj1 (proj2 (circle_inversion_off_centre 150 100 100 100 100)) Hne).
Defined.

(** The image of [(150, 100)] in the circle of centre [(100, 100)] and
    radius [100] is [(300, 100)]. *)
Example circle_inversion_value :
  circle_inversion (fpoint 150 100) (fcircle 100 100 100) = fpoint 300 100.
Proof.
  rewrite circle_inversion_fin by (unfold dist2; lra).
  apply fpoint_ext; unfold dist2; field.
Qed.

End Inversion.

(** ** The non-degenerate geodesic *)

Section Geodesic.
Local Open Scope R_scope.

Lemma nondegenerate_off_centre (px py qx qy cx cy r : R) :
  nondegenerate px py qx qy cx cy r ->
  dist2 px py cx cy <> 0 /\ dist2 qx qy cx cy <> 0.
Proof.
  unfold nondegenerate, cross. intros (_ & _ & Hc).
  split; intros E; apply dist2_zero in E; destruct E as [-> ->]; apply Hc; ring.
Qed.

(** The centre computed for a non-degenerate pair is a finite point [C]
    with [u . (C - c) = (|u|^2 + r^2) / 2] for both [u = p - c] and
    [u = q - c]. *)
Lemma geodesic_center_fin (px py qx qy cx cy r : R) :
  nondegenerate px py qx qy cx cy r ->
  exists X Y,
    find_intersection (bisector (fpoint px py) (fcircle cx cy r))
                      (bisector (fpoint qx qy) (fcircle cx cy r)) = fpoint X Y
    /\ (px - cx) * (X - cx) + (py - cy) * (Y - cy) = (dist2 px py cx cy + r * r) / 2
    /\ (qx - cx) * (X - cx) + (qy - cy) * (Y - cy) = (dist2 qx qy cx cy + r * r) / 2.
Proof.
  intros Hnd. destruct (nondegenerate_off_centre _ _ _ _ _ _ _ Hnd) as [Hp0 Hq0].
  destruct Hnd as (Hp & Hq & Hc).
  destruct (bisector_fin px py cx cy r Hp0) as (K1 & HK1 & ->).
  destruct (bisector_fin qx qy cx cy r Hq0) as (K2 & HK2 & ->).
  assert (HK1' : K1 <> 0) by (intros E; apply HK1 in E; lra).
  assert (HK2' : K2 <> 0) by (intros E; apply HK2 in E; lra).
  set (D1 := dist2 px py cx cy) in *. set (D2 := dist2 qx qy cx cy) in *.
  clearbody D1 D2.
  match goal with
  | |- context [find_intersection (fline ?a1 ?b1 ?c1) (fline ?a2 ?b2 ?c2)] =>
    assert (Hdet : determinant a1 b1 a2 b2 <> 0);
    [| destruct (find_intersection_solves a1 b1 c1 a2 b2 c2 Hdet)
         as (X & Y & -> & H1 & H2 & _)]
  end.
  - unfold determinant, cross in *. intros E. apply Hc.
    apply Rmult_eq_reg_l with (K1 * K2); [| now apply Rmult_integral_contrapositive].
    lra.
  - exists X, Y. split; [reflexivity |]. unfold on_line in H1, H2. split.
    + apply Rmult_eq_reg_l with K1; [lra | exact HK1'].
    + apply Rmult_eq_reg_l with K2; [lra | exact HK2'].
Qed.

(** A point [C] on the bisector built for [p] is at squared distance
    [|C - c|^2 - r^2] from [p]. *)
Lemma bisector_power (px py cx cy r X Y : R) :
  (px - cx) * (X - cx) + (py - cy) * (Y - cy) = (dist2 px py cx cy + r * r) / 2 ->
  dist2 px py X Y = dist2 X Y cx cy - r * r.
Proof. unfold dist2. intros Heq. lra. Qed.





End Geodesic.

(** ** The geodesic through the centre of the disk *)

Section DegenerateGeodesic.
Local Open Scope R_scope.

(** In general: for two endpoints collinear with the centre of the disk
    (and distinct from it) the two bisectors are parallel, and the centre
    that [poincare_geodesic] returns has no finite coordinate. *)
Lemma poincare_geodesic_collinear (px py qx qy left top right bottom cx cy r : R) :
  dist2 (px - left) (py - top) cx cy <> 0 ->
  dist2 (qx - left) (qy - top) cx cy <> 0 ->
  cross cx cy (px - left) (py - top) (qx - left) (qy - top) = 0 ->
  let g := poincare_geodesic (fpoint px py) (fpoint qx qy)
                             (fdisk left top right bottom cx cy r) in
  is_finite g.(Arc.c).(Point.x) = false /\ is_finite g.(Arc.c).(Point.y) = false.
Proof.
  intros Hp Hq Hc g. subst g. rewrite poincare_geodesic_fin. cbv zeta. cbn [Arc.c].
  destruct (bisector_fin _ _ _ _ r Hp) as (K1 & _ & ->).
  destruct (bisector_fin _ _ _ _ r Hq) as (K2 & _ & ->).
  match goal with
  | |- context [find_intersection (fline ?a1 ?b1 ?c1) (fline ?a2 ?b2 ?c2)] =>
    destruct (find_intersection_zero_det a1 b1 c1 a2 b2 c2) as (X & Y & -> & HX & HY)
  end.
  - unfold determinant, cross in *.
    replace (K1 * (py - top - cy) * (K2 * (qx - left - cx))
             - K1 * (px - left - cx) * (K2 * (qy - top - cy)))
      with (- (K1 * K2) * ((px - left - cx) * (qy - top - cy)
                           - (py - top - cy) * (qx - left - cx))) by ring.
    rewrite Hc. ring.
  - split; assumption.
Qed.

(** For two points on a horizontal line through the centre of the disk
    the bisectors are two vertical lines: their intersection is [0/0] in
    [x] and a non-zero number over zero in [y]. *)
Lemma geodesic_center_horizontal (cx cy r d : R) :
  d <> 0 ->
  exists Y,
    find_intersection (bisector (fpoint (cx + d) cy) (fcircle cx cy r))
                      (bisector (fpoint (cx - d) cy) (fcircle cx cy r))
    = Point.mk NaN Y
    /\ is_finite Y = false.
Proof.
  intros Hd.
  assert (Hdp : dist2 (cx + d) cy cx cy <> 0) by (unfold dist2; nra).
  assert (Hdq : dist2 (cx - d) cy cx cy <> 0) by (unfold dist2; nra).
  destruct (bisector_fin (cx + d) cy cx cy r Hdp) as (K1 & _ & ->).
  destruct (bisector_fin (cx - d) cy cx cy r Hdq) as (K2 & _ & ->).
  unfold find_intersection. js_unfold.
  match goal with
  | |- exists Y, Point.mk (XReal.xdiv (Fin ?u) (Fin ?v)) ?y = _ /\ _ =>
    rewrite (xdiv_zero_by_zero u v) by ring; exists y
  end.
  split; [reflexivity |]. apply xdiv_by_zero. ring.
Qed.

(** An arc around a centre whose [x] is [NaN] has a [NaN] radius. *)
Lemma euclid_dist_nan_x (p : Point.t xreal) (Y : xreal) :
  euclid_dist p (Point.mk NaN Y) = NaN.
Proof.
  unfold euclid_dist. cbn [Point.x Point.y sub add Math_pow Math_sqrt xreal_number].
  rewrite xsub_nan_r. reflexivity.
Qed.

(** C1: two points on a horizontal line through the centre of the disk,
    one on each side of it, such as [p = (0.5, 0)] and [q = (-0.5, 0)] in
    the unit disk.  [poincare_geodesic] does not detect the degenerate
    case: it intersects the two (parallel) bisectors; the [x] coordinate
    of the centre it returns is [NaN], the [y] coordinate is not finite,
    and the radius and both angles are [NaN]. *)
Theorem poincare_geodesic_diameter (left top right bottom cx cy r d : R) :
  d <> 0 ->
  let g := poincare_geodesic (fpoint (left + cx + d) (top + cy))
                             (fpoint (left + cx - d) (top + cy))
                             (fdisk left top right bottom cx cy r) in
  g.(Arc.c).(Point.x) = NaN
  /\ is_finite g.(Arc.c).(Point.y) = false
  /\ g.(Arc.r) = NaN /\ g.(Arc.startAngle) = NaN /\ g.(Arc.endAngle) = NaN.
Proof.
  intros Hd g. subst g. rewrite poincare_geodesic_fin. cbv zeta.
  replace (left + cx + d - left) with (cx + d) by ring.
  replace (left + cx - d - left) with (cx - d) by ring.
  replace (top + cy - top) with cy by ring.
  destruct (geodesic_center_horizontal cx cy r d Hd) as (Y & -> & HY).
  cbn [Arc.c Arc.r Arc.startAngle Arc.endAngle Point.x Point.y].
  rewrite euclid_dist_nan_x.
  cbn [fpoint Point.x Point.y Math_atan2 sub xreal_number XReal.xsub XReal.xneg XReal.xadd].
  rewrite !xatan2_nan_r. repeat split. exact HY.
Qed.

Lemma poincare_geodesic_diameter_witness :
  0.5 <> 0
  /\ let g := poincare_geodesic (fpoint (0 + 0 + 0.5) (0 + 0))
                                (fpoint (0 + 0 - 0.5) (0 + 0))
                                (fdisk 0 0 0 0 0 0 1) in
     g.(Arc.c).(Point.x) = NaN
     /\ is_finite g.(Arc.c).(Point.y) = false
     /\ g.(Arc.r) = NaN /\ g.(Arc.startAngle) = NaN /\ g.(Arc.endAngle) = NaN.
Proof.
  assert (Hd : 0.5 <> 0) by lra.
  split; [exact Hd |].
  exact (poincare_geodesic_diameter 0 0 0 0 0 0 1 0.5 Hd).
Defined.

(** The same on a canvas of 200 by 200, for the points [(150, 100)] and
    [(50, 100)]. *)
Example poincare_geodesic_diameter_canvas :
  let g := poincare_geodesic (fpoint 150 100) (fpoint 50 100)
                             (fdisk 0 0 200 200 100 100 100) in
  g.(Arc.c).(Point.x) = NaN /\ is_finite g.(Arc.c).(Point.y) = false
  /\ g.(Arc.r) = NaN.
Proof.
  intros g. subst g. rewrite poincare_geodesic_fin. cbv zeta.
  replace (150 - 0) with (100 + 50) by lra. replace (50 - 0) with (100 - 50) by lra.
  replace (100 - 0) with 100 by lra.
  destruct (geodesic_center_horizontal 100 100 100 50) as (Y & -> & HY); [lra |].
  cbn [Arc.c Arc.r Point.x Point.y]. rewrite euclid_dist_nan_x. repeat split. exact HY.
Qed.

Lemma projection_theta_horizontal (x centerX centerY : R) :
  x <> centerX ->
  projection_theta (fnode x centerY) (Fin centerX) (Fin centerY)
  = Fin (if Rlt_dec centerX x then PI / 2 else - (PI / 2)).
Proof.
  intros Hx. unfold projection_theta. js_unfold. rewrite !Q2R_lit.
  cbn [XReal.xatan2]. f_equal. unfold XReal.Ratan2.
  replace (5 / 1000 * (centerY - centerY)) with 0 by lra.
  destruct (Rlt_dec 0 0) as [Habs | _]; [lra |].
  destruct (Rlt_dec 0 (5 / 1000 * (x - centerX))) as [Hpos | Hneg];
    destruct (Rlt_dec centerX x) as [Hlt | Hge]; try lra.
  destruct (Rlt_dec (5 / 1000 * (x - centerX)) 0) as [_ | Habs]; lra.
Qed.

(** A graph of two nodes at [(0, 0)] and [(10, 0)], joined by an edge and
    drawn on a canvas of 200 by 200: the reference centre is their mean
    [(5, 0)], the two projected centres lie on the horizontal line through
    the centre of the disk, and the arc computed for the edge has a [NaN]
    centre and a [NaN] radius. *)
Example two_nodes_geodesic :
  let d := fdisk 0 0 200 200 100 100 100 in
  let source := fst (to_poincare (fnode 0 0) (Fin 5) (Fin 0) d true) in
  let target := fst (to_poincare (fnode 10 0) (Fin 5) (Fin 0) d true) in
  exists p q,
    source.(NodeObject.center) = Some p /\ target.(NodeObject.center) = Some q
    /\ (poincare_geodesic p q d).(Arc.c).(Point.x) = NaN
    /\ (poincare_geodesic p q d).(Arc.r) = NaN.
Proof.
  intros d source target.
  exists (snd (to_poincare (fnode 0 0) (Fin 5) (Fin 0) d true)).(Projected.center).
  exists (snd (to_poincare (fnode 10 0) (Fin 5) (Fin 0) d true)).(Projected.center).
  split; [reflexivity |]. split; [reflexivity |].
  rewrite !to_poincare_center. cbv zeta.
  rewrite !projection_poincareR_fin.
  rewrite !projection_theta_horizontal by lra.
  destruct (Rlt_dec 5 0) as [Habs | _]; [lra |].
  destruct (Rlt_dec 5 10) as [_ | Habs]; [| lra].
  replace (5 / 1000 * (0 - 5)) with (- (5 / 1000 * (10 - 5))) by lra.
  rewrite real_poincareR_opp.
  pose proof (real_poincareR_pos (5 / 1000 * (10 - 5)) (5 / 1000 * (0 - 0))) as Hv.
  set (v := real_poincareR (5 / 1000 * (10 - 5)) (5 / 1000 * (0 - 0))) in *.
  assert (Hd : - (100 * v) <> 0) by (assert (0 < v) by (apply Hv; lra); lra).
  subst d. js_unfold. rewrite sin_neg, cos_neg, sin_PI2, cos_PI2.
  change (Point.mk (Fin (100 + 100 * (v * - (1)))) (Fin (100 + 100 * (v * 0))))
    with (fpoint (100 + 100 * (v * - (1))) (100 + 100 * (v * 0))).
  change (Point.mk (Fin (100 + 100 * (v * 1))) (Fin (100 + 100 * (v * 0))))
    with (fpoint (100 + 100 * (v * 1)) (100 + 100 * (v * 0))).
  change (PoinDisk.mk (BoundBox.mk (Fin 0) (Fin 0) (Fin 200) (Fin 200))
                      (Fin 100) (Fin 100) (Fin 100))
    with (fdisk 0 0 200 200 100 100 100).
  rewrite poincare_geodesic_fin. cbv zeta.
  replace (100 + 100 * (v * - (1)) - 0) with (100 + - (100 * v)) by ring.
  replace (100 + 100 * (v * 1) - 0) with (100 - - (100 * v)) by ring.
  replace (100 + 100 * (v * 0) - 0) with 100 by ring.
  destruct (geodesic_center_horizontal 100 100 100 (- (100 * v)) Hd) as (Y & -> & _).
  cbn [Arc.c Arc.r Point.x Point.y]. rewrite euclid_dist_nan_x. split; reflexivity.
Qed.

End DegenerateGeodesic.

(** ** The same inputs in binary64

    The functions that use none of the host's [Math] functions can be run
    on binary64 numbers.  The values agree with the ones above, up to the
    sign of an infinity that comes from a division by [-0]. *)

Section Binary64.
Import PrimFloat.
Variable M : IEEE.MathLibrary.
Local Open Scope float_scope.

(** The literals of the source denote the binary64 numbers that
    JavaScript reads them as. *)
Example binary64_literals :
  @lit float (IEEE.number M) 0.001%Q = 0x1.0624dd2f1a9fcp-10
  /\ @lit float (IEEE.number M) 0.005%Q = 0x1.47ae147ae147bp-8
  /\ @lit float (IEEE.number M) 0.05%Q = 0x1.999999999999ap-5
  /\ @lit float (IEEE.number M) 0.2%Q = 0x1.999999999999ap-3
  /\ @lit float (IEEE.number M) (-2)%Q = -2.
Proof. vm_compute. repeat split. Qed.

Example binary64_find_intersection_parallel :
  @find_intersection float (IEEE.number M) (Line.mk 1 1 0) (Line.mk 1 1 1)
  = Point.mk neg_infinity infinity.
Proof. vm_compute. reflexivity. Qed.

Example binary64_round_trip :
  let d := PoinDisk.mk (BoundBox.mk 0 0 200 400) 100 200 100 in
  @disk_to_canvas float (IEEE.number M)
    (@canvas_to_disk float (IEEE.number M) (Point.mk 50 100) d) d
  = Point.mk 50 150.
Proof. vm_compute. reflexivity. Qed.

(** On the square disk of side [200] the round trip is exact in
    binary64 for a point such as [(50, 120)]; for the canvas point
    [(123456789.1, 0.7)], far from the disk, the abscissa that comes back
    is off by more than [1e-9] (and by less than [2e-8]): the error of the
    round trip grows with the size of the coordinates. *)
Example binary64_round_trip_far :
  let d := PoinDisk.mk (BoundBox.mk 0 0 200 200) 100 100 100 in
  let x := @lit float (IEEE.number M) 123456789.1%Q in
  let y := @lit float (IEEE.number M) 0.7%Q in
  let p' := @disk_to_canvas float (IEEE.number M)
              (@canvas_to_disk float (IEEE.number M) (Point.mk x y) d) d in
  @disk_to_canvas float (IEEE.number M)
    (@canvas_to_disk float (IEEE.number M) (Point.mk 50 120) d) d
  = Point.mk 50 120
  /\ (@lit float (IEEE.number M) (1 / 1000000000)%Q <? abs (p'.(Point.x) - x)) = true
  /\ (abs (p'.(Point.x) - x) <? @lit float (IEEE.number M) (2 / 100000000)%Q) = true.
Proof. vm_compute. repeat split. Qed.

(** The two bisectors that [poincare_geodesic] builds for [(150, 100)]
    and [(50, 100)] in the disk of centre [(100, 100)] and radius [100],
    from the inverted points [(300, 100)] and [(-100, 100)]. *)
Example binary64_bisectors_diameter :
  let m := @get_perpendicular_line float (IEEE.number M)
             (@euclid_line float (IEEE.number M) (Point.mk 150 100) (Point.mk 300 100))
             (@find_midpoint float (IEEE.number M) (Point.mk 150 100) (Point.mk 300 100)) in
  let n := @get_perpendicular_line float (IEEE.number M)
             (@euclid_line float (IEEE.number M) (Point.mk 50 100) (Point.mk (-100) 100))
             (@find_midpoint float (IEEE.number M) (Point.mk 50 100) (Point.mk (-100) 100)) in
  @find_intersection float (IEEE.number M) m n = Point.mk nan neg_infinity.
Proof. vm_compute. reflexivity. Qed.

End Binary64.

(** * Further properties *)

(** ** Polar coordinates *)

Section PolarCoordinates.
Local Open Scope R_scope.

Lemma sqrt_sum_squares (x y : R) :
  x <> 0 -> sqrt (x * x + y * y) = Rabs x * sqrt (1 + (y / x)²).
Proof.
  intros Hx.
  assert (Hpos : 0 <= 1 + (y / x)²) by (pose proof (Rle_0_sqr (y / x)); lra).
  rewrite <- (sqrt_Rsqr_abs x), <- sqrt_mult by (try apply Rle_0_sqr; exact Hpos).
  f_equal. unfold Rsqr. field. exact Hx.
Qed.

(** [atan2] returns the polar angle of the point: with the norm it gives
    the point back. *)
Lemma Ratan2_cos_sin (x y : R) :
  sqrt (x * x + y * y) * cos (XReal.Ratan2 y x) = x
  /\ sqrt (x * x + y * y) * sin (XReal.Ratan2 y x) = y.
Proof.
  unfold XReal.Ratan2.
  destruct (Rlt_dec 0 x) as [Hpos | Hnpos].
  - assert (Hs : 0 < sqrt (1 + (y / x)²)).
    { apply sqrt_lt_R0. pose proof (Rle_0_sqr (y / x)). lra. }
    rewrite sqrt_sum_squares by lra. rewrite cos_atan, sin_atan.
    rewrite Rabs_pos_eq by lra. split; field; lra.
  - destruct (Rlt_dec x 0) as [Hneg | Hnneg].
    + assert (Hs : 0 < sqrt (1 + (y / x)²)).
      { apply sqrt_lt_R0. pose proof (Rle_0_sqr (y / x)). lra. }
      rewrite sqrt_sum_squares by lra. rewrite Rabs_left by lra.
      destruct (Rlt_dec y 0) as [Hy | Hy].
      * replace (atan (y / x) - PI) with (- (PI - atan (y / x))) by ring.
        rewrite cos_neg, sin_neg.
        replace (PI - atan (y / x)) with (- atan (y / x) + PI) by ring.
        rewrite neg_cos, neg_sin, cos_neg, sin_neg, cos_atan, sin_atan.
        split; field; lra.
      * rewrite neg_cos, neg_sin, cos_atan, sin_atan. split; field; lra.
    + assert (Hx : x = 0) by lra. subst x.
      replace (0 * 0 + y * y) with (y * y) by ring.
      destruct (Rlt_dec 0 y) as [Hy | Hy].
      * rewrite sqrt_square by lra. rewrite cos_PI2, sin_PI2. split; ring.
      * destruct (Rlt_dec y 0) as [Hy' | Hy'].
        -- replace (y * y) with (- y * - y) by ring. rewrite sqrt_square by lra.
           replace (- PI / 2) with (- (PI / 2)) by field.
           rewrite cos_neg, sin_neg, cos_PI2, sin_PI2. split; ring.
        -- assert (Hy0 : y = 0) by lra. subst y.
           replace (0 * 0) with 0 by ring. rewrite sqrt_0. split; ring.
Qed.

Lemma atan_pos (t : R) : 0 < t -> 0 < atan t.
Proof. intros Ht. rewrite <- atan_0. apply atan_increasing, Ht. Qed.

Lemma atan_nonpos (t : R) : t <= 0 -> atan t <= 0.
Proof.
  intros [Ht | ->]; [| rewrite atan_0; lra].
  left. rewrite <- atan_0. apply atan_increasing, Ht.
Qed.

(** The angle that [Ratan2] returns is in [(-PI, PI]]: having one zero,
    the model never returns [-PI], which [Math.atan2] returns for
    [y = -0] and [x < 0]. *)
Lemma Ratan2_range (x y : R) : - PI < XReal.Ratan2 y x <= PI.
Proof.
  unfold XReal.Ratan2. pose proof PI_RGT_0 as HPI.
  destruct (Rlt_dec 0 x) as [Hpos | Hnpos].
  - pose proof (atan_bound (y / x)). lra.
  - destruct (Rlt_dec x 0) as [Hneg | Hnneg].
    + pose proof (atan_bound (y / x)) as Hb.
      destruct (Rlt_dec y 0) as [Hy | Hy].
      * assert (0 < atan (y / x)); [| lra].
        apply atan_pos. replace (y / x) with (- y / - x) by (field; lra).
        apply Rdiv_lt_0_compat; lra.
      * assert (atan (y / x) <= 0); [| lra].
        apply atan_nonpos. replace (y / x) with (- (y / - x)) by (field; lra).
        assert (0 <= y / - x); [| lra].
        apply Rmult_le_pos; [lra | left; apply Rinv_0_lt_compat; lra].
    + destruct (Rlt_dec 0 y); [lra |]. destruct (Rlt_dec y 0); lra.
Qed.

End PolarCoordinates.

Section PolarRoundTrip.
Local Open Scope R_scope.

Lemma cart_to_polar_fin (x y : R) :
  cart_to_polar (fpoint x y)
  = Polar.mk (Fin (sqrt (x * x + y * y))) (Fin (XReal.Ratan2 y x)).
Proof.
  unfold cart_to_polar. js_unfold.
  rewrite xsqrt_fin by (apply Rplus_le_le_0_compat; apply Rle_0_sqr). reflexivity.
Qed.

(** X1: for every finite point, [cart_to_polar] returns a radius that is
    not negative and an angle between [-PI] and [PI], both included
    ([Math.atan2] returns [-PI] for a point of the negative x axis whose
    ordinate is the negative zero), and [polar_to_cart] (around the
    default centre, the origin) takes them back to the point. *)
Theorem polar_to_cart_of_cart_to_polar (x y : R) :
  let polar := cart_to_polar (fpoint x y) in
  (exists rho theta,
      polar = Polar.mk (Fin rho) (Fin theta)
      /\ 0 <= rho /\ - PI <= theta <= PI)
  /\ polar_to_cart polar.(Polar.r) polar.(Polar.theta) None = fpoint x y.
Proof.
  intros polar. subst polar. rewrite cart_to_polar_fin. split.
  - exists (sqrt (x * x + y * y)), (XReal.Ratan2 y x).
    split; [reflexivity |]. split; [apply sqrt_pos |].
    pose proof (Ratan2_range x y) as Hrange. lra.
  - unfold polar_to_cart. cbn [Polar.r Polar.theta]. js_unfold.
    destruct (Ratan2_cos_sin x y) as [Hc Hs]. rewrite Hc, Hs, Q2R_lit.
    apply fpoint_ext; lra.
Qed.

(** The point that [polar_to_cart] returns for a finite radius, angle
    and centre is at distance [|r|] from the centre. *)
Lemma polar_to_cart_distance (r theta cx cy : R) :
  euclid_dist (polar_to_cart (Fin r) (Fin theta) (Some (fpoint cx cy))) (fpoint cx cy)
  = Fin (Rabs r).
Proof.
  unfold polar_to_cart. js_unfold.
  change (Point.mk (Fin (cx + r * cos theta)) (Fin (cy + r * sin theta)))
    with (fpoint (cx + r * cos theta) (cy + r * sin theta)).
  rewrite euclid_dist_fin. f_equal. rewrite <- sqrt_Rsqr_abs. f_equal.
  unfold dist2, Rsqr. pose proof (sin2_cos2 theta) as H1. unfold Rsqr in H1.
  replace ((cx + r * cos theta - cx) * (cx + r * cos theta - cx)
           + (cy + r * sin theta - cy) * (cy + r * sin theta - cy))
    with (r * r * (sin theta * sin theta + cos theta * cos theta)) by ring.
  rewrite H1. ring.
Qed.

End PolarRoundTrip.

(** ** The Euclidean primitives *)

Section Metric.
Local Open Scope R_scope.

Lemma sqrt_triangle (a b c d : R) :
  sqrt ((a + c) * (a + c) + (b + d) * (b + d))
  <= sqrt (a * a + b * b) + sqrt (c * c + d * d).
Proof.
  assert (H1 : 0 <= a * a + b * b) by (apply Rplus_le_le_0_compat; apply Rle_0_sqr).
  assert (H2 : 0 <= c * c + d * d) by (apply Rplus_le_le_0_compat; apply Rle_0_sqr).
  pose proof (sqrt_pos (a * a + b * b)) as Hs1.
  pose proof (sqrt_pos (c * c + d * d)) as Hs2.
  pose proof (sqrt_sqrt _ H1) as Hq1. pose proof (sqrt_sqrt _ H2) as Hq2.
  set (s1 := sqrt (a * a + b * b)) in *. set (s2 := sqrt (c * c + d * d)) in *.
  rewrite <- (sqrt_square (s1 + s2)) by lra.
  apply sqrt_le_1.
  - apply Rplus_le_le_0_compat; apply Rle_0_sqr.
  - apply Rle_0_sqr.
  - assert (Hcs : a * c + b * d <= s1 * s2).
    { destruct (Rle_dec (a * c + b * d) 0) as [Hn | Hp].
      - pose proof (Rmult_le_pos _ _ Hs1 Hs2). lra.
      - apply Rsqr_incr_0_var; [| apply Rmult_le_pos; assumption].
        unfold Rsqr.
        replace (s1 * s2 * (s1 * s2)) with ((s1 * s1) * (s2 * s2)) by ring.
        rewrite Hq1, Hq2.
        pose proof (Rle_0_sqr (a * d - b * c)) as Hsq. unfold Rsqr in Hsq. lra. }
    replace ((s1 + s2) * (s1 + s2)) with (s1 * s1 + 2 * (s1 * s2) + s2 * s2) by ring.
    rewrite Hq1, Hq2. lra.
Qed.

(** X2: on finite points [euclid_dist] is a distance: it is finite and
    not negative, symmetric, zero exactly between a point and itself, and
    it satisfies the triangle inequality. *)
Theorem euclid_dist_metric (px py qx qy sx sy : R) :
  exists dpq dqs dps,
    euclid_dist (fpoint px py) (fpoint qx qy) = Fin dpq
    /\ euclid_dist (fpoint qx qy) (fpoint sx sy) = Fin dqs
    /\ euclid_dist (fpoint px py) (fpoint sx sy) = Fin dps
    /\ euclid_dist (fpoint qx qy) (fpoint px py) = Fin dpq
    /\ 0 <= dpq
    /\ (dpq = 0 <-> px = qx /\ py = qy)
    /\ dps <= dpq + dqs.
Proof.
  exists (sqrt (dist2 px py qx qy)), (sqrt (dist2 qx qy sx sy)),
         (sqrt (dist2 px py sx sy)).
  rewrite !euclid_dist_fin.
  split; [reflexivity |]. split; [reflexivity |]. split; [reflexivity |].
  split; [f_equal; f_equal; unfold dist2; ring |].
  split; [apply sqrt_pos |]. split; [split |].
  - intros H0. apply sqrt_eq_0 in H0; [| apply dist2_nonneg].
    apply dist2_zero in H0. exact H0.
  - intros [-> ->]. replace (dist2 qx qy qx qy) with 0 by (unfold dist2; ring).
    apply sqrt_0.
  - unfold dist2.
    replace (px - sx) with ((px - qx) + (qx - sx)) by ring.
    replace (py - sy) with ((py - qy) + (qy - sy)) by ring.
    apply sqrt_triangle.
Qed.

(** X3: the point that [find_midpoint] returns for two finite points is
    the same in either order, and it is at half their distance from each
    of them. *)
Theorem find_midpoint_halves (px py qx qy : R) :
  let M := find_midpoint (fpoint px py) (fpoint qx qy) in
  find_midpoint (fpoint qx qy) (fpoint px py) = M
  /\ exists d,
       euclid_dist (fpoint px py) (fpoint qx qy) = Fin d
       /\ euclid_dist (fpoint px py) M = Fin (d / 2)
       /\ euclid_dist (fpoint qx qy) M = Fin (d / 2).
Proof.
  intros M. subst M. rewrite !find_midpoint_fin. split.
  - apply fpoint_ext; lra.
  - exists (sqrt (dist2 px py qx qy)). rewrite !euclid_dist_fin.
    assert (Hhalf : forall u v, dist2 u v ((px + qx) / 2) ((py + qy) / 2)
                                = dist2 px py qx qy / 4 ->
                    sqrt (dist2 u v ((px + qx) / 2) ((py + qy) / 2))
                    = sqrt (dist2 px py qx qy) / 2).
    { intros u v ->. rewrite sqrt_div_alt by lra.
      replace 4 with (2 * 2) by ring. rewrite sqrt_square by lra. reflexivity. }
    repeat split; f_equal; apply Hhalf; unfold dist2; field.
Qed.

End Metric.

Section Lines.
Local Open Scope R_scope.

(** X4: the line that [euclid_line] returns for two finite points passes
    through both of them.  Its coefficients [a], [b] are not both zero
    unless the two points coincide, in which case all three coefficients
    are zero; and [b] is [1] when the points are more than [0.001] apart
    in [x]. *)
Theorem euclid_line_through (px py qx qy : R) :
  exists a b c,
    euclid_line (fpoint px py) (fpoint qx qy) = fline a b c
    /\ on_line a b c px py /\ on_line a b c qx qy
    /\ (px <> qx \/ py <> qy -> a <> 0 \/ b <> 0)
    /\ (px = qx /\ py = qy -> a = 0 /\ b = 0 /\ c = 0)
    /\ (1 / 1000 < Rabs (qx - px) -> b = 1).
Proof.
  destruct (Rlt_le_dec (1 / 1000) (Rabs (qx - px))) as [Hb | Hb].
  - assert (Hne : qx - px <> 0) by (intros E; rewrite E, Rabs_R0 in Hb; lra).
    exists ((py - qy) / (qx - px)), ((qx - px) / (qx - px)),
           ((px * qy - qx * py) / (qx - px)).
    split; [apply euclid_line_normalized, Hb |]. unfold on_line.
    split; [field; exact Hne |]. split; [field; exact Hne |].
    split; [| split].
    + intros _. right. unfold Rdiv. rewrite Rinv_r by exact Hne. lra.
    + intros [E _]. exfalso. apply Hne. lra.
    + intros _. field. exact Hne.
  - exists (py - qy), (qx - px), (px * qy - qx * py).
    split; [apply euclid_line_raw, Hb |]. unfold on_line.
    split; [ring |]. split; [ring |]. split; [| split].
    + intros [Hx | Hy]; [right | left]; lra.
    + intros [-> ->]. repeat split; ring.
    + intros Habs. lra.
Qed.

(** X5: the line that [poincare_geodesic] builds from [euclid_line],
    [find_midpoint] and [get_perpendicular_line] for two finite points is
    their perpendicular bisector: a point lies on it exactly when it is
    at the same distance from both. *)
Theorem perpendicular_bisector (px py qx qy : R) :
  exists a b c,
    get_perpendicular_line (euclid_line (fpoint px py) (fpoint qx qy))
                           (find_midpoint (fpoint px py) (fpoint qx qy))
    = fline a b c
    /\ forall X Y, on_line a b c X Y <-> dist2 X Y px py = dist2 X Y qx qy.
Proof.
  destruct (euclid_line_fin px py qx qy) as (k & Hk & ->).
  rewrite find_midpoint_fin, get_perpendicular_line_fin.
  eexists. eexists. eexists. split; [reflexivity |].
  intros X Y. unfold on_line, dist2. split.
  - intros Hon.
    assert (H2 : k * ((qx - px) * (X - (px + qx) / 2) + (qy - py) * (Y - (py + qy) / 2)) = 0)
      by (rewrite <- Hon; field).
    apply Rmult_integral in H2. destruct H2 as [H2 | H2]; [contradiction |]. lra.
  - intros Heq.
    replace (k * (qx - px) * X + - (k * (py - qy)) * Y
             + (- ((px + qx) / 2) * (k * (qx - px)) + (py + qy) / 2 * (k * (py - qy))))
      with (k * ((qx - px) * (X - (px + qx) / 2) + (qy - py) * (Y - (py + qy) / 2)))
      by field.
    apply Rmult_eq_0_compat_l. lra.
Qed.

(** X6: for two finite lines with a non-zero determinant,
    [find_intersection] returns a finite point that lies on both lines;
    it is the only such point, and the order of the two lines does not
    matter. *)
Theorem find_intersection_unique (a1 b1 c1 a2 b2 c2 : R) :
  determinant a1 b1 a2 b2 <> 0 ->
  exists X Y,
    find_intersection (fline a1 b1 c1) (fline a2 b2 c2) = fpoint X Y
    /\ find_intersection (fline a2 b2 c2) (fline a1 b1 c1) = fpoint X Y
    /\ on_line a1 b1 c1 X Y /\ on_line a2 b2 c2 X Y
    /\ forall X' Y', on_line a1 b1 c1 X' Y' -> on_line a2 b2 c2 X' Y' ->
                     X' = X /\ Y' = Y.
Proof.
  intros Hd.
  assert (Hd' : determinant a2 b2 a1 b1 <> 0) by (unfold determinant in *; lra).
  exists ((c1 * b2 - b1 * c2) / determinant a1 b1 a2 b2),
         ((a1 * c2 - c1 * a2) / determinant a1 b1 a2 b2).
  split; [apply find_intersection_fin, Hd |].
  split.
  { rewrite find_intersection_fin by exact Hd'.
    unfold determinant in *. apply fpoint_ext; field; lra. }
  unfold on_line, determinant in *.
  split; [field; exact Hd |]. split; [field; exact Hd |].
  intros X' Y' H1 H2. split.
  - apply Rmult_eq_reg_r with (b1 * a2 - a1 * b2); [| exact Hd].
    replace ((c1 * b2 - b1 * c2) / (b1 * a2 - a1 * b2) * (b1 * a2 - a1 * b2))
      with (c1 * b2 - b1 * c2) by (field; exact Hd).
    replace c1 with (- (a1 * X' + b1 * Y')) by lra.
    replace c2 with (- (a2 * X' + b2 * Y')) by lra. ring.
  - apply Rmult_eq_reg_r with (b1 * a2 - a1 * b2); [| exact Hd].
    replace ((a1 * c2 - c1 * a2) / (b1 * a2 - a1 * b2) * (b1 * a2 - a1 * b2))
      with (a1 * c2 - c1 * a2) by (field; exact Hd).
    replace c1 with (- (a1 * X' + b1 * Y')) by lra.
    replace c2 with (- (a2 * X' + b2 * Y')) by lra. ring.
Qed.

Lemma find_intersection_unique_witness :
  determinant 1 0 0 1 <> 0
  /\ exists X Y,
       find_intersection (fline 1 0 (-3)) (fline 0 1 (-4)) = fpoint X Y
       /\ on_line 1 0 (-3) X Y /\ on_line 0 1 (-4) X Y.
Proof.
  assert (Hd : determinant 1 0 0 1 <> 0) by (unfold determinant; lra).
  split; [exact Hd |].
  destruct (find_intersection_unique 1 0 (-3) 0 1 (-4) Hd) as (X & Y & H1 & _ & H2 & H3 & _).
  exists X, Y. repeat split; assumption.
Defined.

End Lines.

Section InversionMore.
Local Open Scope R_scope.

(** X7: inverting twice in a circle of non-zero radius gives back every
    finite point other than the centre. *)
Theorem circle_inversion_involutive (px py cx cy r : R) :
  px <> cx \/ py <> cy -> r <> 0 ->
  circle_inversion (circle_inversion (fpoint px py) (fcircle cx cy r)) (fcircle cx cy r)
  = fpoint px py.
Proof.
  intros Hne Hr.
  assert (Hd : dist2 px py cx cy <> 0).
  { intros E. apply dist2_zero in E. destruct E, Hne; contradiction. }
  rewrite circle_inversion_fin by exact Hd.
  set (D := dist2 px py cx cy) in *.
  assert (HD' : dist2 (r * r / D * (px - cx) + cx) (r * r / D * (py - cy) + cy) cx cy
                = (r * r) * (r * r) / D).
  { unfold dist2. fold (dist2 px py cx cy).
    replace ((r * r / D * (px - cx) + cx - cx) * (r * r / D * (px - cx) + cx - cx)
             + (r * r / D * (py - cy) + cy - cy) * (r * r / D * (py - cy) + cy - cy))
      with ((r * r / D) * (r * r / D) * dist2 px py cx cy) by (unfold dist2; ring).
    fold D. field. exact Hd. }
  assert (Hrr : r * r <> 0) by (apply Rmult_integral_contrapositive; tauto).
  rewrite circle_inversion_fin.
  - rewrite HD'. apply fpoint_ext; field; tauto.
  - rewrite HD'. unfold Rdiv. apply Rmult_integral_contrapositive. split.
    + apply Rmult_integral_contrapositive; tauto.
    + apply Rinv_neq_0_compat, Hd.
Qed.

Lemma circle_inversion_involutive_witness :
  (150 <> 100 \/ 120 <> 100) /\ 100 <> 0
  /\ circle_inversion (circle_inversion (fpoint 150 120) (fcircle 100 100 100))
                      (fcircle 100 100 100)
     = fpoint 150 120.
Proof.
  assert (Hne : 150 <> 100 \/ 120 <> 100) by (left; lra).
  assert (Hr : 100 <> 0) by lra.
  split; [exact Hne |]. split; [exact Hr |].
  exact (circle_inversion_involutive 150 120 100 100 100 Hne Hr).
Defined.

(** X8: inversion in a circle of non-zero radius exchanges the inside and
    the outside of the circle and fixes exactly the points of the circle:
    for a finite point other than the centre, the squared distances of
    the point and of its image from the centre multiply to [r^4]. *)
Theorem circle_inversion_exchanges (px py cx cy r : R) :
  px <> cx \/ py <> cy -> r <> 0 ->
  exists X Y,
    circle_inversion (fpoint px py) (fcircle cx cy r) = fpoint X Y
    /\ dist2 X Y cx cy * dist2 px py cx cy = (r * r) * (r * r)
    /\ (dist2 px py cx cy < r * r <-> r * r < dist2 X Y cx cy)
    /\ (dist2 px py cx cy = r * r <-> X = px /\ Y = py).
Proof.
  intros Hne Hr.
  assert (Hd : dist2 px py cx cy <> 0).
  { intros E. apply dist2_zero in E. destruct E, Hne; contradiction. }
  pose proof (dist2_nonneg px py cx cy) as Hd0.
  exists (r * r / dist2 px py cx cy * (px - cx) + cx),
         (r * r / dist2 px py cx cy * (py - cy) + cy).
  split; [apply circle_inversion_fin, Hd |].
  set (D := dist2 px py cx cy) in *.
  assert (HD' : dist2 (r * r / D * (px - cx) + cx) (r * r / D * (py - cy) + cy) cx cy
                = (r * r) * (r * r) / D).
  { unfold dist2.
    replace ((r * r / D * (px - cx) + cx - cx) * (r * r / D * (px - cx) + cx - cx)
             + (r * r / D * (py - cy) + cy - cy) * (r * r / D * (py - cy) + cy - cy))
      with ((r * r / D) * (r * r / D) * dist2 px py cx cy) by (unfold dist2; ring).
    fold D. field. exact Hd. }
  rewrite HD'.
  assert (HDpos : 0 < D) by lra.
  assert (Hrr : 0 < r * r) by (apply Rsqr_pos_lt, Hr).
  split; [field; exact Hd |]. split; [split | split].
  - intros Hlt. apply Rmult_lt_reg_r with D; [exact HDpos |].
    replace (r * r * (r * r) / D * D) with (r * r * (r * r)) by (field; exact Hd).
    apply Rmult_lt_compat_l; assumption.
  - intros Hlt. apply Rmult_lt_compat_r with (r := D) in Hlt; [| exact HDpos].
    replace (r * r * (r * r) / D * D) with (r * r * (r * r)) in Hlt by (field; exact Hd).
    apply Rmult_lt_reg_l with (r * r); assumption.
  - intros E. rewrite E. split; field; lra.
  - intros [HX HY].
    assert (Hk : (r * r / D - 1) * (px - cx) = 0) by lra.
    assert (Hk' : (r * r / D - 1) * (py - cy) = 0) by lra.
    assert (Hone : r * r / D - 1 = 0).
    { destruct Hne as [Hx | Hy].
      - apply Rmult_integral in Hk. destruct Hk; [assumption | lra].
      - apply Rmult_integral in Hk'. destruct Hk'; [assumption | lra]. }
    apply Rmult_eq_reg_r with (/ D); [| apply Rinv_neq_0_compat, Hd].
    rewrite Rinv_r by exact Hd. unfold Rdiv in Hone. lra.
Qed.

Lemma circle_inversion_exchanges_witness :
  (150 <> 100 \/ 100 <> 100) /\ 100 <> 0
  /\ exists X Y,
       circle_inversion (fpoint 150 100) (fcircle 100 100 100) = fpoint X Y
       /\ (dist2 150 100 100 100 < 100 * 100 <-> 100 * 100 < dist2 X Y 100 100).
Proof.
  assert (Hne : 150 <> 100 \/ 100 <> 100) by (left; lra).
  assert (Hr : 100 <> 0) by lra.
  split; [exact Hne |]. split; [exact Hr |].
  destruct (circle_inversion_exchanges 150 100 100 100 100 Hne Hr) as (X & Y & H1 & _ & H2 & _).
  exists X, Y. split; assumption.
Defined.

End InversionMore.

(** ** The circle of the geodesic *)

(** Computes the operations of [JSMath] on finite values. *)
Ltac js_math :=
  cbn [geb Math_min Math_max Math_PI xreal_math
       XRealMath.xgeb XRealMath.xmin XRealMath.xmax
       Polar.r Polar.theta] in *.

Section GeodesicCircle.
Local Open Scope R_scope.

(** The arc computed for a non-degenerate pair, field by field. *)
Lemma geodesic_arc_fin (px py qx qy left top right bottom cx cy r : R) :
  nondegenerate (px - left) (py - top) (qx - left) (qy - top) cx cy r ->
  exists X Y,
    poincare_geodesic (fpoint px py) (fpoint qx qy) (fdisk left top right bottom cx cy r)
    = Arc.mk (fpoint (px - left) (py - top)) (fpoint (qx - left) (qy - top)) (fpoint X Y)
        (Fin (XReal.Ratan2 (qy - top - Y) (qx - left - X)))
        (Fin (XReal.Ratan2 (py - top - Y) (px - left - X)))
        (Fin (sqrt (dist2 (px - left) (py - top) X Y)))
    /\ (px - left - cx) * (X - cx) + (py - top - cy) * (Y - cy)
       = (dist2 (px - left) (py - top) cx cy + r * r) / 2
    /\ (qx - left - cx) * (X - cx) + (qy - top - cy) * (Y - cy)
       = (dist2 (qx - left) (qy - top) cx cy + r * r) / 2.
Proof.
  intros Hnd. rewrite poincare_geodesic_fin. cbv zeta.
  destruct (geodesic_center_fin _ _ _ _ _ _ _ Hnd) as (X & Y & -> & Hp & Hq).
  exists X, Y. rewrite euclid_dist_fin. js_unfold.
  split; [reflexivity |]. split; assumption.
Qed.

(** The power of a point strictly inside the disk is negative: it is not
    the centre of the arc. *)
Lemma geodesic_radius_pos (px py cx cy r X Y : R) :
  dist2 px py cx cy < r * r ->
  (px - cx) * (X - cx) + (py - cy) * (Y - cy) = (dist2 px py cx cy + r * r) / 2 ->
  0 < dist2 px py X Y.
Proof.
  intros Hin Hdot. pose proof (dist2_nonneg px py X Y) as H0.
  destruct (Req_dec_T (dist2 px py X Y) 0) as [E | Hne]; [| lra].
  apply dist2_zero in E. destruct E as [-> ->]. unfold dist2 in *. lra.
Qed.



(** The angles stored in the arc are the polar angles of its endpoints
    around its centre. *)
Lemma polar_angle_point (X Y px py rho : R) :
  rho = sqrt (dist2 px py X Y) ->
  polar_to_cart (Fin rho) (Fin (XReal.Ratan2 (py - Y) (px - X))) (Some (fpoint X Y))
  = fpoint px py.
Proof.
  intros ->. unfold polar_to_cart, dist2. js_unfold.
  destruct (Ratan2_cos_sin (px - X) (py - Y)) as [Hc Hs]. rewrite Hc, Hs.
  apply fpoint_ext; ring.
Qed.



End GeodesicCircle.

(** ** The projection in closed form *)

Section ProjectionClosedForm.
Local Open Scope R_scope.

Lemma tanh_half_ln (w : R) : 0 < w -> tanh (ln w / 2) = (w - 1) / (w + 1).
Proof.
  intros Hw. rewrite tanh_quotient, exp_Ropp.
  assert (Hsq : exp (ln w / 2) * exp (ln w / 2) = w).
  { rewrite <- exp_plus. replace (ln w / 2 + ln w / 2) with (ln w) by field.
    apply exp_ln, Hw. }
  pose proof (exp_pos (ln w / 2)) as Ha.
  set (a := exp (ln w / 2)) in *. clearbody a. subst w.
  field. split; nra.
Qed.

Lemma tanh_Ratanh (u : R) : -1 < u < 1 -> tanh (XReal.Ratanh u) = u.
Proof.
  intros Hu. unfold XReal.Ratanh.
  assert (Hw : 0 < (1 + u) / (1 - u)) by (apply Rdiv_lt_0_compat; lra).
  rewrite tanh_half_ln by exact Hw. field. split; lra.
Qed.

Lemma sqrt_eq_of_square (a b : R) : 0 <= b -> a = b * b -> sqrt a = b.
Proof. intros Hb ->. apply sqrt_square, Hb. Qed.

(** [tanh (acosh (n^2 / 2 + 1) / 2)] is [n / sqrt (n^2 + 4)]. *)
Lemma tanh_half_Racosh (n : R) :
  0 <= n -> tanh (XReal.Racosh (1 / 2 * n * n + 1) / 2) = n / sqrt (n * n + 4).
Proof.
  intros Hn. unfold XReal.Racosh.
  assert (Hq2 : 0 < n * n + 4) by nra.
  pose proof (sqrt_lt_R0 _ Hq2) as Hq. pose proof (sqrt_sqrt (n * n + 4)) as Hqq.
  set (q := sqrt (n * n + 4)) in *.
  assert (Hqq' : q * q = n * n + 4) by (apply Hqq; lra).
  assert (Hs : sqrt ((1 / 2 * n * n + 1) * (1 / 2 * n * n + 1) - 1) = n * q / 2).
  { apply sqrt_eq_of_square; [nra |].
    replace (n * q / 2 * (n * q / 2)) with (n * n * (q * q) / 4) by field.
    rewrite Hqq'. field. }
  rewrite Hs. rewrite tanh_half_ln by nra.
  assert (Hnq : 0 < n + q) by lra.
  replace (1 / 2 * n * n + 1 + n * q / 2 + 1) with ((q * q + n * q) / 2)
    by (rewrite Hqq'; field).
  field. split; [lra |]. nra.
Qed.

Lemma real_poincareR_closed (dx dy : R) :
  real_poincareR dx dy
  = sqrt (dx * dx + dy * dy) / sqrt (dx * dx + dy * dy + 4).
Proof.
  unfold real_poincareR. cbv zeta.
  rewrite tanh_half_Racosh by apply sqrt_pos.
  rewrite sqrt_sqrt by (apply Rplus_le_le_0_compat; apply Rle_0_sqr). reflexivity.
Qed.

(** [n / sqrt (n + 4)] as a function of the square [n] of the distance. *)
Lemma closed_form_increasing (a b : R) :
  0 <= a -> a < b -> sqrt a / sqrt (a + 4) < sqrt b / sqrt (b + 4).
Proof.
  intros Ha Hab.
  assert (Hqa : 0 < sqrt (a + 4)) by (apply sqrt_lt_R0; lra).
  assert (Hqb : 0 < sqrt (b + 4)) by (apply sqrt_lt_R0; lra).
  apply Rmult_lt_reg_r with (sqrt (a + 4) * sqrt (b + 4));
    [apply Rmult_lt_0_compat; assumption |].
  replace (sqrt a / sqrt (a + 4) * (sqrt (a + 4) * sqrt (b + 4)))
    with (sqrt a * sqrt (b + 4)) by (field; lra).
  replace (sqrt b / sqrt (b + 4) * (sqrt (a + 4) * sqrt (b + 4)))
    with (sqrt b * sqrt (a + 4)) by (field; lra).
  rewrite <- !sqrt_mult by lra.
  apply sqrt_lt_1; nra.
Qed.

Lemma scaled_offsets (x y centerX centerY : R) :
  5 / 1000 * (x - centerX) * (5 / 1000 * (x - centerX))
  + 5 / 1000 * (y - centerY) * (5 / 1000 * (y - centerY))
  = dist2 x y centerX centerY / 40000.
Proof. unfold dist2. field. Qed.

(** X11: for a finite layout point at distance [d] from a finite
    reference centre, the Poincare radius that the projection computes is
    [d / sqrt (d^2 + 400^2)]. *)
Theorem projection_poincareR_closed_form (x y centerX centerY : R) :
  let d := sqrt (dist2 x y centerX centerY) in
  projection_poincareR (fnode x y) (Fin centerX) (Fin centerY)
  = Fin (d / sqrt (d * d + 400 * 400)).
Proof.
  intros d. subst d. rewrite projection_poincareR_fin, real_poincareR_closed.
  rewrite scaled_offsets. pose proof (dist2_nonneg x y centerX centerY) as HD.
  set (D := dist2 x y centerX centerY) in *. rewrite sqrt_sqrt by exact HD.
  f_equal.
  replace (D / 40000) with (D / (200 * 200)) by field.
  replace (D / (200 * 200) + 4) with ((D + 400 * 400) / (200 * 200)) by field.
  rewrite !sqrt_div_alt by lra. rewrite sqrt_square by lra.
  assert (Hq : 0 < sqrt (D + 400 * 400)) by (apply sqrt_lt_R0; lra).
  field. lra.
Qed.

End ProjectionClosedForm.

(** ** Where the projection puts a node *)

Section ProjectionPosition.
Local Open Scope R_scope.

Lemma projection_theta_value (x y centerX centerY : R) :
  projection_theta (fnode x y) (Fin centerX) (Fin centerY)
  = Fin (XReal.Ratan2 (5 / 1000 * (x - centerX)) (5 / 1000 * (y - centerY))).
Proof. unfold projection_theta. js_unfold. rewrite !Q2R_lit. reflexivity. Qed.

(** The centre that [to_poincare] computes from finite inputs. *)
Lemma to_poincare_center_fin
    (x y centerX centerY left top right bottom cx cy r : R) (inPlace : bool) :
  let dx := 5 / 1000 * (x - centerX) in
  let dy := 5 / 1000 * (y - centerY) in
  (snd (to_poincare (fnode x y) (Fin centerX) (Fin centerY)
                    (fdisk left top right bottom cx cy r) inPlace)).(Projected.center)
  = fpoint (r + r * (real_poincareR dx dy * sin (XReal.Ratan2 dx dy)))
           (r + r * (real_poincareR dx dy * cos (XReal.Ratan2 dx dy))).
Proof.
  intros dx dy. rewrite to_poincare_center. cbv zeta.
  rewrite projection_poincareR_fin, projection_theta_value. reflexivity.
Qed.

(** The offsets that the projection adds to [(r, r)], without the
    trigonometric functions. *)
Lemma polar_offset_closed (r x y centerX centerY : R) :
  let dx := 5 / 1000 * (x - centerX) in
  let dy := 5 / 1000 * (y - centerY) in
  let scale := r / sqrt (dist2 x y centerX centerY + 400 * 400) in
  r * (real_poincareR dx dy * sin (XReal.Ratan2 dx dy)) = scale * (x - centerX)
  /\ r * (real_poincareR dx dy * cos (XReal.Ratan2 dx dy)) = scale * (y - centerY).
Proof.
  intros dx dy scale. subst scale.
  rewrite real_poincareR_closed.
  destruct (Ratan2_cos_sin dy dx) as [Hc Hs].
  replace (dy * dy + dx * dx) with (dx * dx + dy * dy) in Hc, Hs by ring.
  assert (Hoff : dx * dx + dy * dy = dist2 x y centerX centerY / 40000)
    by apply scaled_offsets.
  rewrite Hoff in *.
  pose proof (dist2_nonneg x y centerX centerY) as HD.
  set (D := dist2 x y centerX centerY) in *.
  assert (Hq : sqrt (D / 40000 + 4) = sqrt (D + 400 * 400) / 200).
  { replace (D / 40000 + 4) with ((D + 400 * 400) / (200 * 200)) by field.
    rewrite sqrt_div_alt by lra. rewrite sqrt_square by lra. reflexivity. }
  assert (Hq0 : 0 < sqrt (D + 400 * 400)) by (apply sqrt_lt_R0; lra).
  rewrite Hq. set (q := sqrt (D + 400 * 400)) in *.
  set (n := sqrt (D / 40000)) in *. set (theta := XReal.Ratan2 dx dy) in *.
  split.
  - replace (r * (n / (q / 200) * sin theta))
      with (r * 200 / q * (n * sin theta)) by (field; lra).
    rewrite Hs. subst dx. field. lra.
  - replace (r * (n / (q / 200) * cos theta))
      with (r * 200 / q * (n * cos theta)) by (field; lra).
    rewrite Hc. subst dy. field. lra.
Qed.

(** The factor is positive and makes offsets shorter than [r]. *)
Lemma scale_bounds (r D : R) :
  0 < r -> 0 <= D ->
  let scale := r / sqrt (D + 400 * 400) in
  0 < scale /\ scale * scale * D < r * r.
Proof.
  intros Hr HD scale. subst scale.
  assert (Hq0 : 0 < sqrt (D + 400 * 400)) by (apply sqrt_lt_R0; lra).
  assert (Hqq : sqrt (D + 400 * 400) * sqrt (D + 400 * 400) = D + 400 * 400)
    by (apply sqrt_sqrt; lra).
  set (q := sqrt (D + 400 * 400)) in *.
  split; [apply Rdiv_lt_0_compat; assumption |].
  replace (r / q * (r / q) * D) with (r * r * (D / (q * q))) by (field; lra).
  rewrite Hqq.
  assert (Hfrac : D / (D + 400 * 400) < 1).
  { apply Rmult_lt_reg_r with (D + 400 * 400); [lra |].
    replace (D / (D + 400 * 400) * (D + 400 * 400)) with D by (field; lra). lra. }
  assert (0 < r * r) by nra. nra.
Qed.

(** X14: the projection keeps directions.  For finite inputs the centre
    that [to_poincare] computes, and writes into the node when [inPlace]
    holds, is the point [(r, r)] moved by the offset of the layout point
    from the reference centre, scaled by [r / sqrt (d^2 + 400^2)], where
    [d] is the length of that offset. *)
Theorem to_poincare_center_closed_form
    (x y centerX centerY left top right bottom cx cy r : R) (inPlace : bool) :
  let res := to_poincare (fnode x y) (Fin centerX) (Fin centerY)
                         (fdisk left top right bottom cx cy r) inPlace in
  let scale := r / sqrt (dist2 x y centerX centerY + 400 * 400) in
  let center := fpoint (r + scale * (x - centerX)) (r + scale * (y - centerY)) in
  (snd res).(Projected.center) = center
  /\ (fst res).(NodeObject.center) = if inPlace then Some center else None.
Proof.
  intros res scale center. subst res scale center.
  destruct (polar_offset_closed r x y centerX centerY) as [Hx Hy]. cbv zeta in Hx, Hy.
  assert (Hc : (snd (to_poincare (fnode x y) (Fin centerX) (Fin centerY)
                       (fdisk left top right bottom cx cy r) inPlace)).(Projected.center)
               = fpoint (r + r / sqrt (dist2 x y centerX centerY + 400 * 400) * (x - centerX))
                        (r + r / sqrt (dist2 x y centerX centerY + 400 * 400) * (y - centerY))).
  { rewrite to_poincare_center_fin. cbv zeta. apply fpoint_ext; f_equal; assumption. }
  split; [exact Hc |].
  destruct inPlace.
  - rewrite <- Hc. reflexivity.
  - reflexivity.
Qed.

End ProjectionPosition.

(** ** The projection when [Math.tanh] rounds

    Far from the reference centre the Poincare radius is so close to [1]
    that binary64 has no number for it below [1].  The properties of this
    section are stated at [xreal_saturating], where [Math.tanh] returns
    [1] for such a value. *)

Ltac js_unfold_rounded :=
  repeat progress (cbn [add sub mul div neg gtb lit Math_abs Math_sqrt Math_pow Math_hypot
       Math_atan2 Math_sin Math_cos Math_tanh Math_acosh Math_atanh
       xreal_saturating
       XReal.xadd XReal.xneg XReal.xmul XReal.xabs
       XReal.xhypot XReal.xsin XReal.xcos XRealRounded.xtanh
       Point.x Point.y
       BoundBox.left BoundBox.top BoundBox.right BoundBox.bottom
       PoinDisk.boundbox PoinDisk.cx PoinDisk.cy PoinDisk.r
       NodeObject.x NodeObject.y NodeObject.center NodeObject.circle
       Projected.center Projected.circle
       fpoint fdisk fnode fst snd] in *;
  rewrite ?xsub_fin, ?xpow2_fin in *).

Section Saturation.
Local Open Scope R_scope.
Import XRealRounded.

Lemma half_ulp_value : half_ulp = / 18014398509481984.
Proof. unfold half_ulp. f_equal. simpl. lra. Qed.

Lemma half_ulp_bounds : 0 < half_ulp < 1 / 2.
Proof. rewrite half_ulp_value. lra. Qed.

Lemma saturate_id (v : R) :
  - (1 - half_ulp) < v < 1 - half_ulp -> saturate v = v.
Proof.
  intros Hv. unfold saturate.
  destruct (Rle_dec (1 - half_ulp) v); [lra |].
  destruct (Rle_dec v (- (1 - half_ulp))); [lra | reflexivity].
Qed.

Lemma saturate_one (v : R) : 1 - half_ulp <= v -> saturate v = 1.
Proof.
  intros Hv. unfold saturate.
  destruct (Rle_dec (1 - half_ulp) v); [reflexivity | lra].
Qed.

(** Rounding keeps the order, and keeps the values between [0] and [1]
    there. *)
Lemma saturate_increasing (u v : R) : u <= v -> saturate u <= saturate v.
Proof.
  intros Huv. pose proof half_ulp_bounds as He. unfold saturate.
  destruct (Rle_dec (1 - half_ulp) u); destruct (Rle_dec (1 - half_ulp) v);
    destruct (Rle_dec u (- (1 - half_ulp))); destruct (Rle_dec v (- (1 - half_ulp)));
    lra.
Qed.

Lemma saturate_unit (v : R) : 0 <= v -> 0 <= saturate v <= 1.
Proof.
  intros Hv. pose proof half_ulp_bounds as He. unfold saturate.
  destruct (Rle_dec (1 - half_ulp) v); [lra |].
  destruct (Rle_dec v (- (1 - half_ulp))); lra.
Qed.

(** [poincareR] and the centre at [xreal_saturating]: the values of the
    exact instance, with the hyperbolic tangent rounded. *)
Lemma projection_poincareR_rounded (x y centerX centerY : R) :
  @projection_poincareR xreal xreal_saturating (fnode x y) (Fin centerX) (Fin centerY)
  = Fin (saturate (real_poincareR (5 / 1000 * (x - centerX)) (5 / 1000 * (y - centerY)))).
Proof.
  unfold projection_poincareR, real_poincareR. js_unfold_rounded. rewrite !Q2R_lit.
  match goal with
  | |- context [XReal.xacosh (Fin (_ * ?c * ?c + ?one))] =>
    assert (Hc : 0 <= c * c) by apply Rle_0_sqr;
    assert (H1 : one = 1) by lra
  end.
  rewrite xacosh_fin by lra. rewrite xdiv_fin by lra. cbn [xtanh].
  f_equal. f_equal. f_equal. f_equal; [| lra]. f_equal. lra.
Qed.

Lemma to_poincare_center_rounded
    (x y centerX centerY left top right bottom cx cy r : R) (inPlace : bool) :
  let dx := 5 / 1000 * (x - centerX) in
  let dy := 5 / 1000 * (y - centerY) in
  (snd (@to_poincare xreal xreal_saturating (fnode x y) (Fin centerX) (Fin centerY)
          (fdisk left top right bottom cx cy r) inPlace)).(Projected.center)
  = fpoint (r + r * (saturate (real_poincareR dx dy) * sin (XReal.Ratan2 dx dy)))
           (r + r * (saturate (real_poincareR dx dy) * cos (XReal.Ratan2 dx dy))).
Proof.
  intros dx dy. rewrite (@to_poincare_center xreal xreal_saturating). cbv zeta.
  rewrite projection_poincareR_rounded.
  change (@projection_theta xreal xreal_saturating)
    with (@projection_theta xreal xreal_number).
  rewrite projection_theta_value. reflexivity.
Qed.

(** The point [(r + r v sin t, r + r v cos t)] is at distance [r v] from
    [(r, r)]. *)
Lemma polar_offset_dist2 (r v t : R) :
  dist2 (r + r * (v * sin t)) (r + r * (v * cos t)) r r = (r * v) * (r * v).
Proof.
  unfold dist2. pose proof (sin2_cos2 t) as Hsc. unfold Rsqr in Hsc.
  replace ((r + r * (v * sin t) - r) * (r + r * (v * sin t) - r)
           + (r + r * (v * cos t) - r) * (r + r * (v * cos t) - r))
    with (r * v * (r * v) * (sin t * sin t + cos t * cos t)) by ring.
  rewrite Hsc. ring.
Qed.

(** Up to a distance of [1e9] the radius stays clear of the numbers that
    round to [1]; from a distance of [1e11] on it is one of them. *)
Lemma real_poincareR_near (x y centerX centerY : R) :
  dist2 x y centerX centerY <= 1000000000 * 1000000000 ->
  real_poincareR (5 / 1000 * (x - centerX)) (5 / 1000 * (y - centerY)) < 1 - half_ulp.
Proof.
  intros Hnear. rewrite real_poincareR_closed, scaled_offsets.
  pose proof (dist2_nonneg x y centerX centerY) as HD.
  set (D := dist2 x y centerX centerY) in *. clearbody D.
  pose proof half_ulp_bounds as He.
  assert (Hq : 0 < sqrt (D / 40000 + 4)) by (apply sqrt_lt_R0; lra).
  apply Rmult_lt_reg_r with (sqrt (D / 40000 + 4)); [exact Hq |].
  replace (sqrt (D / 40000) / sqrt (D / 40000 + 4) * sqrt (D / 40000 + 4))
    with (sqrt (D / 40000)) by (field; lra).
  rewrite <- (sqrt_square (1 - half_ulp)) by lra.
  rewrite <- sqrt_mult by (try lra; nra).
  apply sqrt_lt_1; [lra | nra |].
  rewrite half_ulp_value. lra.
Qed.

Lemma real_poincareR_far (x y centerX centerY : R) :
  100000000000 * 100000000000 <= dist2 x y centerX centerY ->
  1 - half_ulp <= real_poincareR (5 / 1000 * (x - centerX)) (5 / 1000 * (y - centerY)).
Proof.
  intros Hfar. rewrite real_poincareR_closed, scaled_offsets.
  set (D := dist2 x y centerX centerY) in *. clearbody D.
  pose proof half_ulp_bounds as He.
  assert (Hq : 0 < sqrt (D / 40000 + 4)) by (apply sqrt_lt_R0; lra).
  apply Rmult_le_reg_r with (sqrt (D / 40000 + 4)); [exact Hq |].
  replace (sqrt (D / 40000) / sqrt (D / 40000 + 4) * sqrt (D / 40000 + 4))
    with (sqrt (D / 40000)) by (field; lra).
  rewrite <- (sqrt_square (1 - half_ulp)) at 1 by lra.
  rewrite <- sqrt_mult by (try lra; nra).
  apply sqrt_le_1; [nra | lra |].
  rewrite half_ulp_value. lra.
Qed.

Lemma saturate_far (x y centerX centerY : R) :
  100000000000 * 100000000000 <= dist2 x y centerX centerY ->
  saturate (real_poincareR (5 / 1000 * (x - centerX)) (5 / 1000 * (y - centerY))) = 1.
Proof. intros Hfar. apply saturate_one, real_poincareR_far, Hfar. Qed.

(** C9, as the code has it: for a layout point at most [1e9] away from
    the reference centre, the Poincare radius [poincareR] that
    [to_poincare] computes is a finite number in [[0, 1)], and the centre
    it returns is strictly less than [|r|] away from the point [(r, r)],
    the centre of the disk on a square canvas. *)
Theorem projection_poincareR_bounded
    (x y centerX centerY left top right bottom cx cy r : R) (inPlace : bool) :
  dist2 x y centerX centerY <= 1000000000 * 1000000000 ->
  exists v X Y,
    @projection_poincareR xreal xreal_saturating (fnode x y) (Fin centerX) (Fin centerY)
    = Fin v
    /\ 0 <= v < 1
    /\ (snd (@to_poincare xreal xreal_saturating (fnode x y) (Fin centerX) (Fin centerY)
               (fdisk left top right bottom cx cy r) inPlace)).(Projected.center)
       = fpoint X Y
    /\ dist2 X Y r r = (r * v) * (r * v)
    /\ (r <> 0 -> dist2 X Y r r < r * r).
Proof.
  intros Hnear. rewrite to_poincare_center_rounded, projection_poincareR_rounded.
  cbv zeta.
  pose proof (real_poincareR_near _ _ _ _ Hnear) as Hlt.
  pose proof (real_poincareR_bounds (5 / 1000 * (x - centerX)) (5 / 1000 * (y - centerY)))
    as Hb.
  pose proof half_ulp_bounds as He.
  rewrite saturate_id by lra.
  set (rho := real_poincareR (5 / 1000 * (x - centerX)) (5 / 1000 * (y - centerY))) in *.
  exists rho. eexists. eexists.
  split; [reflexivity |]. split; [exact Hb |]. split; [reflexivity |].
  rewrite polar_offset_dist2. split; [reflexivity |].
  intros Hr. assert (Hrr : 0 < r * r) by nra.
  assert (Hvv : rho * rho < 1) by nra.
  replace (r * rho * (r * rho)) with (r * r * (rho * rho)) by ring.
  rewrite <- (Rmult_1_r (r * r)) at 2. apply Rmult_lt_compat_l; assumption.
Qed.

Lemma projection_poincareR_bounded_witness :
  dist2 30 40 0 0 <= 1000000000 * 1000000000
  /\ exists v X Y,
       @projection_poincareR xreal xreal_saturating (fnode 30 40) (Fin 0) (Fin 0) = Fin v
       /\ 0 <= v < 1
       /\ (snd (@to_poincare xreal xreal_saturating (fnode 30 40) (Fin 0) (Fin 0)
                  (fdisk 0 0 200 200 100 100 100) true)).(Projected.center)
          = fpoint X Y
       /\ dist2 X Y 100 100 < 100 * 100.
Proof.
  assert (Hnear : dist2 30 40 0 0 <= 1000000000 * 1000000000) by (unfold dist2; lra).
  split; [exact Hnear |].
  destruct (projection_poincareR_bounded 30 40 0 0 0 0 200 200 100 100 100 true Hnear)
    as (v & X & Y & H1 & H2 & H3 & _ & H4).
  exists v, X, Y. repeat split; try assumption; try apply H2. apply H4. lra.
Defined.

(** C9 fails as it is stated: for the layout point [(1e12, 0)] and the
    reference centre [(0, 0)] the hyperbolic tangent is rounded to [1],
    [poincareR] is [1], not a number below [1], and on the canvas of
    [200] by [200] the centre returned is [(200, 100)], a point of the
    boundary of the disk. *)
Lemma projection_poincareR_saturates :
  @projection_poincareR xreal xreal_saturating (fnode 1000000000000 0) (Fin 0) (Fin 0)
  = Fin 1
  /\ ~ (exists v,
         @projection_poincareR xreal xreal_saturating (fnode 1000000000000 0) (Fin 0) (Fin 0)
         = Fin v /\ 0 <= v < 1)
  /\ (snd (@to_poincare xreal xreal_saturating (fnode 1000000000000 0) (Fin 0) (Fin 0)
             (fdisk 0 0 200 200 100 100 100) true)).(Projected.center)
     = fpoint 200 100
  /\ dist2 200 100 100 100 = 100 * 100.
Proof.
  assert (Hfar : 100000000000 * 100000000000 <= dist2 1000000000000 0 0 0)
    by (unfold dist2; lra).
  pose proof (real_poincareR_far _ _ _ _ Hfar) as Hsat. apply saturate_one in Hsat.
  assert (HR : @projection_poincareR xreal xreal_saturating
                 (fnode 1000000000000 0) (Fin 0) (Fin 0) = Fin 1).
  { rewrite projection_poincareR_rounded, Hsat. reflexivity. }
  split; [exact HR |]. split; [| split].
  - intros (v & Hv & Hb). rewrite HR in Hv. injection Hv as <-. lra.
  - rewrite to_poincare_center_rounded. cbv zeta. rewrite Hsat.
    assert (Ht : XReal.Ratan2 (5 / 1000 * (1000000000000 - 0)) (5 / 1000 * (0 - 0))
                 = PI / 2).
    { unfold XReal.Ratan2.
      destruct (Rlt_dec 0 (5 / 1000 * (0 - 0))) as [Habs | _]; [lra |].
      destruct (Rlt_dec (5 / 1000 * (0 - 0)) 0) as [Habs | _]; [lra |].
      destruct (Rlt_dec 0 (5 / 1000 * (1000000000000 - 0))) as [_ | Habs]; [| lra].
      reflexivity. }
    rewrite Ht, sin_PI2, cos_PI2. apply fpoint_ext; lra.
  - unfold dist2. lra.
Qed.

(** X12: the projection keeps the order of the distances, but not
    strictly.  Of two finite layout points, the one that is not farther
    from the reference centre gets a Poincare radius that is not larger,
    and two points equally far from the centre get the same radius; two
    points that are both at least [1e11] away get the radius [1], however
    different their distances. *)
Theorem projection_poincareR_monotone (x1 y1 x2 y2 centerX centerY : R) :
  exists v1 v2,
    @projection_poincareR xreal xreal_saturating (fnode x1 y1) (Fin centerX) (Fin centerY)
    = Fin v1
    /\ @projection_poincareR xreal xreal_saturating (fnode x2 y2) (Fin centerX) (Fin centerY)
       = Fin v2
    /\ (dist2 x1 y1 centerX centerY <= dist2 x2 y2 centerX centerY -> v1 <= v2)
    /\ (dist2 x1 y1 centerX centerY = dist2 x2 y2 centerX centerY -> v1 = v2)
    /\ (100000000000 * 100000000000 <= dist2 x1 y1 centerX centerY ->
        100000000000 * 100000000000 <= dist2 x2 y2 centerX centerY ->
        v1 = 1 /\ v2 = 1).
Proof.
  rewrite !projection_poincareR_rounded.
  eexists. eexists. split; [reflexivity |]. split; [reflexivity |].
  assert (Hle : forall a b c d, dist2 a b centerX centerY <= dist2 c d centerX centerY ->
            saturate (real_poincareR (5 / 1000 * (a - centerX)) (5 / 1000 * (b - centerY)))
            <= saturate (real_poincareR (5 / 1000 * (c - centerX)) (5 / 1000 * (d - centerY)))).
  { intros a b c d Hab. apply saturate_increasing.
    rewrite !real_poincareR_closed, !scaled_offsets.
    pose proof (dist2_nonneg a b centerX centerY) as H1.
    destruct Hab as [Hlt | ->]; [| lra].
    left. apply closed_form_increasing; lra. }
  split; [apply Hle |]. split.
  - intros Heq. apply Rle_antisym; apply Hle; lra.
  - intros Hf1 Hf2. split; apply saturate_one, real_poincareR_far; assumption.
Qed.



End Saturation.

(** ** The marker inside the disk *)

Section MarkerInside.
Local Open Scope R_scope.

Lemma poincare_circle_fin (x y rad left top right bottom cx cy r : R) :
  sqrt (x * x + y * y) < 1 ->
  let n := sqrt (x * x + y * y) in
  let theta := XReal.Ratan2 y x in
  let de1 := tanh ((2 * XReal.Ratanh n - rad) / 2) in
  let de2 := tanh ((2 * XReal.Ratanh n + rad) / 2) in
  poincare_circle (fpoint x y) (Fin rad) (fdisk left top right bottom cx cy r)
  = Circle.mk (Fin ((de2 + de1) / 2 * cos theta * r + cx))
              (Fin (- ((de2 + de1) / 2 * sin theta) * r + cy))
              (Fin ((de2 - de1) / 2 * r))
              (Fin ((de2 + de1) / 2 * cos theta))
              (Fin ((de2 + de1) / 2 * sin theta))
              (fpoint ((de2 + de1) / 2 * cos theta) ((de2 + de1) / 2 * sin theta))
              (fpoint (x * r + cx) (- y * r + cy)).
Proof.
  intros Hn n theta de1 de2.
  unfold poincare_circle, hyper_radius_from_euclidean, r_poincare_to_euclid, disk_to_canvas.
  js_unfold. rewrite xsqrt_fin by (apply Rplus_le_le_0_compat; apply Rle_0_sqr).
  pose proof (sqrt_pos (x * x + y * y)) as Hs.
  rewrite xatanh_fin by lra. rewrite !Q2R_lit. js_unfold.
  rewrite !xdiv_fin by lra. cbn [XReal.xatan2]. js_unfold.
  rewrite !xdiv_fin by lra. js_unfold.
  subst n theta de1 de2. replace (2 / 1) with 2 by lra. reflexivity.
Qed.



End MarkerInside.

(** ** Canvas and disk coordinates *)

Section Coordinates.
Local Open Scope R_scope.

(** X16: for a finite bounding box with [left < right] and [top < bottom],
    [canvas_to_disk] maps the box onto the square [[-1, 1] x [-1, 1]]: a
    canvas point is within the box in [x] (in [y]) exactly when its image
    is within [[-1, 1]] in [x] (in [y]); the left edge goes to [x = -1]
    and the top edge to [y = 1], the vertical axis being flipped.  The
    centre and the radius of the disk play no part. *)
Theorem canvas_to_disk_box (px py left top right bottom cx cy r : R) :
  left < right -> top < bottom ->
  exists X Y,
    canvas_to_disk (fpoint px py) (fdisk left top right bottom cx cy r) = fpoint X Y
    /\ (left <= px <= right <-> -1 <= X <= 1)
    /\ (top <= py <= bottom <-> -1 <= Y <= 1)
    /\ (px = left <-> X = -1) /\ (px = right <-> X = 1)
    /\ (py = top <-> Y = 1) /\ (py = bottom <-> Y = -1).
Proof.
  intros Hw Hh. rewrite canvas_to_disk_fin by lra.
  eexists. eexists. split; [reflexivity |].
  assert (Hx : px - left = (px - left) / (right - left) * (right - left)) by (field; lra).
  assert (Hy : py - top = (py - top) / (bottom - top) * (bottom - top)) by (field; lra).
  set (u := (px - left) / (right - left)) in *.
  set (v := (py - top) / (bottom - top)) in *.
  repeat split; intros; nra.
Qed.

Lemma canvas_to_disk_box_witness :
  0 < 200 /\ 0 < 100
  /\ exists X Y,
       canvas_to_disk (fpoint 50 25) (fdisk 0 0 200 100 100 50 50) = fpoint X Y
       /\ (0 <= 50 <= 200 <-> -1 <= X <= 1).
Proof.
  assert (Hw : 0 < 200) by lra. assert (Hh : 0 < 100) by lra.
  split; [exact Hw |]. split; [exact Hh |].
  destruct (canvas_to_disk_box 50 25 0 0 200 100 100 50 50 Hw Hh)
    as (X & Y & H1 & H2 & _).
  exists X, Y. split; assumption.
Defined.

(** X17: when the bounding box is a square of side [2 r] with [r] not
    zero, and [(cx, cy)] is the centre of that square, going from disk
    coordinates to the canvas and back returns the point itself. *)
Theorem disk_round_trip_square (x y left top right bottom cx cy r : R) :
  r <> 0 -> right - left = 2 * r -> bottom - top = 2 * r ->
  cx = left + r -> cy = top + r ->
  let d := fdisk left top right bottom cx cy r in
  canvas_to_disk (disk_to_canvas (fpoint x y) d) d = fpoint x y.
Proof.
  intros Hr Hw Hh -> -> d. subst d.
  rewrite disk_to_canvas_fin, canvas_to_disk_fin by lra.
  rewrite Hw, Hh. apply fpoint_ext; field; exact Hr.
Qed.

Lemma disk_round_trip_square_witness :
  100 <> 0 /\ 200 - 0 = 2 * 100 /\ 100 = 0 + 100
  /\ canvas_to_disk (disk_to_canvas (fpoint (1 / 2) (1 / 4)) (fdisk 0 0 200 200 100 100 100))
                    (fdisk 0 0 200 200 100 100 100)
     = fpoint (1 / 2) (1 / 4).
Proof.
  assert (H1 : 100 <> 0) by lra.
  assert (H2 : 200 - 0 = 2 * 100) by lra.
  assert (H3 : 100 = 0 + 100) by lra.
  repeat (split; [assumption |]).
  exact (disk_round_trip_square (1 / 2) (1 / 4) 0 0 200 200 100 100 100 H1 H2 H2 H3 H3).
Defined.

(** X18: [disk_to_canvas] is a similarity of ratio [|r|], whatever the
    bounding box: the canvas images of two finite points are [|r|] times
    as far apart as the points, and the origin of the disk goes to
    [(cx, cy)]. *)
Theorem disk_to_canvas_similarity (x1 y1 x2 y2 left top right bottom cx cy r : R) :
  let d := fdisk left top right bottom cx cy r in
  euclid_dist (disk_to_canvas (fpoint x1 y1) d) (disk_to_canvas (fpoint x2 y2) d)
  = mul (Math_abs (Fin r)) (euclid_dist (fpoint x1 y1) (fpoint x2 y2))
  /\ disk_to_canvas (fpoint 0 0) d = fpoint cx cy.
Proof.
  intros d. subst d. rewrite !disk_to_canvas_fin, !euclid_dist_fin. js_unfold. split.
  - f_equal. rewrite <- sqrt_Rsqr_abs, <- sqrt_mult by (apply Rle_0_sqr || apply dist2_nonneg).
    f_equal. unfold dist2, Rsqr. ring.
  - apply fpoint_ext; ring.
Qed.

End Coordinates.

(** ** The disk that [render] builds *)

Section RenderDisk.
Local Open Scope R_scope.

Lemma render_poindisk_fin (W H : R) :
  render_poindisk (Fin W) (Fin H)
  = fdisk 0 0 W H (W / 2) (H / 2) (Rmin (W / 2) (H / 2)).
Proof.
  unfold render_poindisk. js_unfold. js_math. rewrite !Q2R_lit.
  rewrite !xdiv_fin by lra. js_math.
  replace ((W - 0 / 1) / (2 / 1)) with (W / 2) by field.
  replace ((H - 0 / 1) / (2 / 1)) with (H / 2) by field.
  replace (0 / 1) with 0 by field. reflexivity.
Qed.

(** X19: for a canvas of finite positive width and height, the disk that
    [render] builds is valid, its circle fits into the canvas, and going
    from the canvas to the disk and back returns every canvas point
    exactly when the canvas is square. *)
Theorem render_poindisk_round_trip (W H : R) :
  0 < W -> 0 < H ->
  let d := render_poindisk (Fin W) (Fin H) in
  exists r,
    d = fdisk 0 0 W H (W / 2) (H / 2) r
    /\ valid_disk 0 0 W H r
    /\ 0 <= W / 2 - r /\ W / 2 + r <= W /\ 0 <= H / 2 - r /\ H / 2 + r <= H
    /\ ((forall px py, disk_to_canvas (canvas_to_disk (fpoint px py) d) d = fpoint px py)
        <-> W = H).
Proof.
  intros HW HH d. subst d. rewrite render_poindisk_fin.
  exists (Rmin (W / 2) (H / 2)). split; [reflexivity |].
  assert (Hmin : Rmin (W / 2) (H / 2) <= W / 2 /\ Rmin (W / 2) (H / 2) <= H / 2
                 /\ 0 < Rmin (W / 2) (H / 2)).
  { unfold Rmin. destruct (Rle_dec (W / 2) (H / 2)); lra. }
  destruct Hmin as (Hm1 & Hm2 & Hm3).
  split.
  { unfold valid_disk. split; [exact Hm3 |]. f_equal; lra. }
  do 4 (split; [lra |]). split.
  - intros Hrt. specialize (Hrt 0 0). revert Hrt.
    rewrite canvas_to_disk_fin, disk_to_canvas_fin by lra.
    intros E. injection E as Ex Ey.
    replace (((0 - 0) / (W - 0) - 1 / 2) * 2) with (-1) in Ex by (field; lra).
    replace (((0 - 0) / (H - 0) - 1 / 2) * -2) with 1 in Ey by (field; lra).
    lra.
  - intros <- px py. rewrite canvas_to_disk_fin, disk_to_canvas_fin by lra.
    unfold Rmin. destruct (Rle_dec (W / 2) (W / 2)); apply fpoint_ext; field; lra.
Qed.

Lemma render_poindisk_round_trip_witness :
  0 < 400 /\ 0 < 200
  /\ exists r, render_poindisk (Fin 400) (Fin 200) = fdisk 0 0 400 200 (400 / 2) (200 / 2) r
               /\ valid_disk 0 0 400 200 r.
Proof.
  assert (HW : 0 < 400) by lra. assert (HH : 0 < 200) by lra.
  split; [exact HW |]. split; [exact HH |].
  destruct (render_poindisk_round_trip 400 200 HW HH) as (r & H1 & H2 & _).
  exists r. split; assumption.
Defined.

End RenderDisk.

(** ** Hyperbolic and Euclidean radii *)

Section Radii.
Local Open Scope R_scope.

Lemma Ratanh_tanh (t : R) : XReal.Ratanh (tanh t) = t.
Proof.
  unfold XReal.Ratanh. rewrite tanh_quotient, exp_Ropp.
  pose proof (exp_pos t) as Ha.
  replace ((1 + (exp t - / exp t) / (exp t + / exp t))
           / (1 - (exp t - / exp t) / (exp t + / exp t)))
    with (exp t * exp t).
  - rewrite <- exp_plus, ln_exp. field.
  - field. split; [lra |]. assert (0 < exp t * exp t) by nra. lra.
Qed.

Lemma Rabs_le_between (a b : R) : Rabs a <= b -> - b <= a <= b.
Proof. intros Ha. unfold Rabs in Ha. destruct (Rcase_abs a); lra. Qed.

Lemma tanh_opp (t : R) : tanh (- t) = - tanh t.
Proof.
  rewrite !tanh_quotient, Ropp_involutive.
  pose proof (exp_pos t). pose proof (exp_pos (- t)). field. lra.
Qed.

Lemma tanh_le (s t : R) : s <= t -> tanh s <= tanh t.
Proof. intros [Hlt | ->]; [left; apply tanh_increasing, Hlt | lra]. Qed.

Lemma tanh_squares (t : R) :
  tanh t = (exp t * exp t - 1) / (exp t * exp t + 1).
Proof.
  rewrite tanh_quotient, exp_Ropp. pose proof (exp_pos t) as Ha.
  set (a := exp t) in *. clearbody a. field. nra.
Qed.

(** [tanh t] against a bound [c], in terms of [exp t]. *)
Lemma tanh_lt_of_exp (t c : R) : exp t * exp t * (1 - c) < 1 + c -> tanh t < c.
Proof.
  intros Hc. rewrite tanh_squares. pose proof (exp_pos t) as Ha.
  set (a := exp t) in *. clearbody a.
  assert (Haa : 0 < a * a + 1) by nra.
  apply Rmult_lt_reg_r with (a * a + 1); [exact Haa |].
  replace ((a * a - 1) / (a * a + 1) * (a * a + 1)) with (a * a - 1) by (field; lra).
  lra.
Qed.

Lemma tanh_ge_of_exp (t c : R) : 1 + c <= exp t * exp t * (1 - c) -> c <= tanh t.
Proof.
  intros Hc. rewrite tanh_squares. pose proof (exp_pos t) as Ha.
  set (a := exp t) in *. clearbody a.
  assert (Haa : 0 < a * a + 1) by nra.
  apply Rmult_le_reg_r with (a * a + 1); [exact Haa |].
  replace ((a * a - 1) / (a * a + 1) * (a * a + 1)) with (a * a - 1) by (field; lra).
  lra.
Qed.

Lemma exp_5_upper : exp 5 <= 243.
Proof.
  pose proof exp_le_3 as H3. pose proof (exp_pos 1) as H0.
  replace 5 with (1 + (1 + (1 + (1 + 1)))) by ring. rewrite !exp_plus.
  set (a := exp 1) in *. clearbody a.
  assert (H2 : 0 < a * a <= 9) by nra.
  assert (H4 : 0 < a * (a * a) <= 27) by nra.
  assert (H5 : 0 < a * (a * (a * a)) <= 81) by nra.
  nra.
Qed.

Lemma exp_double_lower (x c : R) : 0 <= c -> c <= exp x -> c * c <= exp (x + x).
Proof. intros Hc Hx. rewrite exp_plus. nra. Qed.

Lemma exp_20_lower : 200000000 <= exp 20.
Proof.
  pose proof (exp_ineq1_le (1 / 16)) as H0.
  assert (H1 : 11289 / 10000 <= exp (1 / 8)).
  { replace (1 / 8) with (1 / 16 + 1 / 16) by field.
    apply Rle_trans with ((1 + 1 / 16) * (1 + 1 / 16)); [lra |].
    apply exp_double_lower; lra. }
  assert (H2 : 12744 / 10000 <= exp (1 / 4)).
  { replace (1 / 4) with (1 / 8 + 1 / 8) by field.
    apply Rle_trans with (11289 / 10000 * (11289 / 10000)); [lra |].
    apply exp_double_lower; lra. }
  assert (H3 : 1624 / 1000 <= exp (1 / 2)).
  { replace (1 / 2) with (1 / 4 + 1 / 4) by field.
    apply Rle_trans with (12744 / 10000 * (12744 / 10000)); [lra |].
    apply exp_double_lower; lra. }
  assert (H4 : 2637 / 1000 <= exp 1).
  { replace 1 with (1 / 2 + 1 / 2) by field.
    apply Rle_trans with (1624 / 1000 * (1624 / 1000)); [lra |].
    apply exp_double_lower; lra. }
  assert (H5 : 695 / 100 <= exp 2).
  { replace 2 with (1 + 1) by ring.
    apply Rle_trans with (2637 / 1000 * (2637 / 1000)); [lra |].
    apply exp_double_lower; lra. }
  assert (H6 : 483 / 10 <= exp 4).
  { replace 4 with (2 + 2) by ring.
    apply Rle_trans with (695 / 100 * (695 / 100)); [lra |].
    apply exp_double_lower; lra. }
  assert (H7 : 2332 <= exp 8).
  { replace 8 with (4 + 4) by ring.
    apply Rle_trans with (483 / 10 * (483 / 10)); [lra |].
    apply exp_double_lower; lra. }
  assert (H8 : 5438000 <= exp 16).
  { replace 16 with (8 + 8) by ring.
    apply Rle_trans with (2332 * 2332); [lra |].
    apply exp_double_lower; lra. }
  replace 20 with (16 + 4) by ring. rewrite exp_plus.
  apply Rle_trans with (5438000 * (483 / 10)); [lra |].
  apply Rmult_le_compat; lra.
Qed.

(** Up to [5] the hyperbolic tangent stays clear of the numbers that
    round to [1] or [-1]; from [20] on it is one of them. *)
Lemma tanh_clear (t : R) :
  Rabs t <= 5 ->
  - (1 - XRealRounded.half_ulp) < tanh t < 1 - XRealRounded.half_ulp.
Proof.
  intros Ht. apply Rabs_le_between in Ht.
  assert (H5 : tanh 5 < 1 - XRealRounded.half_ulp).
  { apply tanh_lt_of_exp. pose proof exp_5_upper as Hu. pose proof (exp_pos 5) as Hp.
    rewrite half_ulp_value.
    assert (Hsq : exp 5 * exp 5 <= 243 * 243) by (apply Rmult_le_compat; lra).
    replace (1 - (1 - / 18014398509481984)) with (/ 18014398509481984) by ring.
    apply Rle_lt_trans with (243 * 243 * / 18014398509481984); [| lra].
    apply Rmult_le_compat_r; lra. }
  pose proof (tanh_le t 5 ltac:(lra)) as Hup.
  pose proof (tanh_le (Ropp 5) t ltac:(lra)) as Hlow. rewrite tanh_opp in Hlow. lra.
Qed.

Lemma tanh_rounds_to_one (t : R) : 20 <= t -> 1 - XRealRounded.half_ulp <= tanh t.
Proof.
  intros Ht. apply Rle_trans with (tanh 20); [| apply tanh_le, Ht].
  apply tanh_ge_of_exp. pose proof exp_20_lower as Hl.
  rewrite half_ulp_value.
  assert (Hsq : 200000000 * 200000000 <= exp 20 * exp 20)
    by (apply Rmult_le_compat; lra).
  replace (1 - (1 - / 18014398509481984)) with (/ 18014398509481984) by ring.
  apply Rle_trans with (200000000 * 200000000 * / 18014398509481984); [lra |].
  apply Rmult_le_compat_r; lra.
Qed.

(** X20: [r_poincare_to_euclid] and [hyper_radius_from_euclidean] are
    inverse to each other where the hyperbolic tangent does not round to
    [1] or [-1], and only there.  A Euclidean radius [e] that is [1], [-1]
    or strictly between the two numbers that round to them comes back
    from its hyperbolic radius; a hyperbolic radius [h] of at most [10] in
    absolute value comes back from its Euclidean radius; a hyperbolic
    radius of [40] or more does not: its Euclidean radius is [1], and it
    comes back as [+Infinity]. *)
Theorem radius_round_trip (e h far : R) :
  Rabs e = 1 \/ Rabs e < 1 - XRealRounded.half_ulp ->
  Rabs h <= 10 ->
  40 <= far ->
  @r_poincare_to_euclid xreal xreal_saturating
    (@hyper_radius_from_euclidean xreal xreal_saturating (Fin e)) = Fin e
  /\ @hyper_radius_from_euclidean xreal xreal_saturating
       (@r_poincare_to_euclid xreal xreal_saturating (Fin h)) = Fin h
  /\ @r_poincare_to_euclid xreal xreal_saturating (Fin far) = Fin 1
  /\ @hyper_radius_from_euclidean xreal xreal_saturating
       (@r_poincare_to_euclid xreal xreal_saturating (Fin far)) = PInf.
Proof.
  intros He Hh Hfar. pose proof half_ulp_bounds as Hu.
  assert (Hsat : @r_poincare_to_euclid xreal xreal_saturating (Fin far) = Fin 1).
  { unfold r_poincare_to_euclid. js_unfold_rounded. rewrite !Q2R_lit.
    rewrite xdiv_fin by lra. cbn [XRealRounded.xtanh]. f_equal.
    apply saturate_one, tanh_rounds_to_one. lra. }
  split; [| split; [| split; [exact Hsat |]]].
  - unfold r_poincare_to_euclid, hyper_radius_from_euclidean.
    js_unfold_rounded. rewrite !Q2R_lit.
    destruct (Req_dec_T e 1) as [E1 | N1]; [| destruct (Req_dec_T e (-1)) as [E2 | N2]].
    + rewrite xatanh_one by exact E1. cbn [XReal.xmul]. unfold XReal.signed_inf.
      destruct (Req_dec_T (2 / 1) 0) as [Habs | _]; [lra |].
      destruct (Rlt_dec 0 (2 / 1)) as [_ | Habs]; [| lra].
      cbn [XReal.xdiv]. destruct (Rlt_dec (2 / 1) 0) as [Habs | _]; [lra |].
      cbn [XRealRounded.xtanh]. f_equal. lra.
    + subst e. unfold XReal.xatanh.
      destruct (Req_dec_T (-1) 1) as [Habs | _]; [lra |].
      destruct (Req_dec_T (-1) (-1)) as [_ | Habs]; [| lra].
      cbn [XReal.xmul]. unfold XReal.signed_inf.
      destruct (Req_dec_T (2 / 1) 0) as [Habs | _]; [lra |].
      destruct (Rlt_dec 0 (2 / 1)) as [_ | Habs]; [| lra].
      cbn [negb XReal.xdiv]. destruct (Rlt_dec (2 / 1) 0) as [Habs | _]; [lra |].
      cbn [XRealRounded.xtanh]. reflexivity.
    + assert (Hin : - (1 - XRealRounded.half_ulp) < e < 1 - XRealRounded.half_ulp).
      { destruct He as [He | He].
        - exfalso. unfold Rabs in He. destruct (Rcase_abs e); lra.
        - apply Rabs_def2 in He. lra. }
      rewrite xatanh_fin by lra. js_unfold_rounded. rewrite xdiv_fin by lra.
      cbn [XRealRounded.xtanh]. f_equal.
      replace (2 / 1 * XReal.Ratanh e / (2 / 1)) with (XReal.Ratanh e) by field.
      rewrite tanh_Ratanh by lra. apply saturate_id, Hin.
  - unfold r_poincare_to_euclid, hyper_radius_from_euclidean.
    js_unfold_rounded. rewrite !Q2R_lit. rewrite xdiv_fin by lra.
    cbn [XRealRounded.xtanh].
    assert (Hc : Rabs (h / (2 / 1)) <= 5).
    { apply Rabs_le. apply Rabs_le_between in Hh. lra. }
    rewrite saturate_id by (apply tanh_clear, Hc).
    pose proof (tanh_lt_1 (h / (2 / 1))) as Hb.
    rewrite xatanh_fin by exact Hb. js_unfold_rounded. f_equal.
    rewrite Ratanh_tanh. field.
  - rewrite Hsat. unfold hyper_radius_from_euclidean. js_unfold_rounded.
    rewrite xatanh_one by reflexivity. rewrite Q2R_lit.
    cbn [XReal.xmul]. unfold XReal.signed_inf.
    destruct (Req_dec_T (2 / 1) 0) as [Habs | _]; [lra |].
    destruct (Rlt_dec 0 (2 / 1)) as [_ | Habs]; [| lra]. reflexivity.
Qed.

Lemma radius_round_trip_witness :
  (Rabs (1 / 2) = 1 \/ Rabs (1 / 2) < 1 - XRealRounded.half_ulp)
  /\ Rabs 3 <= 10 /\ 40 <= 40
  /\ @r_poincare_to_euclid xreal xreal_saturating
       (@hyper_radius_from_euclidean xreal xreal_saturating (Fin (1 / 2))) = Fin (1 / 2)
  /\ @hyper_radius_from_euclidean xreal xreal_saturating
       (@r_poincare_to_euclid xreal xreal_saturating (Fin 3)) = Fin 3
  /\ @hyper_radius_from_euclidean xreal xreal_saturating
       (@r_poincare_to_euclid xreal xreal_saturating (Fin 40)) = PInf.
Proof.
  assert (He : Rabs (1 / 2) = 1 \/ Rabs (1 / 2) < 1 - XRealRounded.half_ulp).
  { right. rewrite Rabs_pos_eq by lra. pose proof half_ulp_bounds. lra. }
  assert (Hh : Rabs 3 <= 10) by (rewrite Rabs_pos_eq; lra).
  assert (Hfar : 40 <= 40) by lra.
  split; [exact He |]. split; [exact Hh |]. split; [exact Hfar |].
  destruct (radius_round_trip (1 / 2) 3 40 He Hh Hfar) as (H1 & H2 & _ & H3).
  split; [exact H1 |]. split; [exact H2 | exact H3].
Defined.

End Radii.

(** ** [hyper_dist] *)

Section HyperDist.
Local Open Scope R_scope.

(** The quotient whose [acosh] is returned. *)
Lemma hyper_dist_raw (px py qx qy : R) :
  hyper_dist (fpoint px py) (fpoint qx qy)
  = XReal.xacosh
      (XReal.xadd (Fin 1)
         (XReal.xdiv (Fin (2 * dist2 px py qx qy))
                     (Fin ((1 - px * px + py * py) * (1 - qx * qx + qy * qy))))).
Proof.
  unfold hyper_dist, dist2. js_unfold. rewrite !Q2R_lit.
  replace (1 / 1) with 1 by field. replace (2 / 1) with 2 by field. reflexivity.
Qed.

Lemma hyper_dist_fin (px py qx qy : R) :
  (1 - px * px + py * py) * (1 - qx * qx + qy * qy) <> 0 ->
  hyper_dist (fpoint px py) (fpoint qx qy)
  = XReal.xacosh (Fin (1 + 2 * dist2 px py qx qy
                           / ((1 - px * px + py * py) * (1 - qx * qx + qy * qy)))).
Proof.
  intros Hden. rewrite hyper_dist_raw, xdiv_fin by exact Hden. reflexivity.
Qed.

Lemma Racosh_increasing (a b : R) : 1 <= a -> a < b -> XReal.Racosh a < XReal.Racosh b.
Proof.
  intros Ha Hab. unfold XReal.Racosh.
  pose proof (sqrt_pos (a * a - 1)) as Hsa.
  assert (Hs : sqrt (a * a - 1) <= sqrt (b * b - 1)) by (apply sqrt_le_1; nra).
  apply ln_increasing; lra.
Qed.

(** [acosh ((1 + t^2) / (1 - t^2))] is [2 atanh t]. *)
Lemma Racosh_Ratanh (t : R) :
  0 <= t < 1 ->
  XReal.Racosh (1 + 2 * (t * t) / (1 - t * t)) = 2 * XReal.Ratanh t.
Proof.
  intros Ht. unfold XReal.Racosh, XReal.Ratanh.
  assert (H1 : 0 < 1 - t * t) by nra.
  assert (Hs : sqrt ((1 + 2 * (t * t) / (1 - t * t)) * (1 + 2 * (t * t) / (1 - t * t)) - 1)
               = 2 * t / (1 - t * t)).
  { apply sqrt_eq_of_square.
    - apply Rmult_le_pos; [lra | left; apply Rinv_0_lt_compat, H1].
    - field. lra. }
  rewrite Hs.
  replace (1 + 2 * (t * t) / (1 - t * t) + 2 * t / (1 - t * t)) with ((1 + t) / (1 - t))
    by (field; split; nra).
  field.
Qed.

(** X21: [hyper_dist] does not depend on the order of its two finite
    arguments.  From a point to itself it is [0], unless the point lies
    on the hyperbola [x^2 - y^2 = 1], where it is [NaN]. *)
Theorem hyper_dist_symmetric (px py qx qy : R) :
  hyper_dist (fpoint px py) (fpoint qx qy) = hyper_dist (fpoint qx qy) (fpoint px py)
  /\ (px * px - py * py <> 1 -> hyper_dist (fpoint px py) (fpoint px py) = Fin 0)
  /\ (px * px - py * py = 1 -> hyper_dist (fpoint px py) (fpoint px py) = NaN).
Proof.
  split; [| split].
  - rewrite !hyper_dist_raw. f_equal. f_equal. f_equal; f_equal.
    + unfold dist2. ring.
    + ring.
  - intros Hne.
    assert (Hden : (1 - px * px + py * py) * (1 - px * px + py * py) <> 0)
      by (apply Rmult_integral_contrapositive; split; lra).
    rewrite hyper_dist_fin by exact Hden.
    replace (dist2 px py px py) with 0 by (unfold dist2; ring).
    replace (1 + 2 * 0 / ((1 - px * px + py * py) * (1 - px * px + py * py))) with 1
      by (field; lra).
    rewrite xacosh_fin by lra. rewrite Racosh_1. reflexivity.
  - intros Heq. rewrite hyper_dist_raw.
    rewrite xdiv_zero_by_zero; [reflexivity | unfold dist2; ring |].
    replace (1 - px * px + py * py) with 0 by lra. ring.
Qed.

(** X22: [hyper_dist] treats the two axes differently.  From the origin
    to a point at Euclidean distance [t], with [0 < t < 1], it is the
    hyperbolic radius [hyper_radius_from_euclidean t] when the point lies
    on the [x] axis, and a finite number strictly smaller than that when
    the point lies on the [y] axis. *)
Theorem hyper_dist_axes (t : R) :
  0 < t < 1 ->
  exists h v,
    hyper_radius_from_euclidean (Fin t) = Fin h
    /\ hyper_dist (fpoint 0 0) (fpoint t 0) = Fin h
    /\ hyper_dist (fpoint 0 0) (fpoint 0 t) = Fin v
    /\ 0 < v < h.
Proof.
  intros Ht. exists (2 * XReal.Ratanh t), (XReal.Racosh (1 + 2 * (t * t) / (1 + t * t))).
  assert (H1 : 0 < 1 - t * t) by nra.
  assert (H2 : 0 < 1 + t * t) by nra.
  assert (Hfrac : 0 < 2 * (t * t) / (1 + t * t) < 2 * (t * t) / (1 - t * t)).
  { split.
    - apply Rdiv_lt_0_compat; nra.
    - apply Rmult_lt_compat_l; [nra |]. apply Rinv_lt_contravar; nra. }
  split; [| split; [| split]].
  - unfold hyper_radius_from_euclidean. js_unfold. rewrite xatanh_fin by lra.
    js_unfold. rewrite Q2R_lit. f_equal. field.
  - rewrite hyper_dist_fin by nra.
    replace (1 + 2 * dist2 0 0 t 0 / ((1 - 0 * 0 + 0 * 0) * (1 - t * t + 0 * 0)))
      with (1 + 2 * (t * t) / (1 - t * t)) by (unfold dist2; field; lra).
    rewrite xacosh_fin by lra. rewrite Racosh_Ratanh by lra. reflexivity.
  - rewrite hyper_dist_fin by nra.
    replace (1 + 2 * dist2 0 0 0 t / ((1 - 0 * 0 + 0 * 0) * (1 - 0 * 0 + t * t)))
      with (1 + 2 * (t * t) / (1 + t * t)) by (unfold dist2; field; lra).
    rewrite xacosh_fin by lra. reflexivity.
  - rewrite <- Racosh_Ratanh by lra. split.
    + rewrite <- Racosh_1. apply Racosh_increasing; lra.
    + apply Racosh_increasing; lra.
Qed.

Lemma hyper_dist_axes_witness :
  0 < 1 / 2 < 1
  /\ exists h v,
       hyper_dist (fpoint 0 0) (fpoint (1 / 2) 0) = Fin h
       /\ hyper_dist (fpoint 0 0) (fpoint 0 (1 / 2)) = Fin v
       /\ v < h.
Proof.
  assert (Ht : 0 < 1 / 2 < 1) by lra.
  split; [exact Ht |].
  destruct (hyper_dist_axes (1 / 2) Ht) as (h & v & _ & H1 & H2 & _ & H3).
  exists h, v. repeat split; assumption.
Defined.

End HyperDist.

(** ** From the layout to the arc of an edge *)

Section RenderEdge.
Local Open Scope R_scope.

(** What [to_poincare] writes into the [center] field of the node. *)
Lemma to_poincare_inplace_center {T : Type} `{JSNumber T}
    (ePosition : NodeObject.t T) (centerX centerY : T) (poindisk : PoinDisk.t T) :
  let res := to_poincare ePosition centerX centerY poindisk true in
  (fst res).(NodeObject.center) = Some (snd res).(Projected.center).
Proof. reflexivity. Qed.

(** The functions that do not call [Math.tanh] are the same at the two
    instances. *)
Lemma render_poindisk_rounded (W H : xreal) :
  @render_poindisk xreal xreal_saturating xreal_saturating_math W H
  = render_poindisk W H.
Proof. reflexivity. Qed.

Lemma euclid_dist_rounded :
  @euclid_dist xreal xreal_saturating = @euclid_dist xreal xreal_number.
Proof. reflexivity. Qed.

Lemma circle_inversion_rounded :
  @circle_inversion xreal xreal_saturating = @circle_inversion xreal xreal_number.
Proof. reflexivity. Qed.

Lemma find_midpoint_rounded :
  @find_midpoint xreal xreal_saturating = @find_midpoint xreal xreal_number.
Proof. reflexivity. Qed.

Lemma euclid_line_rounded :
  @euclid_line xreal xreal_saturating = @euclid_line xreal xreal_number.
Proof. reflexivity. Qed.

Lemma get_perpendicular_line_rounded :
  @get_perpendicular_line xreal xreal_saturating
  = @get_perpendicular_line xreal xreal_number.
Proof. reflexivity. Qed.

Lemma find_intersection_rounded :
  @find_intersection xreal xreal_saturating = @find_intersection xreal xreal_number.
Proof. reflexivity. Qed.

Lemma poincare_geodesic_rounded (p q : Point.t xreal) (d : PoinDisk.t xreal) :
  @poincare_geodesic xreal xreal_saturating p q d = poincare_geodesic p q d.
Proof.
  unfold poincare_geodesic.
  rewrite euclid_dist_rounded, circle_inversion_rounded, find_midpoint_rounded,
    euclid_line_rounded, get_perpendicular_line_rounded, find_intersection_rounded.
  reflexivity.
Qed.



(** A point of the circle is its own inverse: the line through the two
    has no direction, and its intersection with another line is not a
    number. *)
Lemma geodesic_center_boundary (px py qx qy cx cy r : R) :
  dist2 px py cx cy = r * r -> r <> 0 -> dist2 qx qy cx cy <> 0 ->
  find_intersection (bisector (fpoint px py) (fcircle cx cy r))
                    (bisector (fpoint qx qy) (fcircle cx cy r))
  = Point.mk NaN NaN.
Proof.
  intros Hon Hr Hq.
  assert (Hp : dist2 px py cx cy <> 0) by (rewrite Hon; nra).
  destruct (bisector_fin px py cx cy r Hp) as (K1 & HK1 & ->).
  destruct (bisector_fin qx qy cx cy r Hq) as (K2 & _ & ->).
  assert (E : K1 = 0) by (apply HK1, Hon). subst K1.
  unfold find_intersection. js_unfold.
  rewrite !xdiv_zero_by_zero by ring. reflexivity.
Qed.

(** Beyond the distance where [poincareR] rounds to [1] the arc is lost:
    for the layout points [(1e12, 0)] and [(0, 1e12)] around [(0, 0)], on
    the canvas of [200] by [200], the centres written into the nodes are
    the boundary points [(200, 100)] and [(100, 200)], and the radius of
    the arc between them is [NaN]. *)
Example render_edge_arc_far :
  let d := @render_poindisk xreal xreal_saturating xreal_saturating_math
             (Fin 200) (Fin 200) in
  let a := fst (@to_poincare xreal xreal_saturating
                  (fnode 1000000000000 0) (Fin 0) (Fin 0) d true) in
  let b := fst (@to_poincare xreal xreal_saturating
                  (fnode 0 1000000000000) (Fin 0) (Fin 0) d true) in
  a.(NodeObject.center) = Some (fpoint 200 100)
  /\ b.(NodeObject.center) = Some (fpoint 100 200)
  /\ (@poincare_geodesic xreal xreal_saturating (fpoint 200 100) (fpoint 100 200) d).(Arc.r)
     = NaN.
Proof.
  intros d a b. subst a b d.
  rewrite render_poindisk_rounded, render_poindisk_fin.
  rewrite Rmin_left by lra. replace (200 / 2) with 100 by lra.
  rewrite !(@to_poincare_inplace_center xreal xreal_saturating). cbv zeta.
  rewrite !to_poincare_center_rounded. cbv zeta.
  assert (Hfar1 : 100000000000 * 100000000000 <= dist2 1000000000000 0 0 0)
    by (unfold dist2; lra).
  assert (Hfar2 : 100000000000 * 100000000000 <= dist2 0 1000000000000 0 0)
    by (unfold dist2; lra).
  rewrite (saturate_far _ _ _ _ Hfar1), (saturate_far _ _ _ _ Hfar2).
  assert (Ht1 : XReal.Ratan2 (5 / 1000 * (1000000000000 - 0)) (5 / 1000 * (0 - 0))
                = PI / 2).
  { unfold XReal.Ratan2.
    destruct (Rlt_dec 0 (5 / 1000 * (0 - 0))) as [Habs | _]; [lra |].
    destruct (Rlt_dec (5 / 1000 * (0 - 0)) 0) as [Habs | _]; [lra |].
    destruct (Rlt_dec 0 (5 / 1000 * (1000000000000 - 0))) as [_ | Habs]; [| lra].
    reflexivity. }
  assert (Ht2 : XReal.Ratan2 (5 / 1000 * (0 - 0)) (5 / 1000 * (1000000000000 - 0)) = 0).
  { unfold XReal.Ratan2.
    destruct (Rlt_dec 0 (5 / 1000 * (1000000000000 - 0))) as [_ | Habs]; [| lra].
    replace (5 / 1000 * (0 - 0) / (5 / 1000 * (1000000000000 - 0))) with 0 by (field; lra).
    apply atan_0. }
  rewrite Ht1, Ht2, sin_PI2, cos_PI2, sin_0, cos_0.
  split; [f_equal; apply fpoint_ext; lra |].
  split; [f_equal; apply fpoint_ext; lra |].
  rewrite poincare_geodesic_rounded, poincare_geodesic_fin. cbv zeta.
  rewrite geodesic_center_boundary by (unfold dist2; lra).
  cbn [Arc.r]. apply euclid_dist_nan_x.
Qed.

End RenderEdge.

(** ** The click handlers *)

Section Clicks.
Context {T : Type} `{JSNumber T}.
Variable poindisk : PoinDisk.t T.

Lemma onclick_circle (s : Sketch.state T) (e : Sketch.event T) :
  is_circle_click e = true ->
  onclick poindisk s e
  = Some (Sketch.mk (s.(Sketch.nodes) ++ [click_marker poindisk e])
                    s.(Sketch.vertices) s.(Sketch.lines) s.(Sketch.can_draw_line)).
Proof. unfold onclick, is_circle_click. intros ->. reflexivity. Qed.

Lemma clicks_app (s : Sketch.state T) (es1 es2 : list (Sketch.event T)) :
  clicks poindisk s (es1 ++ es2)
  = match clicks poindisk s es1 with
    | Some s' => clicks poindisk s' es2
    | None => None
    end.
Proof.
  revert s. induction es1 as [| e es1 IH]; intros s; [reflexivity |].
  cbn [clicks app]. destruct (onclick poindisk s e); [apply IH | reflexivity].
Qed.

(** Clicks in [circle] mode only add markers. *)
Lemma clicks_circles (s : Sketch.state T) (cs : list (Sketch.event T)) :
  Forall (fun e => is_circle_click e = true) cs ->
  clicks poindisk s cs
  = Some (Sketch.mk (s.(Sketch.nodes) ++ map (click_marker poindisk) cs)
                    s.(Sketch.vertices) s.(Sketch.lines) s.(Sketch.can_draw_line)).
Proof.
  intros Hcs. revert s. induction Hcs as [| e cs He _ IH]; intros s.
  - cbn [clicks map]. rewrite app_nil_r. destruct s; reflexivity.
  - cbn [clicks map]. rewrite (onclick_circle s e He), IH.
    cbn [Sketch.nodes Sketch.vertices Sketch.lines Sketch.can_draw_line].
    rewrite <- app_assoc. reflexivity.
Qed.

(** X24: whatever the sequence of clicks, from the initial state of the
    page no click throws, and the state reached satisfies the invariant:
    [vertices] is empty when no line is pending, and holds the first
    clicked point and the disk when one is, so that [vertices[0]] is a
    point whenever an arc is computed from it.  There is one marker for
    each click in [circle] mode, and two clicks in another mode are used
    up by every arc.  Moving the pointer in the state reached does not
    throw and leaves the state as it is. *)
Theorem onclick_never_throws (es : list (Sketch.event T)) :
  exists s,
    clicks poindisk Sketch.initial es = Some s
    /\ sketch_invariant poindisk s
    /\ List.length s.(Sketch.nodes) = List.length (filter is_circle_click es)
    /\ (2 * List.length s.(Sketch.lines) + (if s.(Sketch.can_draw_line) then 1 else 0)
        <= List.length (filter (fun e => negb (is_circle_click e)) es))%nat
    /\ forall e, onmove poindisk s e = Some s.
Proof.
  assert (Hgen : forall es s,
             sketch_invariant poindisk s ->
             exists s',
               clicks poindisk s es = Some s'
               /\ sketch_invariant poindisk s'
               /\ List.length s'.(Sketch.nodes)
                  = (List.length s.(Sketch.nodes)
                     + List.length (filter is_circle_click es))%nat
               /\ (2 * List.length s'.(Sketch.lines)
                   + (if s'.(Sketch.can_draw_line) then 1 else 0)
                   <= 2 * List.length s.(Sketch.lines)
                      + (if s.(Sketch.can_draw_line) then 1 else 0)
                      + List.length (filter (fun e => negb (is_circle_click e)) es))%nat).
  { clear es. induction es as [| e es IH]; intros s Hinv.
    - exists s. cbn [clicks filter List.length]. repeat split; [exact Hinv | lia | lia].
    - cbn [clicks filter]. unfold onclick. fold (is_circle_click e).
      destruct (is_circle_click e) eqn:Hc; cbn [negb].
      + match goal with
        | |- context [clicks poindisk ?s1 es] =>
          destruct (IH s1) as (s' & Hrun & Hinv' & Hn & Hl)
        end.
        { destruct Hinv as [[Hf Hv] | [Ht Hv]]; [left | right]; split; assumption. }
        exists s'. split; [exact Hrun |]. split; [exact Hinv' |].
        cbn [Sketch.nodes Sketch.lines Sketch.can_draw_line] in Hn, Hl.
        rewrite length_app in Hn. cbn [List.length] in *. split; lia.
      + destruct Hinv as [[Hf Hv] | [Ht [p Hv]]].
        * rewrite Hf. cbn [negb].
          destruct (String.eqb (Sketch.draw_select e) "line"); cbn [andb].
          -- match goal with
             | |- context [clicks poindisk ?s1 es] =>
               destruct (IH s1) as (s' & Hrun & Hinv' & Hn & Hl)
             end.
             { right. split; [reflexivity |]. exists (click_point e).
               cbn [Sketch.vertices]. rewrite Hv. reflexivity. }
             exists s'. split; [exact Hrun |]. split; [exact Hinv' |].
             cbn [Sketch.nodes Sketch.lines Sketch.can_draw_line] in Hn, Hl.
             cbn [List.length]. split; lia.
          -- destruct (IH s) as (s' & Hrun & Hinv' & Hn & Hl);
               [left; split; assumption |].
             exists s'. split; [exact Hrun |]. split; [exact Hinv' |].
             rewrite Hf in Hl. cbn [List.length]. split; lia.
        * rewrite Ht, Hv. rewrite Bool.andb_false_r. cbn [negb geodesic_from_first].
          match goal with
          | |- context [clicks poindisk ?s1 es] =>
            destruct (IH s1) as (s' & Hrun & Hinv' & Hn & Hl)
          end.
          { left. split; reflexivity. }
          exists s'. split; [exact Hrun |]. split; [exact Hinv' |].
          cbn [Sketch.nodes Sketch.lines Sketch.can_draw_line] in Hn, Hl.
          rewrite length_app in Hl. cbn [List.length] in *. split; lia. }
  destruct (Hgen es Sketch.initial) as (s & Hrun & Hinv & Hn & Hl);
    [left; split; reflexivity |].
  exists s. split; [exact Hrun |]. split; [exact Hinv |].
  split; [exact Hn |]. split; [exact Hl |].
  intros e. unfold onmove.
  destruct Hinv as [[Hf Hv] | [Ht [p Hv]]].
  - rewrite Hf. reflexivity.
  - rewrite Ht, Hv. cbn [andb List.length Nat.leb geodesic_from_first].
    rewrite removelast_last. destruct s; cbn in *. subst. reflexivity.
Qed.

(** X25: a line takes two clicks.  When no line is pending, a click in
    [line] mode, then any number of clicks in [circle] mode, then a click
    in any mode other than [circle] add exactly one arc, the
    [poincare_geodesic] from the first clicked point to the last; the
    clicks in between add their markers and do not cancel the line, and
    no line is pending afterwards. *)
Theorem line_between_clicks (s : Sketch.state T) (a b : Sketch.event T)
    (cs : list (Sketch.event T)) :
  s.(Sketch.can_draw_line) = false -> s.(Sketch.vertices) = [] ->
  a.(Sketch.draw_select) = "line"%string ->
  Forall (fun e => is_circle_click e = true) cs ->
  is_circle_click b = false ->
  clicks poindisk s (a :: cs ++ [b])
  = Some (Sketch.mk
            (s.(Sketch.nodes) ++ map (click_marker poindisk) cs) []
            (s.(Sketch.lines)
             ++ [poincare_geodesic (click_point a) (click_point b) poindisk])
            false).
Proof.
  intros Hf Hv Ha Hcs Hb.
  assert (Hfirst : onclick poindisk s a
                   = Some (Sketch.mk s.(Sketch.nodes)
                             [Sketch.Clicked (click_point a); Sketch.Disk poindisk]
                             s.(Sketch.lines) true)).
  { unfold onclick. rewrite Ha, Hf, Hv. reflexivity. }
  cbn [clicks]. rewrite Hfirst, clicks_app, (clicks_circles _ cs Hcs).
  cbn [clicks Sketch.nodes Sketch.vertices Sketch.lines Sketch.can_draw_line].
  unfold onclick. fold (is_circle_click b). rewrite Hb.
  cbn [Sketch.nodes Sketch.vertices Sketch.lines Sketch.can_draw_line negb].
  rewrite Bool.andb_false_r. cbn [geodesic_from_first vertex_point]. reflexivity.
Qed.

End Clicks.

Lemma line_between_clicks_witness :
  let a := Sketch.click (Fin 150) (Fin 100) "line" (Fin 50) in
  let c := Sketch.click (Fin 120) (Fin 80) "circle" (Fin 50) in
  let b := Sketch.click (Fin 100) (Fin 150) "line" (Fin 50) in
  let d := fdisk 0 0 200 200 100 100 100 in
  (@Sketch.initial xreal).(Sketch.can_draw_line) = false
  /\ (@Sketch.initial xreal).(Sketch.vertices) = []
  /\ a.(Sketch.draw_select) = "line"%string
  /\ Forall (fun e => is_circle_click e = true) [c]
  /\ is_circle_click b = false
  /\ clicks d Sketch.initial [a; c; b]
     = Some (Sketch.mk [click_marker d c] []
               [poincare_geodesic (fpoint 150 100) (fpoint 100 150) d] false).
Proof.
  intros a c b d.
  assert (Hcs : Forall (fun e : Sketch.event xreal => is_circle_click e = true) [c])
    by (repeat constructor).
  split; [reflexivity |]. split; [reflexivity |]. split; [reflexivity |].
  split; [exact Hcs |]. split; [reflexivity |].
  exact (line_between_clicks d Sketch.initial a b [c] eq_refl eq_refl eq_refl Hcs eq_refl).
Defined.

(** ** [setGraph] *)

Section SetGraphProperties.
Context {T : Type}.

Lemma node_at_not_int (nodes : list (Vertex.t T)) (i : Z) :
  is_int (node_at nodes i) = false.
Proof. unfold node_at. destruct (_ && _)%bool; reflexivity. Qed.

Lemma resolve_not_int (nodes : list (Vertex.t T)) (e : EdgeEnd.t) :
  is_int (resolve nodes e) = false.
Proof. destruct e; try reflexivity. apply node_at_not_int. Qed.

Lemma resolve_fixed (nodes : list (Vertex.t T)) (e : EdgeEnd.t) :
  is_int e = false -> resolve nodes e = e.
Proof. destruct e; [discriminate | reflexivity ..]. Qed.

Lemma node_at_in_range (nodes : list (Vertex.t T)) (i : Z) :
  (0 <= i < Z.of_nat (List.length nodes))%Z ->
  node_at nodes i = EdgeEnd.Node (Z.to_nat i)
  /\ (Z.to_nat i < List.length nodes)%nat.
Proof.
  intros Hi. unfold node_at.
  destruct (Z.leb_spec 0 i); [| lia]. destruct (Z.ltb_spec i (Z.of_nat (List.length nodes))); [| lia].
  split; [reflexivity | lia].
Qed.

Lemma node_at_out_of_range (nodes : list (Vertex.t T)) (i : Z) :
  (i < 0 \/ Z.of_nat (List.length nodes) <= i)%Z ->
  node_at nodes i = EdgeEnd.Undefined.
Proof.
  intros Hi. unfold node_at.
  destruct (Z.leb_spec 0 i); [| reflexivity].
  destruct (Z.ltb_spec i (Z.of_nat (List.length nodes))); [lia | reflexivity].
Qed.

(** X26: [setGraph] keeps the nodes and the number of edges, and replaces
    every integer end of an edge: by the node at that position when the
    integer is a position of [nodes], by [undefined] when it is negative
    or too large; every other end is left as it is.  No integer end is
    left, every reference it stores points to a node of the graph, and
    calling it a second time changes nothing. *)
Theorem setGraph_resolves (graph : Graph.t T) :
  let graph' := setGraph graph in
  let n := Z.of_nat (List.length graph.(Graph.nodes)) in
  graph'.(Graph.nodes) = graph.(Graph.nodes)
  /\ Forall2
       (fun e e' =>
          e'.(Edge.arc) = e.(Edge.arc)
          /\ is_int e'.(Edge.source) = false /\ is_int e'.(Edge.target) = false
          /\ (forall i, e.(Edge.source) = EdgeEnd.Int i ->
                        ((0 <= i < n)%Z ->
                         e'.(Edge.source) = EdgeEnd.Node (Z.to_nat i)
                         /\ node_end graph' e'.(Edge.source))
                        /\ ((i < 0 \/ n <= i)%Z -> e'.(Edge.source) = EdgeEnd.Undefined))
          /\ (forall i, e.(Edge.target) = EdgeEnd.Int i ->
                        ((0 <= i < n)%Z ->
                         e'.(Edge.target) = EdgeEnd.Node (Z.to_nat i)
                         /\ node_end graph' e'.(Edge.target))
                        /\ ((i < 0 \/ n <= i)%Z -> e'.(Edge.target) = EdgeEnd.Undefined))
          /\ (is_int e.(Edge.source) = false -> e'.(Edge.source) = e.(Edge.source))
          /\ (is_int e.(Edge.target) = false -> e'.(Edge.target) = e.(Edge.target)))
       graph.(Graph.edges) graph'.(Graph.edges)
  /\ setGraph graph' = graph'.
Proof.
  intros graph' n. subst graph' n. destruct graph as [nodes edges].
  unfold setGraph. cbn [Graph.nodes Graph.edges].
  split; [reflexivity |]. split.
  - induction edges as [| e edges IH]; cbn [map]; constructor; [| exact IH].
    cbn [Edge.source Edge.target Edge.arc].
    split; [reflexivity |]. split; [apply resolve_not_int |].
    split; [apply resolve_not_int |].
    assert (Hint : forall x i, x = EdgeEnd.Int i ->
              ((0 <= i < Z.of_nat (List.length nodes))%Z ->
               resolve nodes x = EdgeEnd.Node (Z.to_nat i)
               /\ node_end (Graph.mk nodes
                              (map (fun e0 => Edge.mk (resolve nodes e0.(Edge.source))
                                                      (resolve nodes e0.(Edge.target))
                                                      e0.(Edge.arc)) (e :: edges)))
                           (resolve nodes x))
              /\ ((i < 0 \/ Z.of_nat (List.length nodes) <= i)%Z ->
                  resolve nodes x = EdgeEnd.Undefined)).
    { intros x i ->. cbn [resolve]. split.
      - intros Hi. destruct (node_at_in_range nodes i Hi) as [Hn Hk].
        split; [exact Hn |]. exists (Z.to_nat i). split; [exact Hn | exact Hk].
      - apply node_at_out_of_range. }
    split; [apply Hint |]. split; [apply Hint |].
    split; apply resolve_fixed.
  - f_equal. rewrite map_map. apply map_ext. intros e.
    cbn [Edge.source Edge.target Edge.arc].
    rewrite !(resolve_fixed nodes (resolve nodes _)) by apply resolve_not_int.
    reflexivity.
Qed.

End SetGraphProperties.

(** ** The drawing loop *)

Section StartDrawingProperties.
Context {T : Type} `{JSNumber T}.
Variables (centerX centerY : T) (poindisk : PoinDisk.t T).

(** After the first loop the centre of every node is set. *)
Lemma end_center_projected (nodes : list (Vertex.t T)) (e : EdgeEnd.t) :
  end_center (map (project_vertex centerX centerY poindisk) nodes) e
  = match e with
    | EdgeEnd.Node k =>
      match nth_error nodes k with
      | Some v => Some (Some (projected_center centerX centerY poindisk v))
      | None => None
      end
    | EdgeEnd.Undefined => None
    | _ => Some None
    end.
Proof.
  destruct e as [i | k | | s]; try reflexivity.
  cbn [end_center]. rewrite nth_error_map.
  destruct (nth_error nodes k); reflexivity.
Qed.

Lemma edge_arc_some (nodes : list (Vertex.t T)) (e : Edge.t T) (arc : Arc.t T) :
  edge_arc (map (project_vertex centerX centerY poindisk) nodes) poindisk e = Some arc
  <-> exists s t vs vt,
        e.(Edge.source) = EdgeEnd.Node s /\ e.(Edge.target) = EdgeEnd.Node t
        /\ nth_error nodes s = Some vs /\ nth_error nodes t = Some vt
        /\ arc = poincare_geodesic (projected_center centerX centerY poindisk vs)
                                   (projected_center centerX centerY poindisk vt) poindisk.
Proof.
  unfold edge_arc. rewrite !end_center_projected. split.
  - destruct (Edge.source e) as [i | s | | a]; destruct (Edge.target e) as [j | t | | b];
      repeat match goal with
             | |- context [nth_error nodes ?k] =>
               let E := fresh "Hnth" in destruct (nth_error nodes k) eqn:E
             end;
      try discriminate.
    intros E. injection E as <-. do 4 eexists. repeat split; eassumption.
  - intros (s & t & vs & vt & -> & -> & -> & -> & ->). reflexivity.
Qed.

Lemma nth_error_some_lt {A : Type} (l : list A) (k : nat) (a : A) :
  nth_error l k = Some a -> (k < List.length l)%nat.
Proof. intros E. apply nth_error_Some. rewrite E. discriminate. Qed.

Lemma nth_error_lt_some {A : Type} (l : list A) (k : nat) :
  (k < List.length l)%nat -> exists a, nth_error l k = Some a.
Proof.
  intros Hk. destruct (nth_error l k) as [a |] eqn:E; [exists a; reflexivity |].
  apply nth_error_None in E. lia.
Qed.

(** The second loop: it completes exactly when both ends of every edge
    are node objects, and then it stores in every edge the arc between
    the centres of the two nodes. *)
Lemma draw_edges_complete (nodes : list (Vertex.t T)) (es : list (Edge.t T)) :
  let vertices := map (project_vertex centerX centerY poindisk) nodes in
  (draw_edges vertices poindisk es <> None
   <-> Forall (fun e =>
                 (exists k, e.(Edge.source) = EdgeEnd.Node k /\ (k < List.length nodes)%nat)
                 /\ (exists k, e.(Edge.target) = EdgeEnd.Node k
                               /\ (k < List.length nodes)%nat)) es)
  /\ forall es',
       draw_edges vertices poindisk es = Some es' ->
       Forall2
         (fun e e' =>
            e'.(Edge.source) = e.(Edge.source) /\ e'.(Edge.target) = e.(Edge.target)
            /\ exists s t vs vt,
                 e.(Edge.source) = EdgeEnd.Node s /\ e.(Edge.target) = EdgeEnd.Node t
                 /\ nth_error nodes s = Some vs /\ nth_error nodes t = Some vt
                 /\ e'.(Edge.arc)
                    = Some (poincare_geodesic
                              (projected_center centerX centerY poindisk vs)
                              (projected_center centerX centerY poindisk vt) poindisk))
         es es'.
Proof.
  intros vertices. induction es as [| e es [IHa IHb]].
  - split; [split; [constructor | discriminate] |].
    intros es' E. injection E as <-. constructor.
  - cbn [draw_edges].
    destruct (edge_arc vertices poindisk e) as [arc |] eqn:Harc.
    + apply edge_arc_some in Harc.
      destruct Harc as (s & t & vs & vt & Hs & Ht & Hvs & Hvt & Harc).
      destruct (draw_edges vertices poindisk es) as [rest |] eqn:Hrest.
      * split.
        -- split; [intros _ | discriminate].
           constructor; [| apply IHa; discriminate].
           split; [exists s | exists t]; split; try assumption;
             eapply nth_error_some_lt; eassumption.
        -- intros es' E. injection E as <-. constructor; [| apply IHb; reflexivity].
           cbn [Edge.source Edge.target Edge.arc].
           split; [reflexivity |]. split; [reflexivity |].
           exists s, t, vs, vt. do 4 (split; [assumption |]).
           rewrite Harc. reflexivity.
      * split; [| discriminate]. split; [intros Habs; now elim Habs |].
        intros Hall. inversion Hall as [| ? ? _ Hes]. subst.
        apply IHa in Hes. now elim Hes.
    + split; [| discriminate]. split; [intros Habs; now elim Habs |].
      intros Hall. inversion Hall as [| ? ? [[s [Hs Hsk]] [t [Ht Htk]]] _]. subst.
      destruct (nth_error_lt_some nodes s Hsk) as [vs Hvs].
      destruct (nth_error_lt_some nodes t Htk) as [vt Hvt].
      assert (Hsome : edge_arc vertices poindisk e
                      = Some (poincare_geodesic
                                (projected_center centerX centerY poindisk vs)
                                (projected_center centerX centerY poindisk vt) poindisk)).
      { apply edge_arc_some. exists s, t, vs, vt. repeat split; assumption. }
      rewrite Hsome in Harc. discriminate.
Qed.

(** X27: the drawing loop of [render] completes without a [TypeError]
    exactly when both ends of every edge are node objects of the graph.
    When it completes, every node has been projected, and the arc of
    every edge is the [poincare_geodesic] between the centres that
    [to_poincare] wrote into the nodes at its two ends, read through the
    edge; the ends of the edges are left as they were. *)
Theorem start_drawing_arcs (graph : Graph.t T) :
  (start_drawing centerX centerY poindisk graph <> None
   <-> Forall (fun e => node_end graph e.(Edge.source) /\ node_end graph e.(Edge.target))
              graph.(Graph.edges))
  /\ forall graph',
       start_drawing centerX centerY poindisk graph = Some graph' ->
       graph'.(Graph.nodes)
       = map (project_vertex centerX centerY poindisk) graph.(Graph.nodes)
       /\ Forall2
            (fun e e' =>
               e'.(Edge.source) = e.(Edge.source) /\ e'.(Edge.target) = e.(Edge.target)
               /\ exists s t vs' vt',
                    e.(Edge.source) = EdgeEnd.Node s /\ e.(Edge.target) = EdgeEnd.Node t
                    /\ nth_error graph'.(Graph.nodes) s = Some vs'
                    /\ nth_error graph'.(Graph.nodes) t = Some vt'
                    /\ exists cs ct,
                         vs'.(Vertex.node).(NodeObject.center) = Some cs
                         /\ vt'.(Vertex.node).(NodeObject.center) = Some ct
                         /\ e'.(Edge.arc) = Some (poincare_geodesic cs ct poindisk))
            graph.(Graph.edges) graph'.(Graph.edges).
Proof.
  destruct graph as [nodes edges]. unfold start_drawing, node_end.
  cbn [Graph.nodes Graph.edges].
  destruct (draw_edges_complete nodes edges) as [Ha Hb]. cbv zeta in Ha, Hb.
  set (vertices := map (project_vertex centerX centerY poindisk) nodes) in *.
  split.
  - destruct (draw_edges vertices poindisk edges) as [es' |].
    + split; [intros _; apply Ha; discriminate | discriminate].
    + split; [intros Habs; now elim Habs |]. intros Hall. apply Ha in Hall. now elim Hall.
  - intros graph' E.
    destruct (draw_edges vertices poindisk edges) as [es' |]; [| discriminate].
    injection E as <-. cbn [Graph.nodes Graph.edges].
    split; [reflexivity |].
    specialize (Hb es' eq_refl).
    clear Ha.
    induction Hb as [| e e' es es'' (Hs & Ht & s & t & vs & vt & Hes & Het & Hvs & Hvt & Harc)
                       _ IH]; [constructor |].
    constructor; [| exact IH].
    split; [exact Hs |]. split; [exact Ht |].
    exists s, t, (project_vertex centerX centerY poindisk vs),
           (project_vertex centerX centerY poindisk vt).
    split; [exact Hes |]. split; [exact Het |].
    unfold vertices. rewrite !nth_error_map, Hvs, Hvt.
    split; [reflexivity |]. split; [reflexivity |].
    exists (projected_center centerX centerY poindisk vs),
           (projected_center centerX centerY poindisk vt).
    split; [reflexivity |]. split; [reflexivity | exact Harc].
Qed.

End StartDrawingProperties.

(** ** The generator *)

Section GeneratorProperties.
Context {T : Type} `{JSNumber T} `{JSInteger T}.
Variable stream : nat -> T.
Local Open Scope js_scope.

Lemma triangle_double (i : nat) : (2 * triangle i = i * (i - 1))%nat.
Proof.
  induction i as [| i IH]; [reflexivity |].
  cbn [triangle]. replace (S i - 1)%nat with i by lia.
  destruct i as [| i]; [reflexivity |].
  replace (S i - 1)%nat with i in IH by lia. nia.
Qed.

(** The inner loop draws [count] numbers and keeps the targets whose
    number is below [p]. *)
Lemma random_row_run (p : T) (i count j k : nat) :
  random_row stream p i count j k
  = (map (int_edge i)
         (filter (fun t => stream (k + (t - j))%nat <? p) (seq j count)),
     (k + count)%nat).
Proof.
  revert j k. induction count as [| count IH]; intros j k.
  - cbn [random_row seq filter map]. unfold ret. rewrite Nat.add_0_r. reflexivity.
  - cbn [random_row]. unfold bind at 1. unfold Math_random at 1.
    unfold bind at 1. rewrite IH. unfold ret.
    cbn [seq filter]. replace (k + (j - j))%nat with k by lia.
    assert (Hext : filter (fun t => stream (S k + (t - S j))%nat <? p) (seq (S j) count)
                   = filter (fun t => stream (k + (t - j))%nat <? p) (seq (S j) count)).
    { apply filter_ext_in. intros t Ht. apply in_seq in Ht.
      replace (S k + (t - S j))%nat with (k + (t - j))%nat by lia. reflexivity. }
    rewrite Hext. replace (S k + count)%nat with (k + S count)%nat by lia.
    destruct (stream k <? p); reflexivity.
Qed.

(** The outer loop, when it starts at node [i] with [triangle i] numbers
    drawn since [base]. *)
Lemma random_edges_run (p : T) (count i base : nat) :
  random_edges stream p count i (base + triangle i)%nat
  = (flat_map (fun a => map (int_edge a)
                            (filter (fun t => stream (base + triangle a + t)%nat <? p)
                                    (seq 0 a)))
              (seq i count),
     (base + triangle (i + count))%nat).
Proof.
  revert i. induction count as [| count IH]; intros i.
  - cbn [random_edges seq flat_map]. unfold ret. rewrite Nat.add_0_r. reflexivity.
  - cbn [random_edges]. unfold bind at 1. rewrite random_row_run.
    unfold bind at 1.
    replace (base + triangle i + i)%nat with (base + triangle (S i))%nat
      by (cbn [triangle]; lia).
    rewrite IH. unfold ret. cbn [seq flat_map].
    replace (i + S count)%nat with (S i + count)%nat by lia.
    f_equal. f_equal. f_equal. apply filter_ext. intros t.
    replace (t - 0)%nat with t by lia. reflexivity.
Qed.

(** The first loop draws three numbers for every node and numbers the
    nodes from [i] on. *)
Lemma random_nodes_run (x_width y_width : T) (count i k : nat) :
  let (nodes, k') := random_nodes stream x_width y_width count i k in
  k' = (k + 3 * count)%nat
  /\ map Vertex.id nodes = map Z.of_nat (seq i count)
  /\ Forall (fun v => v.(Vertex.node).(NodeObject.center) = None
                      /\ v.(Vertex.node).(NodeObject.circle) = None) nodes.
Proof.
  revert i k. induction count as [| count IH]; intros i k.
  - cbn [random_nodes seq map]. unfold ret. repeat split; [lia | constructor].
  - cbn [random_nodes]. unfold bind at 1 2 3, Math_random. unfold bind at 1.
    specialize (IH (S i) (S (S (S k)))).
    destruct (random_nodes stream x_width y_width count (S i) (S (S (S k)))) as [rest k'].
    destruct IH as (Hk & Hid & Hall). unfold ret. cbn [map seq Vertex.id].
    split; [lia |]. split; [f_equal; exact Hid |].
    constructor; [split; reflexivity | exact Hall].
Qed.

Lemma int_edge_inj (i j a t : nat) : @int_edge T i j = int_edge a t -> i = a /\ j = t.
Proof.
  unfold int_edge. intros E. injection E as Ei Ej.
  split; apply Nat2Z.inj; assumption.
Qed.

(** The rows of the edge loop, for any test [f] of a pair. *)
Lemma in_rows (f : nat -> nat -> bool) (i count : nat) (e : Edge.t T) :
  In e (flat_map (fun a => map (int_edge a) (filter (f a) (seq 0 a))) (seq i count))
  <-> exists a t, (i <= a < i + count)%nat /\ (t < a)%nat /\ f a t = true
                  /\ e = int_edge a t.
Proof.
  rewrite in_flat_map. split.
  - intros (a & Ha & He). apply in_seq in Ha. apply in_map_iff in He.
    destruct He as (t & <- & Ht). apply filter_In in Ht. destruct Ht as [Ht Hf].
    apply in_seq in Ht. exists a, t. repeat split; try assumption; lia.
  - intros (a & t & Ha & Ht & Hf & ->). exists a. split; [apply in_seq; lia |].
    apply in_map. apply filter_In. split; [apply in_seq; lia | exact Hf].
Qed.

Lemma NoDup_rows (f : nat -> nat -> bool) (i count : nat) :
  NoDup (flat_map (fun a => map (@int_edge T a) (filter (f a) (seq 0 a))) (seq i count)).
Proof.
  revert i. induction count as [| count IH]; intros i; [constructor |].
  cbn [seq flat_map]. apply NoDup_app.
  - apply Injective_map_NoDup.
    + intros t t' E. apply int_edge_inj in E. tauto.
    + apply NoDup_filter, seq_NoDup.
  - apply IH.
  - intros e He Hrest. apply in_map_iff in He. destruct He as (t & <- & _).
    apply in_rows in Hrest. destruct Hrest as (a & t' & Ha & _ & _ & E).
    apply int_edge_inj in E. lia.
Qed.

Lemma length_rows (f : nat -> nat -> bool) (i count : nat) :
  (List.length (flat_map (fun a => map (@int_edge T a) (filter (f a) (seq 0 a)))
                         (seq i count))
   + triangle i <= triangle (i + count))%nat.
Proof.
  revert i. induction count as [| count IH]; intros i.
  - cbn [seq flat_map List.length]. rewrite Nat.add_0_r. apply le_n.
  - cbn [seq flat_map]. rewrite length_app, length_map.
    pose proof (filter_length_le (f i) (seq 0 i)) as Hrow. rewrite length_seq in Hrow.
    specialize (IH (S i)). cbn [triangle] in IH.
    replace (i + S count)%nat with (S i + count)%nat by lia. lia.
Qed.

(** What [erdos_renyi] returns, and the position in the stream that it
    reaches. *)
Lemma erdos_renyi_run (n : nat) (p : T) (x_width y_width : option T) (k : nat) :
  exists nodes,
    erdos_renyi stream n p x_width y_width k
    = (Graph.mk nodes
         (flat_map (fun a => map (int_edge a)
                                 (filter (fun t => stream (k + 3 * n + triangle a + t)%nat <? p)
                                         (seq 0 a)))
                   (seq 0 n)),
       (k + 3 * n + triangle n)%nat)
    /\ map Vertex.id nodes = map Z.of_nat (seq 0 n).
Proof.
  unfold erdos_renyi. unfold bind at 1.
  match goal with
  | |- context [random_nodes stream ?xw ?yw n 0 k] =>
    pose proof (random_nodes_run xw yw n 0 k) as Hn;
    destruct (random_nodes stream xw yw n 0 k) as [nodes k']
  end.
  destruct Hn as (-> & Hid & _). exists nodes. split; [| exact Hid].
  unfold bind at 1.
  replace (k + 3 * n)%nat with (k + 3 * n + triangle 0)%nat at 1 by (cbn [triangle]; lia).
  rewrite random_edges_run. reflexivity.
Qed.

(** X28: [erdos_renyi] returns [n] nodes with the ids [0 .. n - 1] in
    order, and draws three random numbers for each of them and then one
    for every pair [j < i] of nodes, row by row.  The edge from [i] to
    [j] is present exactly when the number drawn for the pair is below
    [p].  Every edge goes from a node to a node of smaller index: there
    is no loop, no edge occurs twice or in both directions, and there
    are at most [n (n - 1) / 2] edges. *)
Theorem erdos_renyi_graph (n : nat) (p : T) (x_width y_width : option T) (k : nat) :
  let graph := fst (erdos_renyi stream n p x_width y_width k) in
  let drawn := snd (erdos_renyi stream n p x_width y_width k) in
  drawn = (k + 3 * n + triangle n)%nat /\ (2 * triangle n = n * (n - 1))%nat
  /\ map Vertex.id graph.(Graph.nodes) = map Z.of_nat (seq 0 n)
  /\ (forall e, In e graph.(Graph.edges) ->
                exists i j, (j < i < n)%nat /\ e = int_edge i j)
  /\ (forall i j, (j < i < n)%nat ->
                  (In (int_edge i j) graph.(Graph.edges)
                   <-> (stream (k + 3 * n + triangle i + j)%nat <? p) = true))
  /\ NoDup graph.(Graph.edges)
  /\ (2 * List.length graph.(Graph.edges) <= n * (n - 1))%nat.
Proof.
  intros graph drawn. subst graph drawn.
  destruct (erdos_renyi_run n p x_width y_width k) as (nodes & -> & Hid).
  cbn [fst snd Graph.nodes Graph.edges].
  split; [reflexivity |]. split; [apply triangle_double |]. split; [exact Hid |].
  split; [| split; [| split]].
  - intros e He. apply in_rows in He. destruct He as (a & t & Ha & Ht & _ & ->).
    exists a, t. split; [lia | reflexivity].
  - intros i j Hij. rewrite in_rows. split.
    + intros (a & t & _ & _ & Hf & E). apply int_edge_inj in E. destruct E as [-> ->].
      exact Hf.
    + intros Hf. exists i, j. repeat split; try lia. exact Hf.
  - apply NoDup_rows.
  - rewrite <- triangle_double.
    pose proof (length_rows (fun a t => stream (k + 3 * n + triangle a + t)%nat <? p) 0 n)
      as Hlen.
    cbn [triangle] in Hlen. cbn [Nat.add] in Hlen. lia.
Qed.

End GeneratorProperties.

(** ** From the generator to the arcs *)

Section GeneratedGraph.
Context {T : Type} `{JSNumber T} `{JSInteger T}.
Variable stream : nat -> T.
Variables (centerX centerY : T) (poindisk : PoinDisk.t T).

Lemma Forall2_map_Forall {A B C : Type} (P : A -> Prop) (Q : B -> C -> Prop)
    (R : A -> C -> Prop) (f : A -> B) (l : list A) (l' : list C) :
  (forall a c, P a -> Q (f a) c -> R a c) ->
  Forall P l -> Forall2 Q (map f l) l' -> Forall2 R l l'.
Proof.
  intros Himp HP. revert l'. induction HP as [| a l Ha _ IH]; intros l' HQ.
  - inversion HQ. constructor.
  - cbn [map] in HQ. inversion HQ as [| ? c ? l'' Hac Hrest]. subst.
    constructor; [apply Himp; assumption | apply IH; assumption].
Qed.

(** X29: a graph that [erdos_renyi] generated goes through [setGraph]
    and the drawing loop of [render] without a [TypeError]: [setGraph]
    turns both ends of every edge into node objects, with the source at
    a larger position than the target, and the loop stores an arc in
    every edge. *)
Theorem erdos_renyi_renders (n : nat) (p : T) (x_width y_width : option T) (k : nat) :
  let graph := fst (erdos_renyi stream n p x_width y_width k) in
  exists graph',
    start_drawing centerX centerY poindisk (setGraph graph) = Some graph'
    /\ List.length graph'.(Graph.nodes) = n
    /\ Forall2
         (fun e e' =>
            exists i j, (j < i < n)%nat /\ e = int_edge i j
                        /\ e'.(Edge.source) = EdgeEnd.Node i
                        /\ e'.(Edge.target) = EdgeEnd.Node j
                        /\ e'.(Edge.arc) <> None)
         graph.(Graph.edges) graph'.(Graph.edges).
Proof.
  intros graph. subst graph.
  destruct (erdos_renyi_run stream n p x_width y_width k) as (nodes & -> & Hid).
  cbn [fst]. assert (Hlen : List.length nodes = n).
  { rewrite <- (length_map Vertex.id), Hid, length_map. apply length_seq. }
  set (edges := flat_map _ (seq 0 n)).
  assert (Hedges : Forall (fun e => exists i j, (j < i < n)%nat /\ e = int_edge i j) edges).
  { apply Forall_forall. intros e He. apply in_rows in He.
    destruct He as (a & t & Ha & Ht & _ & ->). exists a, t. split; [lia | reflexivity]. }
  assert (Hres : forall i, (i < n)%nat ->
                   resolve nodes (EdgeEnd.Int (Z.of_nat i)) = EdgeEnd.Node i).
  { intros i Hi. cbn [resolve].
    destruct (node_at_in_range nodes (Z.of_nat i)) as [-> _]; [lia |].
    rewrite Nat2Z.id. reflexivity. }
  unfold start_drawing, setGraph. cbn [Graph.nodes Graph.edges].
  set (r := fun e : Edge.t T => Edge.mk (resolve nodes e.(Edge.source))
                                       (resolve nodes e.(Edge.target)) e.(Edge.arc)).
  destruct (draw_edges_complete centerX centerY poindisk nodes (map r edges)) as [Ha Hb].
  cbv zeta in Ha, Hb.
  assert (Hall : draw_edges (map (project_vertex centerX centerY poindisk) nodes)
                            poindisk (map r edges) <> None).
  { apply Ha. apply Forall_map. apply (Forall_impl _ (P := fun e => exists i j,
                                          (j < i < n)%nat /\ e = int_edge i j));
      [| exact Hedges].
    intros e (i & j & Hij & ->). unfold r. cbn [int_edge Edge.source Edge.target].
    rewrite !Hres by lia. split; [exists i | exists j]; split; try reflexivity; lia. }
  destruct (draw_edges (map (project_vertex centerX centerY poindisk) nodes)
                       poindisk (map r edges)) as [es' |] eqn:Hrun;
    [| now elim Hall].
  eexists. split; [reflexivity |]. cbn [Graph.nodes Graph.edges].
  split; [rewrite length_map; exact Hlen |].
  specialize (Hb es' eq_refl).
  refine (Forall2_map_Forall _ _ _ r edges es' _ Hedges Hb).
  intros e e' (i & j & Hij & ->) (Hs & Ht & s & t & vs & vt & _ & _ & _ & _ & Harc).
  exists i, j. split; [exact Hij |]. split; [reflexivity |].
  unfold r in Hs, Ht. cbn [int_edge Edge.source Edge.target] in Hs, Ht.
  rewrite Hres in Hs, Ht by lia.
  split; [exact Hs |]. split; [exact Ht |]. rewrite Harc. discriminate.
Qed.

End GeneratedGraph.

(** ** The nodes of a generated graph *)

Section HexDigits.

Lemma string_length_app (s1 s2 : string) :
  String.length (s1 ++ s2) = (String.length s1 + String.length s2)%nat.
Proof. induction s1 as [| c s1 IH]; cbn; [reflexivity | now rewrite IH]. Qed.

(** With enough fuel a number below [16^d] gets at least one and at most
    [d] digits. *)
Lemma hex_digits_length (fuel : nat) (n : N) (d : nat) :
  (1 <= d)%nat -> (n < 16 ^ N.of_nat d)%N ->
  (1 <= fuel)%nat -> (n < 2 ^ N.of_nat fuel)%N ->
  (1 <= String.length (hex_digits fuel n) <= d)%nat.
Proof.
  revert n d. induction fuel as [| fuel IH]; intros n d Hd Hn Hone Hfuel.
  - lia.
  - cbn [hex_digits]. destruct (N.ltb_spec n 16) as [Hlt | Hge].
    + cbn. lia.
    + rewrite string_length_app. cbn [String.length].
      destruct d as [| [| d]]; [lia | cbn in Hn; lia |].
      assert (Hdiv : (n / 16 < 16 ^ N.of_nat (S d))%N).
      { apply N.Div0.div_lt_upper_bound.
        replace (N.of_nat (S (S d))) with (N.succ (N.of_nat (S d))) in Hn by lia.
        rewrite N.pow_succ_r' in Hn. exact Hn. }
      assert (Hfuel' : (n / 16 < 2 ^ N.of_nat fuel)%N).
      { apply N.le_lt_trans with (n / 2)%N.
        - apply N.div_le_compat_l. lia.
        - apply N.Div0.div_lt_upper_bound.
          replace (N.of_nat (S fuel)) with (N.succ (N.of_nat fuel)) in Hfuel by lia.
          rewrite N.pow_succ_r' in Hfuel. exact Hfuel. }
      assert (Hq : (1 <= n / 16)%N) by (apply N.div_le_lower_bound; lia).
      assert (Hone' : (1 <= fuel)%nat).
      { destruct fuel; [cbn in Hfuel'; lia | lia]. }
      specialize (IH (n / 16)%N (S d) ltac:(lia) Hdiv Hone' Hfuel'). lia.
Qed.

Lemma to_hex_length (n : N) (d : nat) :
  (1 <= d)%nat -> (n < 16 ^ N.of_nat d)%N ->
  (1 <= String.length (to_hex n) <= d)%nat.
Proof.
  intros Hd Hn. unfold to_hex. apply hex_digits_length; [exact Hd | exact Hn | lia |].
  destruct (N.eq_dec n 0) as [-> | Hpos].
  - cbn. lia.
  - replace (N.of_nat (S (N.to_nat (N.log2 n)))) with (N.succ (N.log2 n)) by lia.
    apply N.log2_spec. lia.
Qed.

Lemma hex_value_digit (n : N) : (n < 16)%N -> hex_value (hex_digit n) = Some n.
Proof.
  intros Hn. destruct n as [| p]; [reflexivity |].
  destruct p as [p | p |]; [| | reflexivity];
    (destruct p as [p | p |]; [| | reflexivity]);
    (destruct p as [p | p |]; [| | reflexivity]);
    (destruct p as [p | p |]; [lia | lia | reflexivity]).
Qed.

Lemma hex_value_bound (c : ascii) (v : N) : hex_value c = Some v -> (v < 16)%N.
Proof.
  unfold hex_value. cbv zeta. intros E.
  destruct (andb (N.leb 48 (N_of_ascii c)) (N.leb (N_of_ascii c) 57)) eqn:E1.
  - injection E as <-. apply andb_prop in E1. destruct E1 as [H1 H2].
    apply N.leb_le in H1, H2. lia.
  - destruct (andb (N.leb 97 (N_of_ascii c)) (N.leb (N_of_ascii c) 102)) eqn:E2;
      [| discriminate].
    injection E as <-. apply andb_prop in E2. destruct E2 as [H1 H2].
    apply N.leb_le in H1, H2. lia.
Qed.

Lemma of_hex_from_app (acc : N) (s1 s2 : string) :
  of_hex_from acc (s1 ++ s2)
  = match of_hex_from acc s1 with
    | Some a => of_hex_from a s2
    | None => None
    end.
Proof.
  revert acc. induction s1 as [| c s1 IH]; intros acc; [reflexivity |].
  cbn [append of_hex_from]. destruct (hex_value c) as [v |]; [apply IH | reflexivity].
Qed.

(** The digits written denote the number, and there is at least one. *)
Lemma hex_digits_value (fuel : nat) (n : N) :
  (1 <= fuel)%nat -> (n < 2 ^ N.of_nat fuel)%N ->
  of_hex_from 0 (hex_digits fuel n) = Some n /\ hex_digits fuel n <> EmptyString.
Proof.
  revert n. induction fuel as [| fuel IH]; intros n Hone Hfuel; [lia |].
  cbn [hex_digits]. destruct (N.ltb_spec n 16) as [Hlt | Hge].
  - cbn [of_hex_from]. rewrite hex_value_digit by exact Hlt. cbn [of_hex_from].
    split; [f_equal; lia | discriminate].
  - assert (Hfuel' : (n / 16 < 2 ^ N.of_nat fuel)%N).
    { apply N.le_lt_trans with (n / 2)%N.
      - apply N.div_le_compat_l. lia.
      - apply N.Div0.div_lt_upper_bound.
        replace (N.of_nat (S fuel)) with (N.succ (N.of_nat fuel)) in Hfuel by lia.
        rewrite N.pow_succ_r' in Hfuel. exact Hfuel. }
    assert (Hq : (1 <= n / 16)%N) by (apply N.div_le_lower_bound; lia).
    assert (Hone' : (1 <= fuel)%nat).
    { destruct fuel; [cbn in Hfuel'; lia | lia]. }
    destruct (IH (n / 16)%N Hone' Hfuel') as [Hval _].
    split.
    + rewrite of_hex_from_app, Hval. cbn [of_hex_from].
      rewrite hex_value_digit by (apply N.mod_lt; lia). f_equal.
      rewrite (N.div_mod n 16) at 3 by lia. reflexivity.
    + destruct (hex_digits fuel (n / 16)); discriminate.
Qed.

Lemma to_hex_value (n : N) : of_hex (to_hex n) = Some n.
Proof.
  assert (Hfuel : (n < 2 ^ N.of_nat (S (N.to_nat (N.log2 n))))%N).
  { destruct (N.eq_dec n 0) as [-> | Hpos]; [cbn; lia |].
    replace (N.of_nat (S (N.to_nat (N.log2 n)))) with (N.succ (N.log2 n)) by lia.
    apply N.log2_spec. lia. }
  destruct (hex_digits_value (S (N.to_nat (N.log2 n))) n ltac:(lia) Hfuel) as [Hval Hne].
  unfold of_hex, to_hex.
  destruct (hex_digits (S (N.to_nat (N.log2 n))) n) as [| c s] eqn:E;
    [now elim Hne | exact Hval].
Qed.

(** A string of [l] hexadecimal digits denotes a number below [16^l]. *)
Lemma of_hex_from_bound (s : string) (acc n : N) :
  of_hex_from acc s = Some n -> (n < (acc + 1) * 16 ^ N.of_nat (String.length s))%N.
Proof.
  revert acc. induction s as [| c s IH]; intros acc.
  - cbn. intros [= <-]. lia.
  - cbn [of_hex_from String.length]. destruct (hex_value c) as [v |] eqn:Ev; [| discriminate].
    intros Hn. apply IH in Hn. apply hex_value_bound in Ev.
    replace (N.of_nat (S (String.length s))) with (N.succ (N.of_nat (String.length s)))
      by lia.
    rewrite N.pow_succ_r'. set (P := (16 ^ N.of_nat (String.length s))%N) in *. nia.
Qed.

(** [to_hex] writes no more digits than the number needs. *)
Lemma to_hex_length_iff (n : N) (d : nat) :
  (1 <= d)%nat ->
  ((String.length (to_hex n) <= d)%nat <-> (n < 16 ^ N.of_nat d)%N).
Proof.
  intros Hd. split.
  - intros Hlen. pose proof (to_hex_value n) as Hval. unfold of_hex in Hval.
    destruct (to_hex n) as [| c s] eqn:E; [discriminate |].
    apply of_hex_from_bound in Hval. rewrite N.add_0_l, N.mul_1_l in Hval.
    apply N.lt_le_trans with (1 := Hval). apply N.pow_le_mono_r; lia.
  - intros Hn. apply (to_hex_length n d Hd Hn).
Qed.

End HexDigits.

Section GeneratedNodes.
Local Open Scope R_scope.

Lemma Int_part_IZR (z : Z) : Int_part (IZR z) = z.
Proof. symmetry. apply Int_part_spec. lra. Qed.

Lemma Int_part_bounds (v : R) (z : Z) :
  0 <= v -> v < IZR z -> (0 <= Int_part v < z)%Z.
Proof.
  intros H0 Hz. destruct (base_Int_part v) as [Hle Hgt]. split.
  - apply Z.lt_succ_r. apply lt_IZR. rewrite succ_IZR. lra.
  - apply lt_IZR. lra.
Qed.

(** The nodes are those of the first loop. *)
Lemma erdos_renyi_nodes_eq {T : Type} `{JSNumber T} `{JSInteger T}
    (stream : nat -> T) (n : nat) (p : T) (x_width y_width : option T) (k : nat) :
  (fst (erdos_renyi stream n p x_width y_width k)).(Graph.nodes)
  = fst (random_nodes stream
           (match x_width with Some w => w | None => lit 1000 end)
           (match y_width with Some w => w | None => lit 1000 end) n 0%nat k).
Proof.
  unfold erdos_renyi, bind, ret.
  destruct (random_nodes stream _ _ n 0%nat k) as [nodes k'].
  destruct (random_edges stream p n 0%nat k') as [edges k'']. reflexivity.
Qed.

(** The node that the first loop writes at each index, from the three
    numbers it draws for it. *)
Lemma random_nodes_nth {T : Type} `{JSNumber T} `{JSInteger T}
    (stream : nat -> T) (x_width y_width : T) (count i k j : nat) :
  (j < count)%nat ->
  nth_error (fst (random_nodes stream x_width y_width count i k)) j
  = Some (Vertex.mk (Z.of_nat (i + j))
            ("#" ++ toString16
                      (Math_floor (mul (stream (k + 3 * j + 2)%nat) (lit 16777215%Q))))%string
            (NodeObject.mk (mul (stream (k + 3 * j)%nat) (Math_round x_width))
                           (mul (stream (k + 3 * j + 1)%nat) (Math_round y_width))
                           None None)).
Proof.
  revert i k j. induction count as [| count IH]; intros i k j Hj; [lia |].
  cbn [random_nodes]. unfold bind at 1 2 3, Math_random. unfold bind at 1.
  specialize (IH (S i) (S (S (S k)))).
  destruct (random_nodes stream x_width y_width count (S i) (S (S (S k)))) as [rest k'].
  unfold ret. cbn [fst] in *. destruct j as [| j].
  - cbn [nth_error].
    replace (k + 3 * 0 + 2)%nat with (S (S k)) by lia.
    replace (k + 3 * 0 + 1)%nat with (S k) by lia.
    replace (k + 3 * 0)%nat with k by lia.
    replace (i + 0)%nat with i by lia. reflexivity.
  - cbn [nth_error]. rewrite IH by lia.
    replace (S (S (S k)) + 3 * j + 2)%nat with (k + 3 * S j + 2)%nat by lia.
    replace (S (S (S k)) + 3 * j + 1)%nat with (k + 3 * S j + 1)%nat by lia.
    replace (S (S (S k)) + 3 * j)%nat with (k + 3 * S j)%nat by lia.
    replace (S i + j)%nat with (i + S j)%nat by lia. reflexivity.
Qed.

Lemma Int_part_lt (v : R) (z : Z) : (Int_part v < z)%Z <-> v < IZR z.
Proof.
  destruct (base_Int_part v) as [Hle Hgt]. split.
  - intros Hz. assert (Hs : (Int_part v + 1 <= z)%Z) by lia.
    apply IZR_le in Hs. rewrite plus_IZR in Hs. lra.
  - intros Hz. apply lt_IZR. lra.
Qed.

(** X30: when every number of the stream lies in [[0, 1)], [erdos_renyi]
    returns [n] nodes for the default widths, and the node at index [i]
    is made from the three numbers [ux], [uy], [uc] drawn for it: its id
    is [i], its coordinates are [1000 ux] and [1000 uy], in [[0, 1000)],
    it has no [center] and no [circle], and its colour is [#] followed by
    the hexadecimal digits of [c], the integer part of [16777215 uc].
    These digits denote [c], which is below [16777215], and there are as
    few of them as [c] needs: the colour is not padded, and it has fewer
    than six digits exactly when [16777215 uc] is below [16^5]. *)
Theorem erdos_renyi_nodes (stream : nat -> xreal) (n : nat) (p : xreal) (k : nat) :
  (forall m, exists u, stream m = Fin u /\ 0 <= u < 1) ->
  let graph := fst (erdos_renyi stream n p None None k) in
  List.length graph.(Graph.nodes) = n
  /\ forall i, (i < n)%nat ->
       exists ux uy uc,
         stream (k + 3 * i)%nat = Fin ux
         /\ stream (k + 3 * i + 1)%nat = Fin uy
         /\ stream (k + 3 * i + 2)%nat = Fin uc
         /\ let c := Z.to_N (Int_part (uc * 16777215)) in
            nth_error graph.(Graph.nodes) i
            = Some (Vertex.mk (Z.of_nat i) (String "#" (to_hex c))
                      (NodeObject.mk (Fin (ux * 1000)) (Fin (uy * 1000)) None None))
            /\ 0 <= ux * 1000 < 1000 /\ 0 <= uy * 1000 < 1000
            /\ (c < 16777215)%N
            /\ of_hex (to_hex c) = Some c
            /\ (forall d, (1 <= d)%nat ->
                  ((String.length (to_hex c) <= d)%nat <-> (c < 16 ^ N.of_nat d)%N))
            /\ ((String.length (to_hex c) < 6)%nat <-> uc * 16777215 < 1048576).
Proof.
  intros Hstream graph. subst graph. rewrite erdos_renyi_nodes_eq.
  assert (Hround : Math_round (lit 1000) = Fin 1000).
  { cbn [Math_round xreal_integer XRealInteger.xround lit xreal_number].
    rewrite Q2R_lit. f_equal.
    replace (1000 / 1 + 1 / 2) with (IZR 1000 + 1 / 2) by lra.
    f_equal. symmetry. apply Int_part_spec. lra. }
  split.
  - pose proof (random_nodes_run stream (lit 1000) (lit 1000) n 0%nat k) as Hrun.
    destruct (random_nodes stream (lit 1000) (lit 1000) n 0%nat k) as [nodes k'].
    destruct Hrun as (_ & Hid & _). cbn [fst].
    rewrite <- (length_map Vertex.id), Hid, length_map. apply length_seq.
  - intros i Hi. rewrite random_nodes_nth by exact Hi. rewrite Hround.
    destruct (Hstream (k + 3 * i)%nat) as (ux & Ex & Hux).
    destruct (Hstream (k + 3 * i + 1)%nat) as (uy & Ey & Huy).
    destruct (Hstream (k + 3 * i + 2)%nat) as (uc & Ec & Huc).
    exists ux, uy, uc. rewrite Ex, Ey, Ec.
    split; [reflexivity |]. split; [reflexivity |]. split; [reflexivity |].
    cbv zeta.
    cbn [mul lit xreal_number XReal.xmul Math_floor toString16 xreal_integer
         XRealInteger.xfloor XRealInteger.xhex].
    rewrite Q2R_lit, Int_part_IZR.
    replace (uc * (16777215 / 1)) with (uc * 16777215) by field.
    assert (Hz : (0 <= Int_part (uc * 16777215) < 16777215)%Z).
    { apply Int_part_bounds; nra. }
    assert (Hlt6 : (String.length (to_hex (Z.to_N (Int_part (uc * 16777215)))) < 6)%nat
                   <-> uc * 16777215 < 1048576).
    { rewrite <- (Int_part_lt (uc * 16777215) 1048576).
      pose proof (to_hex_length_iff (Z.to_N (Int_part (uc * 16777215))) 5 ltac:(lia))
        as H5.
      change (16 ^ N.of_nat 5)%N with 1048576%N in H5. lia. }
    split; [| split; [lra |]; split; [lra |]; split; [lia |];
              split; [apply to_hex_value |]; split; [| exact Hlt6]].
    + f_equal. rewrite Nat.add_0_l. f_equal.
      destruct (Int_part (uc * 16777215)) as [| z | z]; [reflexivity | reflexivity | lia].
    + intros d Hd. apply to_hex_length_iff, Hd.
Qed.

Lemma erdos_renyi_nodes_witness :
  (forall m : nat, exists u, (fun _ : nat => Fin (1 / 32)) m = Fin u /\ 0 <= u < 1)
  /\ nth_error
       (fst (erdos_renyi (fun _ => Fin (1 / 32)) 3 (Fin (1 / 4)) None None 0%nat)).(Graph.nodes)
       0
     = Some (Vertex.mk 0 "#7ffff"
               (NodeObject.mk (Fin (1 / 32 * 1000)) (Fin (1 / 32 * 1000)) None None)).
Proof.
  assert (Hs : forall m : nat, exists u, (fun _ : nat => Fin (1 / 32)) m = Fin u /\ 0 <= u < 1).
  { intros m. exists (1 / 32). split; [reflexivity | lra]. }
  split; [exact Hs |].
  destruct (proj2 (erdos_renyi_nodes (fun _ => Fin (1 / 32)) 3 (Fin (1 / 4)) 0%nat Hs)
              0%nat ltac:(lia))
    as (ux & uy & uc & Ex & Ey & Ec & Hnode & _).
  injection Ex as <-. injection Ey as <-. injection Ec as <-.
  rewrite Hnode.
  assert (Hint : Int_part (1 / 32 * 16777215) = 524287%Z).
  { symmetry. apply Int_part_spec. lra. }
  rewrite Hint. reflexivity.
Defined.

End GeneratedNodes.

(** ** Binary64: the remaining functions *)

Section Binary64Rest.
Import PrimFloat.
Variable M : IEEE.MathLibrary.
Variable L : IEEEInteger.HostLibrary.
Local Open Scope float_scope.

(** The disk that [render] builds for a canvas of 400 by 200. *)
Example binary64_render_poindisk :
  @render_poindisk float (IEEE.number M) (IEEEMath.math M) 400 200
  = PoinDisk.mk (BoundBox.mk 0 0 400 200) 200 100 100.
Proof. vm_compute. reflexivity. Qed.

(** [Math.min] and [Math.max] with [NaN] and with the two zeros. *)
Example binary64_min_max :
  IEEEMath.fmin nan 1 = nan /\ IEEEMath.fmax 1 nan = nan
  /\ IEEEMath.fmin 0 (-0) = -0 /\ IEEEMath.fmax (-0) 0 = 0
  /\ IEEEMath.fmin 2 3 = 2 /\ IEEEMath.fmax 2 3 = 3.
Proof. vm_compute. repeat split. Qed.

(** The edges of a graph on four nodes for [p = 0.5]: the numbers drawn
    for the pairs are at the positions 12 to 17 of the stream. *)
Example binary64_erdos_renyi :
  let stream (k : nat) : float :=
    nth k [0.5; 0.5; 0.5; 0.5; 0.5; 0.5; 0.5; 0.5; 0.5; 0.5; 0.5; 0.5;
           0.25; 0.75; 0.125; 0.5; 0.375; 0.875] 0 in
  let graph := fst (@erdos_renyi float (IEEE.number M) (IEEEInteger.integer L)
                      stream 4%nat 0.5 None None 0%nat) in
  graph.(Graph.edges) = [int_edge 1%nat 0%nat; int_edge 2%nat 1%nat; int_edge 3%nat 1%nat]
  /\ map Vertex.id graph.(Graph.nodes) = [0; 1; 2; 3]%Z
  /\ (setGraph graph).(Graph.edges)
     = [Edge.mk (EdgeEnd.Node 1%nat) (EdgeEnd.Node 0%nat) None;
        Edge.mk (EdgeEnd.Node 2%nat) (EdgeEnd.Node 1%nat) None;
        Edge.mk (EdgeEnd.Node 3%nat) (EdgeEnd.Node 1%nat) None].
Proof. vm_compute. repeat split. Qed.

(** [setGraph] on indices outside the array, and on ends that are not
    integers. *)
Example setGraph_out_of_range :
  let v := Vertex.mk 7%Z "red" (NodeObject.mk 1 2 None None) in
  let graph :=
    Graph.mk [v; v]
      [Edge.mk (EdgeEnd.Int 1%Z) (EdgeEnd.Int 2%Z) None;
       Edge.mk (EdgeEnd.Int (-1)%Z) (EdgeEnd.Id "a") None] in
  (@setGraph float graph).(Graph.edges)
  = [Edge.mk (EdgeEnd.Node 1%nat) EdgeEnd.Undefined None;
     Edge.mk EdgeEnd.Undefined (EdgeEnd.Id "a") None].
Proof. vm_compute. reflexivity. Qed.

End Binary64Rest.
